(** * Action orchestration and execution engine: a shallow embedding

    The development follows the four components of the engine, leaves
    first: the process executor ([Command], package [command]), the
    per-object resource orchestrator ([Orchestrator], [Base.lockedStart]
    and friends in package [object]), the selection dispatcher
    ([Dispatcher], [Selection.Expand] / [Selection.Action]) and the status
    bus ([StatusBus], package [statusbus]).

    Goroutines are modelled as thread pools driven by an explicit schedule:
    a schedule is a list of thread identifiers, thread [0] being the caller
    and thread [S i] the i-th spawned goroutine.  A blocked thread cannot be
    scheduled.  Statements quantify over every schedule. *)

From Stdlib Require Import ZArith.
From Stdlib.Strings Require Import Byte.
From stdpp Require Import base option list strings gmap.

(** ** Go slices

    A Go slice is either [nil] or backed by an array; both can have length
    zero, and the code distinguishes them ([make([]Path, 0)] is not nil). *)

Inductive slice (A : Type) : Type :=
| nil_slice : slice A
| make_slice (l : list A) : slice A.
Arguments nil_slice {A}.
Arguments make_slice {A} l.

Definition elems {A} (s : slice A) : list A :=
  match s with
  | nil_slice => []
  | make_slice l => l
  end.

(** [len(s)] *)
Definition len {A} (s : slice A) : nat := length (elems s).

(** [append(s, l...)]: appending nothing to nil keeps nil. *)
Definition append {A} (s : slice A) (l : list A) : slice A :=
  match s, l with
  | nil_slice, [] => nil_slice
  | _, _ => make_slice (elems s ++ l)
  end.

(** [s[1:]], defined when [1 <= len(s)] (Go panics otherwise). *)
Definition slice_from1 {A} (s : slice A) : option (slice A) :=
  match s with
  | make_slice (_ :: l) => Some (make_slice l)
  | _ => None
  end.

Definition error := string.

(** ** Process executor (package [command]) *)

Module Command.

Local Open Scope Z_scope.

Abbreviation bytes := (list Byte.byte).

(** The byte of [[]byte("\n")], written before every buffered line. *)
Definition newline : Byte.byte := Byte.x0a.

(** [zerolog.Level] is an [int8]; [zerolog.Disabled] is 7. *)
Definition Level := Z.
Definition Disabled : Level := 7.

(** The closures appended to [t.goroutine] by [Start]. *)
Inductive Task := StdoutTask | StderrTask | CtxTask.

Inductive Event :=
| EvLogOut (lvl : Level) (line : bytes)
| EvOnStdoutLine (line : bytes)
| EvLogErr (lvl : Level) (line : bytes)
| EvOnStderrLine (line : bytes)
| EvSendDone (who : string)
| EvRecvDone (who : string)
| EvGo (f : Task)
| EvCmdWait
| EvCancel.

(** The fields of [T] that the stream capture and the join read or write.
    [onStdoutLine] / [onStderrLine] / [cancel] record whether the function
    value is non-nil; [done] holds the capacity of the channel once made. *)
Record T := mkT {
  stdoutLogLevel : Level;
  stderrLogLevel : Level;
  bufferStdout : bool;
  bufferStderr : bool;
  timeout : Z;
  onStdoutLine : bool;
  onStderrLine : bool;
  done : option Z;
  goroutine : list Task;
  cancel : bool;
  stdout : slice Byte.byte;
  stderr : slice Byte.byte
}.

Definition set_stdout (t : T) (b : slice Byte.byte) : T :=
  mkT (stdoutLogLevel t) (stderrLogLevel t) (bufferStdout t) (bufferStderr t)
      (timeout t) (onStdoutLine t) (onStderrLine t) (done t) (goroutine t)
      (cancel t) b (stderr t).


Definition add_goroutine (t : T) (f : Task) : T :=
  mkT (stdoutLogLevel t) (stderrLogLevel t) (bufferStdout t) (bufferStderr t)
      (timeout t) (onStdoutLine t) (onStderrLine t) (done t)
      (goroutine t ++ [f]) (cancel t) (stdout t) (stderr t).

Definition set_cancel (t : T) : T :=
  mkT (stdoutLogLevel t) (stderrLogLevel t) (bufferStdout t) (bufferStderr t)
      (timeout t) (onStdoutLine t) (onStderrLine t) (done t) (goroutine t)
      true (stdout t) (stderr t).

Definition make_done (t : T) (cap : Z) : T :=
  mkT (stdoutLogLevel t) (stderrLogLevel t) (bufferStdout t) (bufferStderr t)
      (timeout t) (onStdoutLine t) (onStderrLine t) (Some cap) (goroutine t)
      (cancel t) (stdout t) (stderr t).

(** A command as returned by [New] and its options: nothing launched yet. *)
Definition fresh (t : T) : Prop :=
  goroutine t = [] ∧ cancel t = false ∧ done t = None
  ∧ stdout t = nil_slice ∧ stderr t = nil_slice.

(** [stripFistByte] *)
Definition stripFistByte (b : slice Byte.byte) : slice Byte.byte :=
  if 1 <? Z.of_nat (len b) then
    match slice_from1 b with
    | Some b' => b'
    | None => b          (* unreachable: 1 < len b *)
    end
  else b.

(** [T.Stdout] and [T.Stderr] *)
Definition Stdout (t : T) : slice Byte.byte := stripFistByte (stdout t).
Definition Stderr (t : T) : slice Byte.byte := stripFistByte (stderr t).

(** One iteration of the [for s.Scan()] loop of the stdout closure. *)
Definition stdoutLine (t : T) (line : bytes) : T * list Event :=
  let ev_log :=
    if bool_decide (stdoutLogLevel t ≠ Disabled)
    then [EvLogOut (stdoutLogLevel t) line] else [] in
  let ev_cb := if onStdoutLine t then [EvOnStdoutLine line] else [] in
  let t' :=
    if bufferStdout t
    then set_stdout t (append (stdout t) ([newline] ++ line))
    else t in
  (t', ev_log ++ ev_cb).


(** The scan loop over the lines the scanner yields, in order. *)
Fixpoint scanLoop (lineFn : T → bytes → T * list Event)
    (t : T) (lines : list bytes) : T * list Event :=
  match lines with
  | [] => (t, [])
  | l :: ls =>
      let '(t1, tr1) := lineFn t l in
      let '(t2, tr2) := scanLoop lineFn t1 ls in
      (t2, tr1 ++ tr2)
  end.

(** The stdout closure run to the end of the stream: scan, then
    [t.done <- "stdout"]. *)
Definition stdoutTask (t : T) (lines : list bytes) : T * list Event :=
  let '(t', tr) := scanLoop stdoutLine t lines in
  (t', tr ++ [EvSendDone "stdout"]).


(** Follows the spec's words, for comparison with [Stdout]: the lines the
    subprocess wrote, joined by the separator. *)
Fixpoint joinLines (lines : list bytes) : bytes :=
  match lines with
  | [] => []
  | [l] => l
  | l :: ls => l ++ [newline] ++ joinLines ls
  end.

(** What the operating system and the sibling helpers answer during
    [Start]: [valid], [update] (credential lookup), the two pipe creations
    and [cmd.Start]. [None] is a nil error. *)
Record Env := mkEnv {
  valid_err : option error;
  update_err : option error;
  stdoutPipe_err : option error;
  stderrPipe_err : option error;
  start_err : option error
}.

(** [T.Start]: returns the error (if any), the updated command and the
    goroutines launched, in launch order. *)
Definition Start (env : Env) (t : T) : option error * T * list Event :=
  match valid_err env with
  | Some e => (Some e, t, [])
  | None =>
  match update_err env with
  | Some e => (Some e, t, [])
  | None =>
  let wantOut :=
    bool_decide (stdoutLogLevel t ≠ Disabled) || bufferStdout t || onStdoutLine t in
  match (if wantOut then stdoutPipe_err env else None) with
  | Some e => (Some e, t, [])
  | None =>
  let t1 := if wantOut then add_goroutine t StdoutTask else t in
  let wantErr :=
    bool_decide (stderrLogLevel t1 ≠ Disabled) || bufferStderr t1 || onStderrLine t1 in
  match (if wantErr then stderrPipe_err env else None) with
  | Some e => (Some e, t1, [])
  | None =>
  let t2 := if wantErr then add_goroutine t1 StderrTask else t1 in
  let t3 :=
    if 0 <? timeout t2 then add_goroutine (set_cancel t2) CtxTask else t2 in
  match start_err env with
  | Some e => (Some e, t3, [])
  | None =>
      if 0 <? Z.of_nat (length (goroutine t3)) then
        (None, make_done t3 (Z.of_nat (length (goroutine t3))),
         map EvGo (goroutine t3))
      else (None, t3, [])
  end end end end end.

(** [waitCount] as computed at the head of [T.Wait]. *)
Definition waitCount (t : T) : Z :=
  let n := Z.of_nat (length (goroutine t)) in
  if cancel t then n - 1 else n.

(** The [for i := 0; i < waitCount; i++ { <-t.done }] loop against the
    values the channel delivers, in order.  [None]: the receive blocks for
    ever because nothing more is delivered. *)
Fixpoint recvLoop (n : nat) (ch : list string) : option (list Event * list string) :=
  match n with
  | O => Some ([], ch)
  | S k =>
      match ch with
      | [] => None
      | s :: ch' =>
          match recvLoop k ch' with
          | Some (tr, rest) => Some (EvRecvDone s :: tr, rest)
          | None => None
          end
      end
  end.

(** [T.Wait]: [ch] is what [t.done] delivers, [proc_err] what [cmd.Wait]
    returns.  The deferred [t.cancel()] runs last. *)
Definition Wait (t : T) (ch : list string) (proc_err : option error)
    : option (option error * list Event) :=
  match recvLoop (Z.to_nat (waitCount t)) ch with
  | None => None
  | Some (tr, _) =>
      Some (proc_err, tr ++ [EvCmdWait] ++ (if cancel t then [EvCancel] else []))
  end.

Definition isStream (f : Task) : bool :=
  match f with
  | StdoutTask | StderrTask => true
  | CtxTask => false
  end.

(** Every buffered line is written behind a separator byte. *)
Definition framed (lines : list bytes) : bytes :=
  concat ((λ l, newline :: l) <$> lines).

(** Sample commands: both streams buffered and nothing run yet; the state
    left by a subprocess that wrote one empty line; a command with a
    deadline. *)
Definition buffered_cmd : T :=
  mkT Disabled Disabled true true 0 false false None [] false nil_slice nil_slice.

Definition one_empty_line_cmd : T :=
  mkT Disabled Disabled true false 0 false false None [] false
      (make_slice [newline]) nil_slice.

Definition deadline_cmd : T :=
  mkT Disabled Disabled true true 5000000000 false false None [] false
      nil_slice nil_slice.

Definition ok_env : Env := mkEnv None None None None None.

End Command.

(** ** Resource action orchestrator (package [object], [base_start.go]) *)

Module Orchestrator.

Section WithWorld.

(** Whatever the drivers read and write when their methods run. *)
Context {World : Type}.

(** [resource.Driver]. [Abort] is [Some] exactly for the drivers that
    implement [resource.Aborter]. *)
Record Driver := mkDriver {
  RID : string;
  Abort : option (World → bool * World);
  Start : World → option error * World
}.

Inductive Event :=
| EvAbort (rid : string) (b : bool)        (* [a.Abort()] returned [b] *)
| EvVote (b : bool)                        (* [q <- b] *)
| EvRecv (b : bool)                        (* [<-q] yielded [b] *)
| EvStart (rid : string) (err : option error).   (* [r.Start()] returned [err] *)

(** Program points of one [abortWorker] goroutine. *)
Inductive Worker :=
| WRun (r : Driver)      (* spawned, about to test [r.(resource.Aborter)] *)
| WSend (b : bool)       (* about to [q <- b] *)
| WDefer                 (* returned, about to run the deferred [wg.Done()] *)
| WExit.

(** Program points of [abortStart] itself. *)
Inductive Main :=
| MSpawn (todo : list Driver)       (* the [go t.abortWorker] loop *)
| MWait                             (* [wg.Wait()] *)
| MCollect (k : nat) (ret : bool)   (* [k] iterations of the vote loop left *)
| MReturn (err : option error).

Record State := mkState {
  main : Main;
  workers : list Worker;
  q : list bool;          (* buffered content of the vote channel, oldest first *)
  q_cap : nat;            (* its capacity *)
  wg : Z;                 (* the [sync.WaitGroup] counter *)
  world : World;
  trace : list Event
}.

Definition errAbortStart : error := "abort start".

(** State on entry of the spawn loop: [q := make(chan bool, len(rs))]. *)
Definition init (rs : list Driver) (w : World) : State :=
  mkState (MSpawn rs) [] [] (length rs) 0 w [].

(** One step of the caller. [rs] is [t.listResources()]. *)
Definition main_step (rs : list Driver) (st : State) : option State :=
  match main st with
  | MSpawn (r :: todo) =>
      Some (mkState (MSpawn todo) (workers st ++ [WRun r]) (q st) (q_cap st)
                    (wg st + 1) (world st) (trace st))
  | MSpawn [] =>
      Some (mkState MWait (workers st) (q st) (q_cap st) (wg st) (world st)
                    (trace st))
  | MWait =>
      if bool_decide (wg st = 0%Z)
      then Some (mkState (MCollect (length rs) false) (workers st) (q st)
                         (q_cap st) (wg st) (world st) (trace st))
      else None
  | MCollect (S k) ret =>
      (* [ret = ret || <-q]: the receive is evaluated only when [ret] is false *)
      if ret
      then Some (mkState (MCollect k true) (workers st) (q st) (q_cap st)
                         (wg st) (world st) (trace st))
      else
        match q st with
        | b :: q' =>
            Some (mkState (MCollect k (ret || b)) (workers st) q' (q_cap st)
                          (wg st) (world st) (trace st ++ [EvRecv b]))
        | [] => None
        end
  | MCollect O ret =>
      Some (mkState (MReturn (if ret then Some errAbortStart else None))
                    (workers st) (q st) (q_cap st) (wg st) (world st) (trace st))
  | MReturn _ => None
  end.

(** One step of the [i]-th [abortWorker]. *)
Definition worker_step (i : nat) (st : State) : option State :=
  match workers st !! i with
  | Some (WRun r) =>
      match Abort r with
      | None =>
          Some (mkState (main st) (<[i := WSend false]> (workers st)) (q st)
                        (q_cap st) (wg st) (world st) (trace st))
      | Some abort =>
          let '(b, w') := abort (world st) in
          Some (mkState (main st) (<[i := WSend b]> (workers st)) (q st)
                        (q_cap st) (wg st) w' (trace st ++ [EvAbort (RID r) b]))
      end
  | Some (WSend b) =>
      if bool_decide (length (q st) < q_cap st)
      then Some (mkState (main st) (<[i := WDefer]> (workers st)) (q st ++ [b])
                         (q_cap st) (wg st) (world st) (trace st ++ [EvVote b]))
      else None
  | Some WDefer =>
      Some (mkState (main st) (<[i := WExit]> (workers st)) (q st) (q_cap st)
                    (wg st - 1) (world st) (trace st))
  | Some WExit | None => None
  end.

(** Thread [0] is the caller, thread [S i] the [i]-th worker. *)
Definition step (rs : list Driver) (tid : nat) (st : State) : option State :=
  match tid with
  | O => main_step rs st
  | S i => worker_step i st
  end.

(** Run a schedule; [None] when it schedules a thread that cannot move. *)
Fixpoint exec (rs : list Driver) (sched : list nat) (st : State) : option State :=
  match sched with
  | [] => Some st
  | tid :: sched' =>
      match step rs tid st with
      | Some st' => exec rs sched' st'
      | None => None
      end
  end.

(** [Base.abortStart] under a schedule that runs it to its return. *)
Definition abortStart (sched : list nat) (rs : list Driver) (w : World)
    : option (option error * World * list Event) :=
  match exec rs sched (init rs w) with
  | Some st =>
      match main st with
      | MReturn err => Some (err, world st, trace st)
      | _ => None
      end
  | None => None
  end.

(** [Base.masterStart] *)
Fixpoint masterStart (rs : list Driver) (w : World)
    : option error * World * list Event :=
  match rs with
  | [] => (None, w, [])
  | r :: rs' =>
      match Start r w with
      | (Some err, w1) => (Some err, w1, [EvStart (RID r) (Some err)])
      | (None, w1) =>
          let '(res, w2, tr) := masterStart rs' w1 in
          (res, w2, EvStart (RID r) None :: tr)
      end
  end.

(** [Base.slaveStart] *)
Definition slaveStart (w : World) : option error * World * list Event :=
  (None, w, []).

(** [Base.lockedStart] *)
Definition lockedStart (sched : list nat) (rs : list Driver) (w : World)
    : option (option error * World * list Event) :=
  match abortStart sched rs w with
  | None => None
  | Some (Some err, w1, tr1) => Some (Some err, w1, tr1)
  | Some (None, w1, tr1) =>
      match masterStart rs w1 with
      | (Some err, w2, tr2) => Some (Some err, w2, tr1 ++ tr2)
      | (None, w2, tr2) =>
          let '(res, w3, tr3) := slaveStart w2 in
          Some (res, w3, tr1 ++ tr2 ++ tr3)
      end
  end.

(** Votes sent on, and received from, the channel, in order. *)
Definition sent (tr : list Event) : list bool :=
  omap (λ e, match e with EvVote b => Some b | _ => None end) tr.

Definition recvd (tr : list Event) : list bool :=
  omap (λ e, match e with EvRecv b => Some b | _ => None end) tr.

Definition isStart (e : Event) : bool :=
  match e with
  | EvStart _ _ => true
  | _ => false
  end.

Definition isAbortTrue (e : Event) : bool :=
  match e with
  | EvAbort _ true => true
  | _ => false
  end.

(** The votes up to and including the first [true] one. *)
Fixpoint upto_true (l : list bool) : list bool :=
  match l with
  | [] => []
  | true :: _ => [true]
  | false :: l' => false :: upto_true l'
  end.

(** Counting workers by program point. *)
Definition active (wk : Worker) : nat :=
  match wk with
  | WExit => 0
  | _ => 1
  end.

Definition hasSent (wk : Worker) : nat :=
  match wk with
  | WDefer | WExit => 1
  | _ => 0
  end.

Definition sendingTrue (wk : Worker) : nat :=
  match wk with
  | WSend true => 1
  | _ => 0
  end.

Definition nTrue (l : list bool) : nat :=
  sum_list_with (λ b : bool, if b then 1 else 0) l.

Definition nAbortTrue (tr : list Event) : nat :=
  sum_list_with (λ e, if isAbortTrue e then 1 else 0) tr.

(** Steps left to a worker, and a bound on those left to the caller. *)
Definition weight (wk : Worker) : nat :=
  match wk with
  | WRun _ => 3
  | WSend _ => 2
  | WDefer => 1
  | WExit => 0
  end.

Definition mainWeight (rs : list Driver) (m : Main) : nat :=
  match m with
  | MSpawn todo => 4 * length todo + length rs + 3
  | MWait => length rs + 2
  | MCollect k _ => k + 1
  | MReturn _ => 0
  end.

Definition measure (rs : list Driver) (st : State) : nat :=
  mainWeight rs (main st) + sum_list_with weight (workers st).

(** What holds of the caller at each program point. *)
Definition mainInv (rs : list Driver) (st : State) : Prop :=
  match main st with
  | MSpawn todo =>
      (∃ spawned, rs = spawned ++ todo ∧ length (workers st) = length spawned)
      ∧ recvd (trace st) = []
  | MWait =>
      length (workers st) = length rs ∧ recvd (trace st) = []
  | MCollect k ret =>
      length (workers st) = length rs
      ∧ sum_list_with active (workers st) = 0
      ∧ (if ret
         then recvd (trace st) = upto_true (sent (trace st))
              ∧ 0 < nTrue (sent (trace st))
         else Forall (λ b, b = false) (recvd (trace st))
              ∧ length (q st) = k)
  | MReturn err =>
      length (workers st) = length rs
      ∧ sum_list_with active (workers st) = 0
      ∧ recvd (trace st) = upto_true (sent (trace st))
      ∧ err = (if bool_decide (0 < nTrue (sent (trace st)))
               then Some errAbortStart else None)
  end.

(** The invariant of the abort check. *)
Record Inv (rs : list Driver) (st : State) : Prop := mkInv {
  inv_cap : q_cap st = length rs;
  inv_wg : wg st = Z.of_nat (sum_list_with active (workers st));
  inv_sent : length (sent (trace st)) = sum_list_with hasSent (workers st);
  inv_fifo : sent (trace st) = recvd (trace st) ++ q st;
  inv_abort :
    nAbortTrue (trace st)
    = nTrue (sent (trace st)) + sum_list_with sendingTrue (workers st);
  inv_nostart : Forall (λ e, isStart e = false) (trace st);
  inv_main : mainInv rs st
}.

(** The resources started successfully one after the other. *)
Fixpoint startAll (rs : list Driver) (w : World) : option World :=
  match rs with
  | [] => Some w
  | r :: rs' =>
      match Start r w with
      | (None, w1) => startAll rs' w1
      | (Some _, _) => None
      end
  end.

End WithWorld.

Arguments Driver World : clear implicits.
Arguments State World : clear implicits.

(** Sample drivers over a world that counts the resources started: a disk
    without [Abort] that starts, an app whose [Abort] vetoes, and an app
    whose [Abort] lets go but whose [Start] fails. *)
Definition disk0 : Driver nat :=
  mkDriver "disk#0" None (λ w, (None, S w)).

Definition app1 : Driver nat :=
  mkDriver "app#1" (Some (λ w, (true, w))) (λ w, (None, S w)).

Definition app2 : Driver nat :=
  mkDriver "app#2" (Some (λ w, (false, w))) (λ w, (Some "exit status 1", w)).

(** The trace of resources started without error, in order. *)
Definition started {World} (rs : list (Driver World)) : list Event :=
  (λ r, EvStart (RID r) None) <$> rs.

End Orchestrator.

(** ** Selection dispatcher (package [object], [selection.go]) *)

Module Dispatcher.

(** What [recover()] yields in the deferred function of a dispatched task.
    The first three are raised by the call expression itself:
    [fn.Call] on the zero [reflect.Value] of a missing method, [[0]] on an
    empty result list, and the failed assertion [.(ActionResult)].
    [PanicValue] is a non-nil value passed to [panic] by the method. *)
Inductive Payload :=
| PanicZeroValueCall
| PanicIndexOutOfRange
| PanicTypeAssertion
| PanicValue (v : string).

Section WithWorld.

Context {World Path Arg : Type}.

(** Modelled from the spec: the [ActionResult] struct, declared outside the
    files at hand: "the object path, the returned value (if any), an error,
    and - distinctly - a recovered-panic payload". *)
Record ActionResult := mkActionResult {
  ResultPath : option Path;
  Data : option string;
  Error : option error;
  Panic : option Payload
}.

(** A value returned through [reflect]: an [ActionResult] or anything else. *)
Inductive GoValue :=
| VActionResult (r : ActionResult)
| VOther (v : string).

Inductive Outcome :=
| Returns (rets : list GoValue)
| Panics (p : Payload).

(** A method reached by name: arguments and world in, outcome and world out. *)
Definition Method := list Arg → World → Outcome * World.

(** An object handle: its method set, by name
    ([reflect.ValueOf(obj).MethodByName]). *)
Definition Object := gmap string Method.

(** [Path.NewObject] is declared outside the files at hand; [None] is the
    nil handle. *)
Context (NewObject : Path → option Object).

(** The response of the daemon to the selector request of
    [handle.Do()]. *)
Definition Requester := string → error + list Byte.byte.

(** [Selection]; [API] is [None] when [t.API.Requester == nil]. *)
Record Selection := mkSelection {
  SelectorExpression : string;
  API : option Requester
}.

(** [json.Unmarshal(b, &l)], whose error the code drops. *)
Context (unmarshal : list Byte.byte → slice Path → slice Path).

(** [Selection.daemonExpand] *)
Definition daemonExpand (t : Selection) : slice Path * option error :=
  let l := make_slice [] in
  match API t with
  | None => (l, None)
  | Some req =>
      match req (SelectorExpression t) with
      | inl err => (nil_slice, Some err)
      | inr b => (unmarshal b l, None)
      end
  end.

(** [Selection.Expand] *)
Definition Expand (t : Selection) : slice Path :=
  match daemonExpand t with
  | (_, Some _) => make_slice []
  | (l, None) => l
  end.

(** What one dispatched task ends up sending on [q]. *)
Inductive CallOutcome :=
| Returned (r : ActionResult)
| Panicked (p : Payload).

(** [fn.Call(fa)[0].Interface().(ActionResult)] *)
Definition call (fn : option Method) (fa : list Arg) (w : World)
    : CallOutcome * World :=
  match fn with
  | None => (Panicked PanicZeroValueCall, w)
  | Some m =>
      match m fa w with
      | (Panics p, w') => (Panicked p, w')
      | (Returns [], w') => (Panicked PanicIndexOutOfRange, w')
      | (Returns (VActionResult r :: _), w') => (Returned r, w')
      | (Returns (VOther _ :: _), w') => (Panicked PanicTypeAssertion, w')
      end
  end.

(** The value sent on [q]: the returned result, or, from the deferred
    function, [ActionResult{Path: path, Panic: r}]. *)
Definition toResult (path : Path) (oc : CallOutcome) : ActionResult :=
  match oc with
  | Returned r => r
  | Panicked p => mkActionResult (Some path) None None (Some p)
  end.

Inductive Event :=
| EvCall (path : Path) (oc : CallOutcome)
| EvSend (r : ActionResult)
| EvRecv (r : ActionResult).

(** Program points of one dispatched goroutine.  [WSend] and [WExit] keep
    the outcome of the call for the statements below. *)
Inductive Worker :=
| WCall (path : Path) (fn : option Method)
| WSend (path : Path) (oc : CallOutcome)
| WExit (path : Path) (oc : CallOutcome).

Inductive Main :=
| MLoop (todo : list Path)           (* [for _, path := range paths] *)
| MCollect (i : nat)                 (* [for i := 0; i < started; i++] *)
| MReturn (results : slice ActionResult).

Record State := mkState {
  main : Main;
  workers : list Worker;
  q : list ActionResult;
  q_cap : nat;
  results : list ActionResult;
  started : nat;
  world : World;
  trace : list Event
}.

(** State on entry of the dispatch loop, [paths] being [t.Expand()]. *)
Definition init (paths : slice Path) (w : World) : State :=
  mkState (MLoop (elems paths)) [] [] (len paths) [] 0 w [].

Definition main_step (action : string) (st : State) : option State :=
  match main st with
  | MLoop (path :: todo) =>
      match NewObject path with
      | None =>
          Some (mkState (MLoop todo) (workers st) (q st) (q_cap st)
                        (results st) (started st) (world st) (trace st))
      | Some obj =>
          Some (mkState (MLoop todo)
                        (workers st ++ [WCall path (obj !! action)])
                        (q st) (q_cap st) (results st) (S (started st))
                        (world st) (trace st))
      end
  | MLoop [] =>
      Some (mkState (MCollect 0) (workers st) (q st) (q_cap st) (results st)
                    (started st) (world st) (trace st))
  | MCollect i =>
      if bool_decide (i < started st)
      then
        match q st with
        | r :: q' =>
            Some (mkState (MCollect (S i)) (workers st) q' (q_cap st)
                          (results st ++ [r]) (started st) (world st)
                          (trace st ++ [EvRecv r]))
        | [] => None
        end
      else
        Some (mkState (MReturn (make_slice (results st))) (workers st) (q st)
                      (q_cap st) (results st) (started st) (world st) (trace st))
  | MReturn _ => None
  end.

Definition worker_step (fa : list Arg) (i : nat) (st : State) : option State :=
  match workers st !! i with
  | Some (WCall path fn) =>
      let '(oc, w') := call fn fa (world st) in
      Some (mkState (main st) (<[i := WSend path oc]> (workers st)) (q st)
                    (q_cap st) (results st) (started st) w'
                    (trace st ++ [EvCall path oc]))
  | Some (WSend path oc) =>
      if bool_decide (length (q st) < q_cap st)
      then Some (mkState (main st) (<[i := WExit path oc]> (workers st))
                         (q st ++ [toResult path oc]) (q_cap st) (results st)
                         (started st) (world st)
                         (trace st ++ [EvSend (toResult path oc)]))
      else None
  | Some (WExit _ _) | None => None
  end.

Definition step (action : string) (fa : list Arg) (tid : nat) (st : State)
    : option State :=
  match tid with
  | O => main_step action st
  | S i => worker_step fa i st
  end.

Fixpoint exec (action : string) (fa : list Arg) (sched : list nat) (st : State)
    : option State :=
  match sched with
  | [] => Some st
  | tid :: sched' =>
      match step action fa tid st with
      | Some st' => exec action fa sched' st'
      | None => None
      end
  end.

(** [Selection.Action] under a schedule that runs it to its return. *)
Definition Action (sched : list nat) (t : Selection) (action : string)
    (args : list Arg) (w : World) : option (slice ActionResult * State) :=
  match exec action args sched (init (Expand t) w) with
  | Some st =>
      match main st with
      | MReturn rs => Some (rs, st)
      | _ => None
      end
  | None => None
  end.

(** The paths of the selection that yield a handle, in order. *)
Definition dispatched (paths : list Path) : list Path :=
  filter (λ p, is_Some (NewObject p)) paths.

(** The calls that ran to their send, by goroutine. *)
Definition finished (ws : list Worker) : list (Path * CallOutcome) :=
  omap (λ wk, match wk with WExit p oc => Some (p, oc) | _ => None end) ws.

Definition workerPath (wk : Worker) : Path :=
  match wk with
  | WCall p _ | WSend p _ | WExit p _ => p
  end.

(** The calls already made, by goroutine, and as the trace records them. *)
Definition called (ws : list Worker) : list (Path * CallOutcome) :=
  omap (λ wk, match wk with
              | WCall _ _ => None
              | WSend p oc | WExit p oc => Some (p, oc)
              end) ws.

Definition calls (tr : list Event) : list (Path * CallOutcome) :=
  omap (λ e, match e with EvCall p oc => Some (p, oc) | _ => None end) tr.

Definition sent (tr : list Event) : list ActionResult :=
  omap (λ e, match e with EvSend r => Some r | _ => None end) tr.

Definition resultOf (c : Path * CallOutcome) : ActionResult :=
  toResult c.1 c.2.

Definition weight (wk : Worker) : nat :=
  match wk with
  | WCall _ _ => 2
  | WSend _ _ => 1
  | WExit _ _ => 0
  end.

Definition mainWeight (st : State) : nat :=
  match main st with
  | MLoop todo => 4 * length todo + started st + 2
  | MCollect i => (started st - i) + 1
  | MReturn _ => 0
  end.

Definition measure (st : State) : nat :=
  mainWeight st + sum_list_with weight (workers st).

(** What holds of the caller at each program point. *)
Definition mainInv (paths : list Path) (st : State) : Prop :=
  match main st with
  | MLoop todo =>
      (∃ seen, paths = seen ++ todo
               ∧ workerPath <$> workers st = dispatched seen)
      ∧ results st = []
  | MCollect i =>
      workerPath <$> workers st = dispatched paths
      ∧ i = length (results st)
  | MReturn rs =>
      workerPath <$> workers st = dispatched paths
      ∧ rs = make_slice (results st)
      ∧ length (results st) = started st
  end.

(** The invariant of the dispatch. *)
Record Inv (paths : list Path) (st : State) : Prop := mkInv {
  inv_cap : q_cap st = length paths;
  inv_started : started st = length (workers st);
  inv_fifo : sent (trace st) = results st ++ q st;
  inv_sent : sent (trace st) ≡ₚ resultOf <$> finished (workers st);
  inv_calls : calls (trace st) ≡ₚ called (workers st);
  inv_main : mainInv paths st
}.

(** Every goroutine was spawned for a path with a handle, with the method
    found under the action name; a missing method makes the call panic. *)
Definition workerOk (action : string) (wk : Worker) : Prop :=
  match wk with
  | WCall p fn => ∃ obj, NewObject p = Some obj ∧ fn = obj !! action
  | WSend p oc | WExit p oc =>
      ∃ obj, NewObject p = Some obj
             ∧ (obj !! action = None → oc = Panicked PanicZeroValueCall)
  end.

End WithWorld.

Arguments ActionResult Path : clear implicits.
Arguments State World Path Arg : clear implicits.

(** A sample cluster: object [a] starts, object [b] panics in [Start],
    object [c] has no [Start] method, and no other path has a handle.  The
    daemon answers one byte per selected object. *)
Definition sampleStart (p : string) : @Method unit string unit :=
  λ _ w, (Returns [VActionResult (mkActionResult (Some p) None None None)], w).

Definition samplePanic : @Method unit string unit :=
  λ _ w, (Panics (PanicValue "nil map"), w).

Definition sampleNewObject (p : string) : option (@Object unit string unit) :=
  if decide (p = "a") then Some {[ "Start" := sampleStart p ]}
  else if decide (p = "b") then Some {[ "Start" := samplePanic ]}
  else if decide (p = "c") then Some ∅
  else None.

Definition sampleUnmarshal (b : list Byte.byte) (l : slice string) : slice string :=
  make_slice ((λ c, String (Ascii.ascii_of_byte c) EmptyString) <$> b).


Definition failingSelection : Selection :=
  mkSelection "*" (Some (λ _, inl "connection refused")).

End Dispatcher.

(** ** Status bus (package [statusbus]) *)

Module StatusBus.

(** [status.T] *)
Inductive Status :=
| Undef | Up | Down | Warn | StandbyUp | StandbyDown | NotApplicable.

(** The two errors the tests of the package name. *)
Inductive UsageError := ErrorNeedStart | ErrorStarted.

(** [path.T{Name, Namespace, Kind}] *)
Definition PathT : Type := string * string * string.

(** Modelled from the spec: the bus itself (type [T] with [Start], [Stop],
    [Post] and [Get]), of which only the tests are at hand: "a single
    mapping" from (object path, resource id) to status, "with its start/stop
    transitions enforced by an internal state tag checked on every
    operation". *)
Record T := mkT {
  started : bool;
  data : gmap (PathT * string) Status
}.

(** The zero value [T{}]. *)
Definition zero : T := mkT false ∅.

(** An operation either returns or panics with a usage error. *)
Inductive Result (A : Type) :=
| Ok (a : A)
| PanicsWith (e : UsageError).
Arguments Ok {A} a.
Arguments PanicsWith {A} e.

(** Modelled from the spec: "[Start()] (idempotent-guarded: calling twice
    fails fast)". *)
Definition Start (t : T) : Result T :=
  if started t then PanicsWith ErrorStarted else Ok (mkT true ∅).

(** Modelled from the spec: "[Stop()] (releases the cache and is safe to
    call even if not started)". *)
Definition Stop (t : T) : T := mkT false ∅.

(** Modelled from the spec: "[Post(objectPath, resourceID, status,
    pending)] (upsert)", a fail-fast usage error before [Start]. *)
Definition Post (t : T) (p : PathT) (rid : string) (s : Status) (pending : bool)
    : Result T :=
  if started t
  then Ok (mkT true (<[(p, rid) := s]> (data t)))
  else PanicsWith ErrorNeedStart.

(** Modelled from the spec: "[Get(objectPath, resourceID)] (read; returns
    Undef if unknown)", a fail-fast usage error before [Start]. *)
Definition Get (t : T) (p : PathT) (rid : string) : Result Status :=
  if started t
  then Ok (default Undef (data t !! (p, rid)))
  else PanicsWith ErrorNeedStart.

(** The calls a client can make, to run sequences of them. *)
Inductive Op :=
| OpStart
| OpStop
| OpPost (p : PathT) (rid : string) (s : Status) (pending : bool)
| OpGet (p : PathT) (rid : string).

Definition apply (t : T) (op : Op) : Result T :=
  match op with
  | OpStart => Start t
  | OpStop => Ok (Stop t)
  | OpPost p rid s pending => Post t p rid s pending
  | OpGet p rid =>
      match Get t p rid with
      | Ok _ => Ok t
      | PanicsWith e => PanicsWith e
      end
  end.

(** A sequence of calls, stopping at the first panic. *)
Fixpoint applyAll (t : T) (ops : list Op) : Result T :=
  match ops with
  | [] => Ok t
  | op :: ops' =>
      match apply t op with
      | Ok t' => applyAll t' ops'
      | PanicsWith e => PanicsWith e
      end
  end.

End StatusBus.

(** ** Process executor: running, and capturing two streams at once *)

Module CommandRun.
Import Command.

(** [T.Run]: [Start], and [Wait] only when [Start] returned nil. *)
Definition Run (env : Env) (t : T) (ch : list string) (proc_err : option error)
    : option (option error * T * list Event) :=
  match Start env t with
  | (Some err, t', evs) => Some (Some err, t', evs)
  | (None, t', evs) =>
      match Wait t' ch proc_err with
      | Some (res, tr) => Some (res, t', evs ++ tr)
      | None => None
      end
  end.









End CommandRun.

(** ** Process executor: [commandArgsFromString] and [CommandFromString] *)

Module CommandArgs.
Import Stdlib.Strings.Ascii.

(** [strings.Contains(s, sub)] *)
Fixpoint contains (s sub : string) : bool :=
  match s with
  | EmptyString => String.prefix sub EmptyString
  | String _ s' => String.prefix sub s || contains s' sub
  end.

(** An index expression either yields or panics out of range. *)
Inductive Indexed (A : Type) : Type :=
| Yields (a : A)
| PanicsOutOfRange.
Arguments Yields {A} a.
Arguments PanicsOutOfRange {A}.

Section WithShlex.

(** [shlex.Split(s, true)] of package [go-shlex]. *)
Context (shlexSplit : string → error + list string).

(** [commandArgsFromString] *)
Definition commandArgsFromString (s : string) : error + list string :=
  if bool_decide (String.length s = 0)
  then inl "can not create command from empty string"%string
  else
    let needShell :=
      if contains s "|" then true
      else if contains s "&&" then true
      else if contains s ";" then true
      else false in
    if needShell then inr ["/bin/sh"; "-c"; s]%string
    else
      match shlexSplit s with
      | inl err => inl err
      | inr sSplit =>
          if bool_decide (length sSplit = 0)
          then inl "unexpected empty command args from string"%string
          else inr sSplit
      end.

(** [CommandFromString]: the program and the arguments handed to
    [exec.Command(args[0], args[1:]...)]. *)
Definition CommandFromString (s : string)
    : Indexed (error + string * list string) :=
  match commandArgsFromString s with
  | inl err => Yields (inl err)
  | inr [] => PanicsOutOfRange
  | inr (name :: args) => Yields (inr (name, args))
  end.

(** [CommandArgsFromString] *)
Definition CommandArgsFromString (s : string) : error + list string :=
  commandArgsFromString s.

End WithShlex.

(** A splitter on single spaces, to run the samples. *)
Fixpoint splitSpaces (acc s : string) : list string :=
  match s with
  | EmptyString => if bool_decide (acc = EmptyString) then [] else [acc]
  | String c s' =>
      if bool_decide (c = " "%char)
      then (if bool_decide (acc = EmptyString) then [] else [acc])
             ++ splitSpaces EmptyString s'
      else splitSpaces (acc +:+ String c EmptyString) s'
  end.

Definition sampleShlex (s : string) : error + list string :=
  inr (splitSpaces EmptyString s).

End CommandArgs.

(** ** Process executor: the buffer after a sequence of lines *)

Module CommandBuffer.
Import Command.


End CommandBuffer.

(** ** Process executor: the join on [t.done]

    After a successful [Start] the helper goroutines and the caller of
    [Wait] meet on the buffered channel [t.done].  A stream closure sends
    once, when its stream is closed; the deadline closure waits for
    [ctx.Done()] and then sends [len(t.goroutine)] times; [Wait] receives
    [waitCount] times, calls [cmd.Wait()] and, on return, runs the deferred
    [t.cancel()].  ([cmd.Process] is set by the successful [cmd.Start()], so
    the deadline closure's branch for a nil process is not taken.) *)

Module Join.
Import Command.

(** [ctx.Err()] *)
Inductive Cause := NotDone | DeadlineExceeded | Canceled.

Inductive Helper :=
| HScanning (f : Task)       (* a stream closure in its [for s.Scan()] loop *)
| HSending (f : Task)        (* the stream is closed: about to [t.done <- name] *)
| HExited (f : Task)
| HSelect                    (* the deadline closure in [select] on [ctx.Done()] *)
| HCtxSending (k : nat)      (* [k] iterations of its [t.done <- "ctx"] loop left *)
| HCtxExited.

Inductive Waiter :=
| WRecv (k : nat)            (* [k] iterations of the receive loop left *)
| WCmdWait                   (* in [cmd.Wait()] *)
| WReturned.

Inductive Event :=
| JDeadline                  (* the timer of the context fires *)
| JOnStderrLine (line : string)
| JKill                      (* [cmd.Process.Kill()] *)
| JSend (who : string)
| JRecv (who : string)
| JCmdWait
| JCancel.

Inductive Action :=
| ActWaiter
| ActHelper (i : nat)
| ActTimer.

Record State := mkState {
  waiter : Waiter;
  helpers : list Helper;
  buf : list string;       (* content of [t.done], oldest first *)
  cap : nat;               (* its capacity *)
  cause : Cause;
  trace : list Event
}.

(** The value a stream closure sends. *)
Definition signal (f : Task) : string :=
  match f with
  | StdoutTask => "stdout"
  | StderrTask => "stderr"
  | CtxTask => "ctx"
  end.

Definition helperOf (f : Task) : Helper :=
  match f with
  | CtxTask => HSelect
  | _ => HScanning f
  end.

(** The goroutines as [Start] launched them, and [Wait] entering its loop. *)
Definition init (t : T) : State :=
  mkState (WRecv (Z.to_nat (waitCount t))) (helperOf <$> goroutine t) []
          (match done t with Some c => Z.to_nat c | None => 0 end)
          NotDone [].

Definition waiter_step (t : T) (st : State) : option State :=
  match waiter st with
  | WRecv (S k) =>
      match buf st with
      | s :: b =>
          Some (mkState (WRecv k) (helpers st) b (cap st) (cause st)
                        (trace st ++ [JRecv s]))
      | [] => None
      end
  | WRecv O =>
      Some (mkState WCmdWait (helpers st) (buf st) (cap st) (cause st)
                    (trace st ++ [JCmdWait]))
  | WCmdWait =>
      if cancel t
      then Some (mkState WReturned (helpers st) (buf st) (cap st)
                         (match cause st with NotDone => Canceled | c => c end)
                         (trace st ++ [JCancel]))
      else Some (mkState WReturned (helpers st) (buf st) (cap st) (cause st)
                         (trace st))
  | WReturned => None
  end.

Definition helper_step (t : T) (i : nat) (st : State) : option State :=
  match helpers st !! i with
  | Some (HScanning f) =>
      Some (mkState (waiter st) (<[i := HSending f]> (helpers st)) (buf st)
                    (cap st) (cause st) (trace st))
  | Some (HSending f) =>
      if bool_decide (length (buf st) < cap st)
      then Some (mkState (waiter st) (<[i := HExited f]> (helpers st))
                         (buf st ++ [signal f]) (cap st) (cause st)
                         (trace st ++ [JSend (signal f)]))
      else None
  | Some HSelect =>
      match cause st with
      | NotDone => None
      | DeadlineExceeded =>
          Some (mkState (waiter st)
                        (<[i := HCtxSending (length (goroutine t))]> (helpers st))
                        (buf st) (cap st) (cause st)
                        (trace st
                         ++ (if onStderrLine t
                             then [JOnStderrLine "DeadlineExceeded"] else [])
                         ++ [JKill]))
      | Canceled =>
          Some (mkState (waiter st)
                        (<[i := HCtxSending (length (goroutine t))]> (helpers st))
                        (buf st) (cap st) (cause st) (trace st))
      end
  | Some (HCtxSending (S k)) =>
      if bool_decide (length (buf st) < cap st)
      then Some (mkState (waiter st) (<[i := HCtxSending k]> (helpers st))
                         (buf st ++ ["ctx"%string]) (cap st) (cause st)
                         (trace st ++ [JSend "ctx"]))
      else None
  | Some (HCtxSending O) =>
      Some (mkState (waiter st) (<[i := HCtxExited]> (helpers st)) (buf st)
                    (cap st) (cause st) (trace st))
  | Some (HExited _) | Some HCtxExited | None => None
  end.

Definition timer_step (t : T) (st : State) : option State :=
  match cause st with
  | NotDone =>
      if (0 <? timeout t)%Z
      then Some (mkState (waiter st) (helpers st) (buf st) (cap st)
                         DeadlineExceeded (trace st ++ [JDeadline]))
      else None
  | _ => None
  end.

Definition step (t : T) (a : Action) (st : State) : option State :=
  match a with
  | ActWaiter => waiter_step t st
  | ActHelper i => helper_step t i st
  | ActTimer => timer_step t st
  end.

Fixpoint exec (t : T) (sched : list Action) (st : State) : option State :=
  match sched with
  | [] => Some st
  | a :: sched' =>
      match step t a st with
      | Some st' => exec t sched' st'
      | None => None
      end
  end.

(** Counting helpers by program point. *)
Definition pendingStream (h : Helper) : nat :=
  match h with
  | HScanning _ | HSending _ => 1
  | _ => 0
  end.

Definition isCtxHelper (h : Helper) : nat :=
  match h with
  | HSelect | HCtxSending _ | HCtxExited => 1
  | _ => 0
  end.

(** Sends already made by a helper, [n] being [len(t.goroutine)]. *)
Definition sendsOf (n : nat) (h : Helper) : nat :=
  match h with
  | HExited _ => 1
  | HCtxSending k => n - k
  | HCtxExited => n
  | _ => 0
  end.

Definition nRecv (tr : list Event) : nat :=
  sum_list_with (λ e, match e with JRecv _ => 1 | _ => 0 end) tr.

Definition isCtxTask (f : Task) : nat :=
  match f with
  | CtxTask => 1
  | _ => 0
  end.

(** What [Start] leaves behind when it returns nil on a fresh command. *)
Definition wellStarted (t : T) : Prop :=
  done t = (match goroutine t with
            | [] => None
            | _ => Some (Z.of_nat (length (goroutine t)))
            end)
  ∧ sum_list_with isCtxTask (goroutine t) = (if cancel t then 1 else 0)
  ∧ cancel t = (0 <? timeout t)%Z.

(** The invariant of the join. *)
Record Inv (t : T) (st : State) : Prop := mkInv {
  inv_cap : cap st = length (goroutine t);
  inv_len : length (helpers st) = length (goroutine t);
  inv_ctx : sum_list_with isCtxHelper (helpers st) = (if cancel t then 1 else 0);
  inv_left : ∀ i k, helpers st !! i = Some (HCtxSending k) →
                    k ≤ length (goroutine t);
  inv_count :
    sum_list_with (sendsOf (length (goroutine t))) (helpers st)
    = length (buf st) + nRecv (trace st);
  inv_waiter :
    match waiter st with
    | WRecv k => k + nRecv (trace st) = Z.to_nat (waitCount t)
    | _ => nRecv (trace st) = Z.to_nat (waitCount t)
    end;
  inv_notdone :
    cause st = NotDone →
    ∀ i h, helpers st !! i = Some h → isCtxHelper h = 1 → h = HSelect;
  inv_canceled : cause st = Canceled → waiter st = WReturned;
  inv_drained :
    cause st ≠ DeadlineExceeded → (∀ k, waiter st ≠ WRecv k) →
    sum_list_with pendingStream (helpers st) = 0
}.

End Join.

(** ** Process executor: sends still to come on [t.done] *)

Module JoinCount.
Import Join.

(** Sends a helper has still to make, [n] being [len(t.goroutine)]. *)
Definition sendsLeft (n : nat) (h : Helper) : nat :=
  match h with
  | HScanning _ | HSending _ => 1
  | HSelect => n
  | HCtxSending k => k
  | HExited _ | HCtxExited => 0
  end.

(** Steps the deadline closure has still to take. *)
Definition ctxWeight (n : nat) (h : Helper) : nat :=
  match h with
  | HSelect => n + 2
  | HCtxSending k => k + 1
  | _ => 0
  end.

Definition waiterWeight (w : Waiter) : nat :=
  match w with
  | WRecv k => k + 1
  | _ => 0
  end.

End JoinCount.

(** ** Resource action orchestrator: who is asked, who is started *)

Module OrchestratorTrace.
Import Orchestrator.

Section WithWorld.

Context {World : Type}.

(** The [Start] calls of a trace, in order. *)
Definition starts (tr : list Event) : list Event :=
  filter (λ e, isStart e = true) tr.

(** The resources whose [Abort] was called, in call order. *)
Definition aborted (tr : list Event) : list string :=
  omap (λ e, match e with EvAbort rid _ => Some rid | _ => None end) tr.

(** The listed resources that implement [resource.Aborter]. *)
Definition aborters (rs : list (Driver World)) : list string :=
  RID <$> filter (λ r, is_Some (Abort r)) rs.

(** The [Abort] call a worker has still to make. *)
Definition pendingAbort (wk : Worker (World:=World)) : option string :=
  match wk with
  | WRun r => match Abort r with Some _ => Some (RID r) | None => None end
  | _ => None
  end.

(** The resources for which no worker is spawned yet. *)
Definition todoOf (m : Main (World:=World)) : list (Driver World) :=
  match m with
  | MSpawn todo => todo
  | _ => []
  end.

(** Calls made, calls to come and resources to spawn make up the
    aborters; the drivers' world moves only when some [Abort] is called. *)
Definition abortInv (rs : list (Driver World)) (w : World) (st : State World)
    : Prop :=
  aborted (trace st) ++ omap pendingAbort (workers st)
    ++ aborters (todoOf (main st)) ≡ₚ aborters rs
  ∧ (aborted (trace st) = [] → world st = w).

End WithWorld.

End OrchestratorTrace.

(** ** LVM2 logical volumes (package [lvm2]), a client of the executor *)

Module LVM2.
Import Stdlib.Strings.Ascii.

(** The fields of [LVInfo] read here. *)
Record LVInfo := mkLVInfo {
  InfoLVName : string;
  InfoVGName : string;
  LVAttr : string;
  Devices : string
}.

(** [LVData]: the [report] list, each report with its [lv] list. *)
Definition LVData := list (list LVInfo).

(** [LV] *)
Record LV := mkLV {
  LVName : string;
  VGName : string
}.

(** Errors as [errors.Is(err, ErrExist)] tells them apart:
    [errors.Wrap(ErrExist, fqn)], or anything else. *)
Inductive Err :=
| ErrExistAt (fqn : string)
| ErrOther (msg : string).

Definition isErrExist (err : option Err) : bool :=
  match err with
  | Some (ErrExistAt _) => true
  | _ => false
  end.

(** [LV.FQN] and [LV.DevPath] *)
Definition FQN (t : LV) : string := VGName t +:+ "/" +:+ LVName t.
Definition DevPath (t : LV) : string :=
  "/dev/" +:+ VGName t +:+ "/" +:+ LVName t.

(** What one run of [lvs --reportformat json <fqn>] gave: the error of
    [cmd.Run()], [cmd.ExitCode()] and the command after the run, of which
    [cmd.Stdout()] is read. *)
Record LvsRun := mkLvsRun {
  run_err : option error;
  exitCode : Z;
  cmd : Command.T
}.

(** The [LVAttrIndex] constants: [iota] counts the lines of the block, so
    the second line is 1 and the state is at 4. *)
Definition LVAttrIndexType : nat := 0.
Definition LVAttrIndexPermissions : nat := 1.
Definition LVAttrIndexAllocationPolicy : nat := 2.
Definition LVAttrIndexAllocationFixedMinor : nat := 3.
Definition LVAttrIndexState : nat := 4.
Definition LVAttrIndexDeviceOpen : nat := 5.

Definition LVAttrStateActive : ascii := "a"%char.

(** [LVAttrs.Attr] *)
Definition Attr (t : string) (index : nat) : ascii :=
  if bool_decide (String.length t < index + 1) then " "%char
  else
    match String.get index t with
    | Some c => c
    | None => " "%char      (* unreachable: index < len(t) *)
    end.

Section WithJSON.

(** [json.Unmarshal(cmd.Stdout(), &data)] *)
Context (unmarshal : slice Byte.byte → error + LVData).

(** [LV.Show] *)
Definition Show (t : LV) (r : LvsRun) : option LVInfo * option Err :=
  match run_err r with
  | Some err =>
      if bool_decide (exitCode r = 5%Z)
      then (None, Some (ErrExistAt (FQN t)))
      else (None, Some (ErrOther err))
  | None =>
      match unmarshal (Command.Stdout (cmd r)) with
      | inl err => (None, Some (ErrOther err))
      | inr data =>
          match data with
          | [[info]] => (Some info, None)
          | _ => (None, Some (ErrExistAt (FQN t)))
          end
      end
  end.

(** [LV.Attrs] *)
Definition Attrs (t : LV) (r : LvsRun) : string * option Err :=
  match Show t r with
  | (lvInfo, err) =>
      if isErrExist err then (EmptyString, None)
      else
        match err, lvInfo with
        | Some e, _ => (EmptyString, Some e)
        | None, Some info => (LVAttr info, None)
        | None, None => (EmptyString, None)   (* not returned by [Show] *)
        end
  end.

(** [LV.Exists] *)
Definition Exists (t : LV) (r : LvsRun) : bool * option Err :=
  match Show t r with
  | (_, err) =>
      if isErrExist err then (false, None)
      else
        match err with
        | Some e => (false, Some e)
        | None => (true, None)
        end
  end.

(** [LV.IsActive] *)
Definition IsActive (t : LV) (r : LvsRun) : bool * option Err :=
  match Attrs t r with
  | (_, Some err) => (false, Some err)
  | (attrs, None) =>
      (bool_decide (Attr attrs LVAttrIndexState = LVAttrStateActive), None)
  end.

End WithJSON.

(** Samples: a decoder that finds one report of one active volume in any
    output but the empty one; a run that printed a report; a run that
    failed with exit code 5. *)
Definition sampleInfo : LVInfo :=
  mkLVInfo "lv1" "vg1" "-wi-a-----" "/dev/sda(0)".

Definition sampleUnmarshal (b : slice Byte.byte) : error + LVData :=
  match elems b with
  | [] => inl "unexpected end of JSON input"
  | _ => inr [[sampleInfo]]
  end.

Definition sampleLV : LV := mkLV "lv1" "vg1".

Definition sampleRun : LvsRun :=
  mkLvsRun None 0 (Command.stdoutTask Command.buffered_cmd [[x7b]; [x7d]]).1.

Definition missingRun : LvsRun :=
  mkLvsRun (Some "exit status 5") 5 Command.buffered_cmd.

End LVM2.

(** ** Setting keywords on an object ([base_set.go]) *)

Module BaseSet.
Import Stdlib.Strings.Ascii.

Section WithConfig.

(** The configuration of the object and the parsed operations, with
    [keyop.Parse] ([None] when the result [IsZero]), [config.Set] and
    [config.Commit] of packages [keyop] and [xconfig]. *)
Context {Config KeyOp : Type}.
Context (Parse : string → option KeyOp).
Context (configSet : KeyOp → Config → option error * Config).
Context (configCommit : Config → option error * Config).

Inductive Event :=
| EvSet (op : KeyOp) (err : option error)
| EvCommit (err : option error).

(** The loop of [Base.SetKeywords]: the error, if it returned from inside
    the loop, or the count of changes. *)
Fixpoint setLoop (kws : list string) (cfg : Config) (changes : nat)
    : (error + nat) * Config * list Event :=
  match kws with
  | [] => (inr changes, cfg, [])
  | kw :: kws' =>
      match Parse kw with
      | None => (inl ("invalid set expression: " +:+ kw), cfg, [])
      | Some op =>
          match configSet op cfg with
          | (Some err, cfg1) => (inl err, cfg1, [EvSet op (Some err)])
          | (None, cfg1) =>
              let '(res, cfg2, tr) := setLoop kws' cfg1 (S changes) in
              (res, cfg2, EvSet op None :: tr)
          end
      end
  end.

(** [Base.SetKeywords] *)
Definition SetKeywords (kws : list string) (cfg : Config)
    : option error * Config * list Event :=
  match setLoop kws cfg 0 with
  | (inl err, cfg1, tr) => (Some err, cfg1, tr)
  | (inr changes, cfg1, tr) =>
      if bool_decide (0 < changes)
      then
        let '(err, cfg2) := configCommit cfg1 in
        (err, cfg2, tr ++ [EvCommit err])
      else (None, cfg1, tr)
  end.

Definition isCommit (e : Event) : bool :=
  match e with
  | EvCommit _ => true
  | EvSet _ _ => false
  end.

(** Every keyword parses and is set without error, from [cfg] on. *)
Fixpoint allSet (kws : list string) (cfg : Config) : option Config :=
  match kws with
  | [] => Some cfg
  | kw :: kws' =>
      match Parse kw with
      | None => None
      | Some op =>
          match configSet op cfg with
          | (None, cfg1) => allSet kws' cfg1
          | (Some _, _) => None
          end
      end
  end.

End WithConfig.

(** A sample configuration: an association list, operations [key=value],
    a commit that always succeeds. *)
Fixpoint splitEq (acc s : string) : option (string * string) :=
  match s with
  | EmptyString => None
  | String c s' =>
      if bool_decide (c = "="%char) then Some (acc, s')
      else splitEq (acc +:+ String c EmptyString) s'
  end.

Definition sampleParse (kw : string) : option (string * string) :=
  splitEq EmptyString kw.

Definition sampleSet (op : string * string) (cfg : list (string * string))
    : option error * list (string * string) :=
  (None, op :: cfg).

Definition sampleCommit (cfg : list (string * string))
    : option error * list (string * string) :=
  (None, cfg).

End BaseSet.

(** ** Raw disk resource driver (package [resdiskraw]) *)

Module ResDiskRaw.
Local Open Scope Z_scope.

(** [status.T], the values used here *)
Inductive Status := NotApplicable | Undef | Down | Up | Warn.

(** Errors: those of the system calls, passed on as they are, and those
    made here with [fmt.Errorf]. *)
Inductive Err :=
| ErrSys (msg : string)
| ErrMismatch (p : string) (majorCur minorCur major minor : Z)
    (* "block device %s already exists, but is %d:%d instead of %d:%d" *)
| ErrInvalidPerm (perm : Z)            (* "invalid perm: %s" *)
| ErrNotCapable.                       (* "not raw capable" *)

(** The issues of the status functions, by their format strings. *)
Inductive Issue :=
| IssueSrc (err : Err)                                  (* "%s: %s" *)
| IssueMissing (p : string)                             (* "%s does not exist" *)
| IssueMismatch (p : string) (majorCur minorCur major minor : Z)
    (* "%s is %d:%d instead of %d:%d" *)
| IssueOwnerLookup (p : string) (err : Err)             (* "%s user lookup error: %s" *)
| IssueUser (p uidString username : string) (uid : Z).  (* "%s user should be %s (%s) but is %d" *)

(** The functions registered with [actionrollback.Register], by what they
    call when run. *)
Inductive Rollback :=
| RbRemove (p : string)                  (* os.Remove(p) *)
| RbChown (p : string) (uid gid : Z)     (* os.Chown(p, uid, gid) *)
| RbChmod (p : string) (mode : Z)        (* os.Chmod(p, mode) *)
| RbUnbind (minor : Z).                  (* ra.UnbindMinor(minor) *)

(** The calls that change the system, and the registrations. *)
Inductive Event :=
| EvMknod (p : string) (major minor : Z)
| EvChown (p : string) (uid gid : Z)
| EvChmod (p : string) (mode : Z)
| EvBind (src : string)
| EvRegister (rb : Rollback).

(** A function returns, or panics on a nil pointer dereference. *)
Inductive Result (A : Type) :=
| Returns (a : A)
| Panics.
Arguments Returns {A} a.
Arguments Panics {A}.

(** [DevPair], each device by its path; [Dst] may be nil. *)
Record DevPair := mkDevPair {
  Src : string;
  Dst : option string
}.

(** [user.User] and [user.Group], the fields read here. *)
Record User := mkUser {
  Uid : string;
  UserGid : string;
  Username : string
}.

Record Group := mkGroup {
  Gid : string;
  Name : string
}.

(** [T], the fields read here. *)
Record T := mkT {
  TUser : option User;
  TGroup : option Group;
  Perm : option Z;
  CreateCharDevices : bool
}.

(** What the system answers during one call on one device: each of these
    is asked at most once by [startBlockDevice] and by the status
    functions. *)
Record Sys := mkSys {
  srcMajorMinor : Err + (Z * Z);     (* pair.Src.MajorMinor() *)
  dstExists : bool;                  (* file.Exists(p) *)
  dstMajorMinor : Err + (Z * Z);     (* pair.Dst.MajorMinor() *)
  mknod_err : option Err;            (* pair.Dst.MknodBlock(major, minor) *)
  ownership : Err + (Z * Z);         (* file.Ownership(p) *)
  chown_err : option Err;            (* os.Chown *)
  fileMode : Err + Z;                (* file.Mode(p) *)
  chmod_err : option Err             (* os.Chmod *)
}.

(** [os.FileMode]: the permission bits and the type bits, as package [os]
    defines them. *)
Definition ModePerm : Z := 511.    (* 0777 *)

Definition ModeDir : Z := Z.shiftl 1 31.
Definition ModeSymlink : Z := Z.shiftl 1 27.
Definition ModeDevice : Z := Z.shiftl 1 26.
Definition ModeNamedPipe : Z := Z.shiftl 1 25.
Definition ModeSocket : Z := Z.shiftl 1 24.
Definition ModeCharDevice : Z := Z.shiftl 1 21.
Definition ModeIrregular : Z := Z.shiftl 1 19.

Definition ModeType : Z :=
  Z.lor ModeDir (Z.lor ModeSymlink (Z.lor ModeNamedPipe (Z.lor ModeSocket
    (Z.lor ModeDevice (Z.lor ModeCharDevice ModeIrregular))))).

(** [FileMode.Perm] *)
Definition PermOf (m : Z) : Z := Z.land m ModePerm.

(** [T.statusCreateBlockDevice] *)
Definition statusCreateBlockDevice (sys : Sys) (pair : DevPair)
    : Status * list Issue :=
  match Dst pair with
  | None => (NotApplicable, [])
  | Some p =>
      if bool_decide (p = EmptyString) then (NotApplicable, [])
      else
        match srcMajorMinor sys with
        | inl err => (Undef, [IssueSrc err])
        | inr (major, minor) =>
            if negb (dstExists sys) then (Down, [IssueMissing p])
            else
              match dstMajorMinor sys with
              | inr (majorCur, minorCur) =>
                  if bool_decide (majorCur = major ∧ minorCur = minor)
                  then (Up, [])
                  else (Warn, [IssueMismatch p majorCur minorCur major minor])
              | inl _ => (Down, [])
              end
        end
  end.

(** [T.createBlockDevice], on the path of [pair.Dst] *)
Definition createBlockDevice (sys : Sys) (p : string)
    : option Err * list Event :=
  match srcMajorMinor sys with
  | inl err => (Some err, [])
  | inr (major, minor) =>
      if dstExists sys then
        match dstMajorMinor sys with
        | inr (majorCur, minorCur) =>
            if bool_decide (majorCur = major ∧ minorCur = minor)
            then (None, [])
            else (Some (ErrMismatch p majorCur minorCur major minor), [])
        | inl _ => (None, [])
        end
      else
        match mknod_err sys with
        | Some err => (Some err, [EvMknod p major minor])
        | None => (None, [EvMknod p major minor; EvRegister (RbRemove p)])
        end
  end.

Section WithAtoi.

(** [strconv.Atoi], of which the error is dropped. *)
Context (Atoi : string → Z).

(** [T.uid] and [T.gid] *)
Definition uid (t : T) : Z :=
  match TUser t with
  | None => -1
  | Some u => Atoi (Uid u)
  end.

Definition gid (t : T) : Z :=
  match TGroup t with
  | None => -1
  | Some g => Atoi (Gid g)
  end.

(** The two tests of [setOwnership]: the id to set, -1 to keep the current
    one; the arguments of the log line read [t.User.Username] and
    [t.Group.Name], which panics on a nil [User] or [Group]. *)
Definition newUIDOf (t : T) (uid0 : Z) : Result Z :=
  if bool_decide (uid0 ≠ uid t) then
    match TUser t with
    | Some _ => Returns (uid t)
    | None => Panics
    end
  else Returns (-1).

Definition newGIDOf (t : T) (gid0 : Z) : Result Z :=
  if bool_decide (gid0 ≠ gid t) then
    match TGroup t with
    | Some _ => Returns (gid t)
    | None => Panics
    end
  else Returns (-1).

(** [T.setOwnership] *)
Definition setOwnership (t : T) (sys : Sys) (p : string)
    : Result (option Err) * list Event :=
  match TUser t, TGroup t with
  | None, None => (Returns None, [])
  | _, _ =>
      match ownership sys with
      | inl err => (Returns (Some err), [])
      | inr (uid0, gid0) =>
          match newUIDOf t uid0 with
          | Panics => (Panics, [])
          | Returns newUID =>
              match newGIDOf t gid0 with
              | Panics => (Panics, [])
              | Returns newGID =>
                  if bool_decide (newUID ≠ -1 ∨ newGID ≠ -1) then
                    match chown_err sys with
                    | Some err => (Returns (Some err), [EvChown p newUID newGID])
                    | None =>
                        (Returns None,
                         [EvChown p newUID newGID;
                          EvRegister (RbChown p uid0 gid0)])
                    end
                  else (Returns None, [])
              end
          end
      end
  end.

(** The user test of [checkOwnership] *)
Definition userIssue (t : T) (p : string) (uid0 : Z) : option Issue :=
  match TUser t with
  | Some u =>
      if bool_decide (uid0 ≠ uid t)
      then Some (IssueUser p (Uid u) (Username u) uid0)
      else None
  | None => None
  end.

(** [T.checkOwnership]. The group test reads [t.Group == nil], and the
    arguments of its message read [t.Group.Name], which panics there. *)
Definition checkOwnership (t : T) (sys : Sys) (p : string)
    : Result (list Issue) :=
  match TUser t, TGroup t with
  | None, None => Returns []
  | _, _ =>
      match ownership sys with
      | inl err => Returns [IssueOwnerLookup p err]
      | inr (uid0, gid0) =>
          match userIssue t p uid0 with
          | Some issue => Returns [issue]
          | None =>
              match TGroup t with
              | None => if bool_decide (gid0 ≠ gid t) then Panics else Returns []
              | Some _ => Returns []
              end
          end
      end
  end.

End WithAtoi.

(** [T.setMode] *)
Definition setMode (t : T) (sys : Sys) (p : string) : option Err * list Event :=
  match Perm t with
  | None => (None, [])
  | Some perm =>
      match fileMode sys with
      | inl _ => (Some (ErrInvalidPerm perm), [])
      | inr currentMode =>
          if bool_decide (PermOf currentMode = perm) then (None, [])
          else
            let mode := Z.lor (Z.land currentMode ModeType) perm in
            match chmod_err sys with
            | Some err => (Some err, [EvChmod p mode])
            | None =>
                (None,
                 [EvChmod p mode;
                  EvRegister (RbChmod p (Z.land currentMode ModeType))])
            end
      end
  end.

Section WithAtoiStart.

Context (Atoi : string → Z).

(** [T.startBlockDevice] *)
Definition startBlockDevice (t : T) (sys : Sys) (pair : DevPair)
    : Result (option Err) * list Event :=
  match Dst pair with
  | None => (Returns None, [])
  | Some p =>
      if bool_decide (p = EmptyString) then (Returns None, [])
      else
        match createBlockDevice sys p with
        | (Some err, tr1) => (Returns (Some err), tr1)
        | (None, tr1) =>
            match setOwnership Atoi t sys p with
            | (Panics, tr2) => (Panics, tr1 ++ tr2)
            | (Returns (Some err), tr2) => (Returns (Some err), tr1 ++ tr2)
            | (Returns None, tr2) =>
                match setMode t sys p with
                | (res, tr3) => (Returns res, tr1 ++ tr2 ++ tr3)
                end
            end
        end
  end.

End WithAtoiStart.

(** The answers of [ra.Bind]: the minor bound, [raw.ErrExist] (as
    [errors.Is] finds it), or another error. *)
Inductive BindResult :=
| BindOk (minor : Z)
| BindExists
| BindFailed (err : Err).

Section WithRaw.

(** The raw driver of the system, and [ra.Bind] on it. *)
Context {Raw : Type}.
Context (Bind : string → Raw → BindResult * Raw).

(** The loop of [T.startCharDevices] over [t.devices()] *)
Fixpoint bindLoop (pairs : list DevPair) (ra : Raw)
    : option Err * Raw * list Event :=
  match pairs with
  | [] => (None, ra, [])
  | pr :: rest =>
      match Bind (Src pr) ra with
      | (BindExists, ra1) => (None, ra1, [EvBind (Src pr)])
      | (BindFailed err, ra1) => (Some err, ra1, [EvBind (Src pr)])
      | (BindOk minor, ra1) =>
          let '(res, ra2, tr) := bindLoop rest ra1 in
          (res, ra2, EvBind (Src pr) :: EvRegister (RbUnbind minor) :: tr)
      end
  end.

(** [T.startCharDevices]; [capable] is [raw.IsCapable()]. *)
Definition startCharDevices (t : T) (capable : bool) (pairs : list DevPair)
    (ra : Raw) : option Err * Raw * list Event :=
  if negb (CreateCharDevices t) then (None, ra, [])
  else if negb capable then (Some ErrNotCapable, ra, [])
  else bindLoop pairs ra.

(** Binding each of [pairs] succeeds, from [ra] on: the raw driver after,
    and the minors bound. *)
Fixpoint bindAll (pairs : list DevPair) (ra : Raw) : option (Raw * list Z) :=
  match pairs with
  | [] => Some (ra, [])
  | pr :: rest =>
      match Bind (Src pr) ra with
      | (BindOk minor, ra1) =>
          match bindAll rest ra1 with
          | Some (ra2, minors) => Some (ra2, minor :: minors)
          | None => None
          end
      | _ => None
      end
  end.

End WithRaw.

Definition binds (tr : list Event) : list string :=
  omap (λ e, match e with EvBind src => Some src | _ => None end) tr.

Definition unbinds (tr : list Event) : list Z :=
  omap (λ e, match e with EvRegister (RbUnbind m) => Some m | _ => None end) tr.

Definition registered (tr : list Event) : list Rollback :=
  omap (λ e, match e with EvRegister rb => Some rb | _ => None end) tr.

(** The calls of a trace that change the system. *)
Definition isChange (e : Event) : bool :=
  match e with
  | EvRegister _ => false
  | _ => true
  end.

Definition changes (tr : list Event) : list Event :=
  omap (λ e, if isChange e then Some e else None) tr.

Definition chowns (tr : list Event) : list (string * Z * Z) :=
  omap (λ e, match e with EvChown p u g => Some (p, u, g) | _ => None end) tr.

(** Samples: a resource with a user, a group and a mode; a decimal parser
    for small ids; a system where the source device is 8:16 and the
    target is missing; one where the target is there with these numbers,
    owned by 0:0 with mode brw-r----- ; a raw driver that holds the
    sources already bound, binding to the next minor. *)
Definition sampleAtoi (s : string) : Z :=
  if bool_decide (s = "1000"%string) then 1000
  else if bool_decide (s = "6"%string) then 6
  else 0.

Definition sampleT : T :=
  mkT (Some (mkUser "1000" "1000" "oracle")) (Some (mkGroup "6" "disk"))
      (Some 432) true.

Definition onlyGroupT : T :=
  mkT None (Some (mkGroup "6" "disk")) None true.

Definition missingSys : Sys :=
  mkSys (inr (8, 16)) false (inl (ErrSys "no such file or directory")) None
        (inr (0, 0)) None (inr (Z.lor ModeDevice 384)) None.

Definition presentSys : Sys :=
  mkSys (inr (8, 16)) true (inr (8, 16)) None
        (inr (0, 0)) None (inr (Z.lor ModeDevice 416)) None.

Definition otherSys : Sys :=
  mkSys (inr (8, 16)) true (inr (8, 32)) None
        (inr (0, 0)) None (inr (Z.lor ModeDevice 416)) None.

Definition samplePair : DevPair := mkDevPair "/dev/sdb" (Some "/dev/oradata1").

Definition sampleBind (src : string) (ra : list string) : BindResult * list string :=
  if bool_decide (src ∈ ra) then (BindExists, ra)
  else (BindOk (Z.of_nat (length ra) + 1), ra ++ [src]).

End ResDiskRaw.

(** * Properties *)

(** ** Process executor *)

Module CommandFacts.
Import Command.

Local Open Scope Z_scope.

Lemma stdoutLine_buffers t line :
  bufferStdout t = true →
  bufferStdout (stdoutLine t line).1 = true
  ∧ stdout (stdoutLine t line).1 = append (stdout t) (newline :: line).
Proof. intros Hb. unfold stdoutLine. rewrite Hb. simpl. auto. Qed.

Lemma scanLoop_cons lineFn t l ls :
  (scanLoop lineFn t (l :: ls)).1 = (scanLoop lineFn (lineFn t l).1 ls).1.
Proof.
  simpl. destruct (lineFn t l) as [t1 tr1]. simpl.
  by destruct (scanLoop lineFn t1 ls).
Qed.

Lemma scanLoop_stdout lines : ∀ t,
  bufferStdout t = true →
  elems (stdout (scanLoop stdoutLine t lines).1) = elems (stdout t) ++ framed lines.
Proof.
  induction lines as [|l ls IH]; intros t Hb.
  - simpl. by rewrite app_nil_r.
  - destruct (stdoutLine_buffers t l Hb) as [Hb1 Hs1].
    rewrite scanLoop_cons, (IH _ Hb1), Hs1.
    unfold framed. simpl.
    destruct (stdout t); simpl; by rewrite <- ?app_assoc.
Qed.

Lemma scanLoop_stdout_not_nil ls : ∀ l t,
  bufferStdout t = true →
  stdout (scanLoop stdoutLine t (l :: ls)).1 ≠ nil_slice.
Proof.
  induction ls as [|l' ls IH]; intros l t Hb;
    destruct (stdoutLine_buffers t l Hb) as [Hb1 Hs1];
    rewrite scanLoop_cons.
  - cbn [scanLoop fst]. rewrite Hs1. by destruct (stdout t).
  - by apply IH.
Qed.

Lemma framed_joinLines l ls : framed (l :: ls) = newline :: joinLines (l :: ls).
Proof.
  revert l. induction ls as [|l' ls IH]; intros l.
  - unfold framed. simpl. by rewrite app_nil_r.
  - change (framed (l :: l' :: ls)) with ((newline :: l) ++ framed (l' :: ls)).
    rewrite IH. reflexivity.
Qed.

Lemma stdoutTask_state t lines :
  (stdoutTask t lines).1 = (scanLoop stdoutLine t lines).1.
Proof. unfold stdoutTask. by destruct (scanLoop stdoutLine t lines). Qed.

(** Away from the one-empty-line output, [Stdout] is the joined lines. *)
Lemma Stdout_joinLines t lines :
  bufferStdout t = true → stdout t = nil_slice →
  lines ≠ [[]] →
  elems (Stdout (stdoutTask t lines).1) = joinLines lines.
Proof.
  intros Hb Hnil Hne. rewrite stdoutTask_state. unfold Stdout.
  destruct lines as [|l ls].
  - simpl. by rewrite Hnil.
  - pose proof (scanLoop_stdout (l :: ls) t Hb) as He.
    pose proof (scanLoop_stdout_not_nil ls l t Hb) as Hnn.
    rewrite Hnil, framed_joinLines in He.
    destruct (stdout (scanLoop stdoutLine t (l :: ls)).1) as [|buf]; [done|].
    cbn [elems app] in He. subst buf. unfold stripFistByte, len. cbn [elems].
    destruct (joinLines (l :: ls)) as [|c cs] eqn:Ej.
    + exfalso. destruct ls as [|l2 ls]; simpl in Ej.
      * apply Hne. by subst.
      * by destruct l.
    + rewrite (proj2 (Z.ltb_lt 1 _)); [done | simpl length; lia].
Qed.

(** C5 (the code at the failing input): a subprocess that writes exactly
    one empty line leaves the lone separator byte in the buffer, and
    [Stdout()] hands that byte out, where the lines joined by the separator
    are the empty byte sequence; one empty line and two empty lines read
    the same. *)
Theorem Stdout_single_empty_line_keeps_sentinel (t : T) :
  bufferStdout t = true → stdout t = nil_slice →
  Stdout (stdoutTask t [[]]).1 = make_slice [newline]
  ∧ elems (Stdout (stdoutTask t [[]]).1) ≠ joinLines [[]]
  ∧ elems (Stdout (stdoutTask t [[]]).1)
    = elems (Stdout (stdoutTask t [[]; []]).1).
Proof.
  intros Hb Hnil. split; [|split].
  - rewrite stdoutTask_state, scanLoop_cons.
    cbn [scanLoop fst]. destruct (stdoutLine_buffers t [] Hb) as [_ Hs].
    unfold Stdout. by rewrite Hs, Hnil.
  - rewrite stdoutTask_state, scanLoop_cons.
    cbn [scanLoop fst]. destruct (stdoutLine_buffers t [] Hb) as [_ Hs].
    unfold Stdout. by rewrite Hs, Hnil.
  - rewrite (Stdout_joinLines t [[]; []]) by done.
    rewrite stdoutTask_state, scanLoop_cons.
    cbn [scanLoop fst]. destruct (stdoutLine_buffers t [] Hb) as [_ Hs].
    unfold Stdout. by rewrite Hs, Hnil.
Qed.

Lemma Stdout_single_empty_line_witness :
  Stdout (stdoutTask buffered_cmd [[]]).1 = make_slice [newline]
  ∧ elems (Stdout (stdoutTask buffered_cmd [[]]).1) ≠ joinLines [[]]
  ∧ elems (Stdout (stdoutTask buffered_cmd [[]]).1)
    = elems (Stdout (stdoutTask buffered_cmd [[]; []]).1).
Proof.
  apply (Stdout_single_empty_line_keeps_sentinel buffered_cmd); reflexivity.
Defined.

(** C9: a buffer of at most one byte (the lone separator of one empty line,
    or the nil buffer of an unbuffered stream) is returned by [Stdout()] and
    [Stderr()] as it is; the first byte is dropped exactly when the buffer
    holds two bytes or more. *)
Theorem strip_only_from_two_bytes (t : T) :
  ((len (stdout t) ≤ 1)%nat → Stdout t = stdout t)
  ∧ ((len (stderr t) ≤ 1)%nat → Stderr t = stderr t)
  ∧ ((2 ≤ len (stdout t))%nat →
       Stdout t = make_slice (drop 1 (elems (stdout t))))
  ∧ ((2 ≤ len (stderr t))%nat →
       Stderr t = make_slice (drop 1 (elems (stderr t)))).
Proof.
  assert (Hshort : ∀ b : slice Byte.byte, (len b ≤ 1)%nat → stripFistByte b = b).
  { intros b Hl. unfold stripFistByte.
    destruct (Z.ltb_spec 1 (Z.of_nat (len b))); [lia | done]. }
  assert (Hlong : ∀ b : slice Byte.byte, (2 ≤ len b)%nat →
            stripFistByte b = make_slice (drop 1 (elems b))).
  { intros b Hl. unfold stripFistByte.
    destruct (Z.ltb_spec 1 (Z.of_nat (len b))); [|lia].
    destruct b as [|[|c cs]]; simpl in *; try done; unfold len in Hl; simpl in Hl; lia. }
  unfold Stdout, Stderr. repeat split; auto.
Qed.

Lemma strip_only_from_two_bytes_witness :
  Stdout one_empty_line_cmd = make_slice [newline]
  ∧ Stderr one_empty_line_cmd = nil_slice.
Proof.
  destruct (strip_only_from_two_bytes one_empty_line_cmd) as (Ho & He & _).
  split; [apply Ho | apply He]; vm_compute; lia.
Defined.

Lemma recvLoop_enough n : ∀ ch,
  (n ≤ length ch)%nat →
  recvLoop n ch = Some (EvRecvDone <$> take n ch, drop n ch).
Proof.
  induction n as [|n IH]; intros ch Hn; [done|].
  destruct ch as [|s ch]; simpl in *; [lia|].
  rewrite IH by lia. done.
Qed.

Lemma recvLoop_starved n : ∀ ch,
  (length ch < n)%nat → recvLoop n ch = None.
Proof.
  induction n as [|n IH]; intros ch Hn; [lia|].
  destruct ch as [|s ch]; simpl in *; [done|].
  rewrite IH by lia. done.
Qed.

(** The shape of a successfully started command: which helper tasks were
    appended, and the deadline bookkeeping. *)
Lemma Start_ok_shape env t t' evs :
  fresh t → Start env t = (None, t', evs) →
  let wantOut :=
    bool_decide (stdoutLogLevel t ≠ Disabled) || bufferStdout t || onStdoutLine t in
  let wantErr :=
    bool_decide (stderrLogLevel t ≠ Disabled) || bufferStderr t || onStderrLine t in
  goroutine t' =
    (if wantOut then [StdoutTask] else []) ++ (if wantErr then [StderrTask] else [])
    ++ (if 0 <? timeout t then [CtxTask] else [])
  ∧ cancel t' = (0 <? timeout t)
  ∧ timeout t' = timeout t
  ∧ evs = EvGo <$> goroutine t'
  ∧ done t' = (if goroutine t' is [] then None
               else Some (Z.of_nat (length (goroutine t')))).
Proof.
  intros (Hg & Hc & Hd & _ & _) HS wantOut wantErr.
  unfold Start in HS. cbv zeta in HS.
  destruct (valid_err env); [done|]. destruct (update_err env); [done|].
  fold wantOut in HS. destruct wantOut;
    try (destruct (stdoutPipe_err env); [done|]);
    cbn [add_goroutine set_cancel stderrLogLevel bufferStderr onStderrLine
         timeout goroutine] in HS;
    fold wantErr in HS; destruct wantErr;
    try (destruct (stderrPipe_err env); [done|]);
    cbn [add_goroutine set_cancel stderrLogLevel bufferStderr onStderrLine
         timeout goroutine] in HS;
    destruct (0 <? timeout t);
    cbn [add_goroutine set_cancel goroutine] in HS;
    destruct (start_err env); try done;
    rewrite ?Hg in HS; simpl in HS; simplify_eq; simpl;
    rewrite ?Hg, ?Hc, ?Hd; done.
Qed.

(** C6: after a successful [Start], [Wait] receives from [t.done] once per
    stream-capture task and only then calls [cmd.Wait()]; that count is the
    number of started helper tasks without a deadline, and one less with
    a deadline task. *)
Theorem Wait_consumes_one_signal_per_stream_task
    (env : Env) (t t' : T) (evs : list Event) :
  fresh t → Start env t = (None, t', evs) →
  let streams := filter (λ f, isStream f = true) (goroutine t') in
  let total := Z.of_nat (length (goroutine t')) in
  evs = EvGo <$> goroutine t'
  ∧ waitCount t' = Z.of_nat (length streams)
  ∧ (timeout t ≤ 0 → cancel t' = false ∧ waitCount t' = total)
  ∧ (0 < timeout t →
       cancel t' = true ∧ CtxTask ∈ goroutine t' ∧ waitCount t' = total - 1)
  ∧ (∀ ch proc_err, (length streams ≤ length ch)%nat →
       Wait t' ch proc_err =
         Some (proc_err,
               (EvRecvDone <$> take (length streams) ch) ++ [EvCmdWait]
               ++ (if cancel t' then [EvCancel] else [])))
  ∧ (∀ ch proc_err, (length ch < length streams)%nat →
       Wait t' ch proc_err = None).
Proof.
  intros Hf HS streams total.
  destruct (Start_ok_shape env t t' evs Hf HS) as (Hg & Hc & _ & Hev & _).
  assert (Hwc : waitCount t' = Z.of_nat (length streams)).
  { unfold waitCount, streams. rewrite Hc, Hg.
    repeat match goal with |- context [if ?b then _ else _] => destruct b end;
      reflexivity. }
  split; [done|]. split; [done|]. split; [|split; [|split]].
  - intros Ht. assert ((0 <? timeout t) = false) as E by (apply Z.ltb_ge; lia).
    unfold waitCount, total. rewrite Hc, E. done.
  - intros Ht. assert ((0 <? timeout t) = true) as E by (apply Z.ltb_lt; lia).
    unfold waitCount, total. rewrite Hc, Hg, E.
    split; [done|]. split; [|done].
    rewrite !elem_of_app. right; right. apply list_elem_of_here.
  - intros ch perr Hn. unfold Wait. rewrite Hwc, Nat2Z.id.
    by rewrite recvLoop_enough.
  - intros ch perr Hn. unfold Wait. rewrite Hwc, Nat2Z.id.
    by rewrite recvLoop_starved.
Qed.

Lemma Wait_consumes_one_signal_per_stream_task_witness :
  waitCount (Start ok_env deadline_cmd).1.2 = 2
  ∧ Wait (Start ok_env deadline_cmd).1.2 ["stdout"; "stderr"]%string None
    = Some (None, [EvRecvDone "stdout"; EvRecvDone "stderr"; EvCmdWait; EvCancel]).
Proof.
  destruct (Wait_consumes_one_signal_per_stream_task ok_env deadline_cmd
              (Start ok_env deadline_cmd).1.2 (Start ok_env deadline_cmd).2)
    as (_ & Hwc & _ & _ & Hw & _).
  - by vm_compute.
  - reflexivity.
  - split; [exact Hwc|]. apply (Hw ["stdout"; "stderr"]%string None).
    vm_compute. lia.
Defined.

End CommandFacts.

(** ** Counting over pools of goroutines *)

Section Counting.

Context {A : Type} (f : A → nat).

Lemma sum_list_with_insert (l : list A) i x y :
  l !! i = Some x →
  sum_list_with f (<[i := y]> l) + f x = sum_list_with f l + f y.
Proof.
  revert i. induction l as [|a l IH]; intros [|i] Hi; simplify_eq/=.
  - lia.
  - specialize (IH i Hi). lia.
Qed.

Lemma sum_list_with_snoc (l : list A) x :
  sum_list_with f (l ++ [x]) = sum_list_with f l + f x.
Proof. rewrite sum_list_with_app. simpl. lia. Qed.

Lemma sum_list_with_pos (l : list A) :
  0 < sum_list_with f l → ∃ i x, l !! i = Some x ∧ 0 < f x.
Proof.
  induction l as [|a l IH]; simpl; [lia|]. intros Hs.
  destruct (decide (0 < f a)) as [Ha|Ha].
  - by exists 0, a.
  - destruct IH as (i & x & Hi & Hx); [lia|]. by exists (S i), x.
Qed.

Lemma sum_list_with_null (l : list A) i x :
  sum_list_with f l = 0 → l !! i = Some x → f x = 0.
Proof.
  revert i. induction l as [|a l IH]; intros [|i] Hs Hi; simplify_eq/=.
  - lia.
  - apply (IH i); [lia | done].
Qed.

Lemma sum_list_with_le_length (l : list A) :
  (∀ x, f x ≤ 1) → sum_list_with f l ≤ length l.
Proof.
  intros Hf. induction l as [|a l IH]; simpl; [lia|].
  specialize (Hf a). lia.
Qed.

Lemma sum_list_with_lt_length (l : list A) i x :
  (∀ x, f x ≤ 1) → l !! i = Some x → f x = 0 →
  sum_list_with f l < length l.
Proof.
  intros Hf. revert i. induction l as [|a l IH]; intros [|i] Hi Hx; simplify_eq/=.
  - pose proof (sum_list_with_le_length l Hf). lia.
  - specialize (IH i Hi Hx). specialize (Hf a). lia.
Qed.

End Counting.

Section Collecting.

Context {A B : Type} (g : A → option B).

Lemma omap_insert_fresh (l : list A) i x y z :
  l !! i = Some x → g x = None → g y = Some z →
  omap g (<[i := y]> l) ≡ₚ z :: omap g l.
Proof.
  revert i. induction l as [|a l IH]; intros [|i] Hi Hx Hy; simplify_eq/=.
  - by rewrite ?Hx, ?Hy.
  - specialize (IH i Hi Hx Hy).
    destruct (g a); rewrite IH; [apply Permutation_swap | done].
Qed.

Lemma omap_insert_same (l : list A) i x y :
  l !! i = Some x → g y = g x → omap g (<[i := y]> l) = omap g l.
Proof.
  revert i. induction l as [|a l IH]; intros [|i] Hi Hy; simplify_eq/=.
  - by rewrite ?Hy.
  - by rewrite (IH i Hi Hy).
Qed.

Lemma omap_length_le (l : list A) : length (omap g l) ≤ length l.
Proof. induction l as [|a l IH]; csimpl; [done|]. destruct (g a); csimpl; lia. Qed.



End Collecting.

(** ** Resource action orchestrator *)

Module OrchestratorFacts.
Import Orchestrator.

Section WithWorld.

Context {World : Type}.
Implicit Types (rs : list (Driver World)) (st : State World) (w : World).
Implicit Types (tr : list Event) (sched : list nat).

Lemma upto_true_all_false (l : list bool) :
  Forall (λ b, b = false) l → upto_true l = l.
Proof. induction 1 as [|b l -> _ IH]; simpl; by rewrite ?IH. Qed.

Lemma upto_true_first (fs l : list bool) :
  Forall (λ b, b = false) fs → upto_true (fs ++ true :: l) = fs ++ [true].
Proof. induction 1 as [|b fs -> _ IH]; simpl; by rewrite ?IH. Qed.

Lemma nTrue_all_false (l : list bool) :
  Forall (λ b, b = false) l → nTrue l = 0.
Proof. induction 1 as [|b l -> _ IH]; simpl; done. Qed.

Lemma nTrue_app (l1 l2 : list bool) : nTrue (l1 ++ l2) = nTrue l1 + nTrue l2.
Proof. apply sum_list_with_app. Qed.

Lemma nTrue_pos (l : list bool) : 0 < nTrue l ↔ true ∈ l.
Proof.
  induction l as [|[] l IH]; simpl.
  - split; [lia | by intros ?%elem_of_nil].
  - split; [intros _; left | lia].
  - rewrite IH. split; [by right | by intros [?|?]%elem_of_cons].
Qed.

Lemma nAbortTrue_pos tr :
  0 < nAbortTrue tr ↔ ∃ rid, EvAbort rid true ∈ tr.
Proof.
  induction tr as [|e tr IH]; simpl.
  - split; [lia | by intros [? ?%elem_of_nil]].
  - unfold nAbortTrue in *. simpl. split.
    + intros Hp. destruct e as [rid [|]| | |]; simpl in Hp;
        try (destruct (proj1 IH Hp) as [rid' ?]; exists rid'; by right).
      exists rid. left.
    + intros [rid [<-|Hin]%elem_of_cons]; simpl; [lia|].
      assert (0 < sum_list_with (λ e, if isAbortTrue e then 1 else 0) tr)
        by (apply IH; eauto).
      lia.
Qed.

Lemma sent_snoc tr e :
  sent (tr ++ [e]) = sent tr ++ match e with EvVote b => [b] | _ => [] end.
Proof. unfold sent. rewrite omap_app. by destruct e. Qed.

Lemma recvd_snoc tr e :
  recvd (tr ++ [e]) = recvd tr ++ match e with EvRecv b => [b] | _ => [] end.
Proof. unfold recvd. rewrite omap_app. by destruct e. Qed.

Lemma nAbortTrue_snoc tr e :
  nAbortTrue (tr ++ [e]) = nAbortTrue tr + (if isAbortTrue e then 1 else 0).
Proof. apply sum_list_with_snoc. Qed.

Lemma all_exited_sent (ws : list (Worker (World:=World))) :
  sum_list_with active ws = 0 → sum_list_with hasSent ws = length ws.
Proof.
  induction ws as [|wk ws IH]; simpl; [done|]. intros Hs.
  destruct wk as [| [] | |]; simpl in *; lia.
Qed.

Lemma all_exited_not_sending (ws : list (Worker (World:=World))) :
  sum_list_with active ws = 0 → sum_list_with sendingTrue ws = 0.
Proof.
  induction ws as [|wk ws IH]; simpl; [done|]. intros Hs.
  destruct wk as [| [] | |]; simpl in *; lia.
Qed.

Lemma exec_app rs sched1 sched2 st :
  exec rs (sched1 ++ sched2) st = exec rs sched1 st ≫= exec rs sched2.
Proof.
  revert st. induction sched1 as [|tid s IH]; intros st; simpl; [done|].
  destruct (step rs tid st); simpl; [apply IH | done].
Qed.

Lemma init_Inv rs w : Inv rs (init rs w).
Proof.
  split; simpl; try done.
  split; [|done]. by exists [].
Qed.

(** A worker can only move while the caller spawns or waits: afterwards
    every worker has exited. *)
Lemma worker_step_mainInv rs i st st' wk :
  workers st !! i = Some wk → active wk = 1 →
  main st' = main st →
  length (workers st') = length (workers st) →
  recvd (trace st') = recvd (trace st) →
  mainInv rs st → mainInv rs st'.
Proof.
  unfold mainInv. intros Hi Ha -> Hl Hr. destruct (main st).
  - by rewrite Hl, Hr.
  - by rewrite Hl, Hr.
  - intros (_ & Hz & _).
    pose proof (sum_list_with_null active _ _ _ Hz Hi). lia.
  - intros (_ & Hz & _).
    pose proof (sum_list_with_null active _ _ _ Hz Hi). lia.
Qed.

Lemma worker_step_Inv rs i st st' :
  Inv rs st → worker_step i st = Some st' → Inv rs st'.
Proof.
  intros [Hcap Hwg Hsent Hfifo Hab Hns Hm] Hstep. unfold worker_step in Hstep.
  destruct (workers st !! i) as [wk|] eqn:Hi; [|done].
  pose proof (λ y, sum_list_with_insert active (workers st) i wk y Hi) as Sa.
  pose proof (λ y, sum_list_with_insert hasSent (workers st) i wk y Hi) as Sh.
  pose proof (λ y, sum_list_with_insert sendingTrue (workers st) i wk y Hi) as St.
  assert (Hmain : ∀ st1, main st1 = main st →
            length (workers st1) = length (workers st) →
            recvd (trace st1) = recvd (trace st) →
            active wk = 1 → mainInv rs st1).
  { intros st1 ? ? ? ?. by eapply worker_step_mainInv. }
  destruct wk as [r|b| |]; [| | |done].
  - destruct (Abort r) as [f|].
    + destruct (f (world st)) as [b w']. simplify_eq.
      specialize (Sa (WSend b)). specialize (Sh (WSend b)).
      specialize (St (WSend b)).
      split; simpl; rewrite ?sent_snoc, ?recvd_snoc, ?nAbortTrue_snoc, ?app_nil_r;
        try done.
      * simpl in Sa. lia.
      * simpl in Sh. lia.
      * destruct b; simpl in *; lia.
      * apply Forall_app. split; [done|]. by repeat constructor.
      * apply Hmain; simpl; rewrite ?length_insert, ?recvd_snoc, ?app_nil_r; done.
    + simplify_eq.
      specialize (Sa (WSend false)). specialize (Sh (WSend false)).
      specialize (St (WSend false)).
      split; simpl; try done.
      * simpl in Sa. lia.
      * simpl in Sh. lia.
      * simpl in *; lia.
      * apply Hmain; simpl; rewrite ?length_insert; done.
  - case_bool_decide as Hlt; [|done]. simplify_eq.
    specialize (Sa WDefer). specialize (Sh WDefer). specialize (St WDefer).
    split; simpl; rewrite ?sent_snoc, ?recvd_snoc, ?nAbortTrue_snoc, ?app_nil_r;
      try done.
    * simpl in Sa. lia.
    * rewrite length_app. simpl in *. lia.
    * by rewrite Hfifo, <- app_assoc.
    * rewrite nTrue_app. destruct b; simpl in *; lia.
    * apply Forall_app. split; [done|]. by repeat constructor.
    * apply Hmain; simpl; rewrite ?length_insert, ?recvd_snoc, ?app_nil_r; done.
  - simplify_eq.
    specialize (Sa WExit). specialize (Sh WExit). specialize (St WExit).
    split; simpl; try done.
    * simpl in Sa. lia.
    * simpl in Sh. lia.
    * simpl in *; lia.
    * apply Hmain; simpl; rewrite ?length_insert; done.
Qed.

Lemma main_step_Inv rs st st' :
  Inv rs st → main_step rs st = Some st' → Inv rs st'.
Proof.
  intros [Hcap Hwg Hsent Hfifo Hab Hns Hm] Hstep.
  unfold main_step in Hstep. unfold mainInv in Hm.
  destruct (main st) as [[|r todo]|  |[|k] ret|err] eqn:Em; [| | | | |done].
  - (* end of the spawn loop *)
    simplify_eq. destruct Hm as [(spawned & Hrs & Hlen) Hr].
    split; try done. unfold mainInv; simpl. split; [|done].
    rewrite Hrs, app_nil_r. done.
  - (* go t.abortWorker(r, q, &wg) *)
    simplify_eq. destruct Hm as [(spawned & Hrs & Hlen) Hr].
    split; simpl; rewrite ?sum_list_with_snoc; simpl; try done.
    + lia.
    + lia.
    + lia.
    + unfold mainInv; simpl. split; [|done].
      exists (spawned ++ [r]). rewrite <- app_assoc, !length_app. simpl.
      split; [done | lia].
  - (* wg.Wait() returns *)
    case_bool_decide as Hz; [|done]. simplify_eq. destruct Hm as [Hlen Hr].
    assert (Hall : sum_list_with active (workers st) = 0) by lia.
    split; try done. unfold mainInv; simpl.
    split; [done|]. split; [done|]. split; [by rewrite Hr|].
    rewrite Hr in Hfifo. simpl in Hfifo. rewrite <- Hfifo, Hsent.
    rewrite all_exited_sent; done.
  - (* the vote loop is over *)
    simplify_eq. destruct Hm as (Hlen & Hall & Hret).
    split; try done. unfold mainInv; simpl.
    split; [done|]. split; [done|]. destruct ret.
    + destruct Hret as [Hr Hp]. split; [done|]. by rewrite bool_decide_eq_true_2.
    + destruct Hret as [Hf Hq]. apply nil_length_inv in Hq.
      rewrite Hq, app_nil_r in Hfifo. rewrite Hfifo.
      split; [by rewrite upto_true_all_false|].
      rewrite nTrue_all_false by done. by rewrite bool_decide_eq_false_2 by lia.
  - (* one iteration of the vote loop *)
    destruct Hm as (Hlen & Hall & Hret). destruct ret.
    + simplify_eq. split; try done.
    + destruct (q st) as [|b q'] eqn:Eq; [done|]. simplify_eq.
      destruct Hret as [Hf Hq].
      split; simpl; rewrite ?sent_snoc, ?recvd_snoc, ?nAbortTrue_snoc, ?app_nil_r;
        try done.
      * by rewrite Hfifo, <- app_assoc.
      * simpl. lia.
      * apply Forall_app. split; [done|]. by repeat constructor.
      * unfold mainInv; simpl.
        rewrite ?sent_snoc, ?recvd_snoc, ?app_nil_r.
        split; [done|]. split; [done|]. destruct b.
        -- rewrite Hfifo. split; [by rewrite upto_true_first|].
           rewrite nTrue_app. simpl. lia.
        -- split; [|simpl in Hq; lia].
           apply Forall_app. split; [done|]. by repeat constructor.
Qed.

Lemma step_Inv rs tid st st' :
  Inv rs st → step rs tid st = Some st' → Inv rs st'.
Proof.
  destruct tid; simpl; eauto using main_step_Inv, worker_step_Inv.
Qed.

Lemma exec_Inv rs sched : ∀ st st',
  Inv rs st → exec rs sched st = Some st' → Inv rs st'.
Proof.
  induction sched as [|tid sched IH]; intros st st' HI He; simplify_eq/=; [done|].
  destruct (step rs tid st) as [st1|] eqn:Es; [|done].
  eauto using step_Inv.
Qed.

(** Every step consumes some of the measure: schedules are finite. *)
Lemma step_measure rs tid st st' :
  step rs tid st = Some st' → measure rs st' < measure rs st.
Proof.
  unfold measure. destruct tid as [|i]; simpl.
  - unfold main_step. intros Hstep.
    destruct (main st) as [[|r todo]|  |[|k] ret|err]; simplify_eq/=; try lia.
    + rewrite sum_list_with_snoc. simpl. lia.
    + case_bool_decide; simplify_eq/=. lia.
    + destruct ret; simplify_eq/=; [lia|].
      destruct (q st); simplify_eq/=. lia.
  - unfold worker_step. intros Hstep.
    destruct (workers st !! i) as [wk|] eqn:Hi; [|done].
    pose proof (λ y, sum_list_with_insert weight (workers st) i wk y Hi) as Sw.
    destruct wk as [r|b| |]; [| | |done].
    + destruct (Abort r) as [f|].
      * destruct (f (world st)) as [b w']. simplify_eq/=.
        specialize (Sw (WSend b)). simpl in Sw. lia.
      * simplify_eq/=. specialize (Sw (WSend false)). simpl in Sw. lia.
    + case_bool_decide; simplify_eq/=.
      specialize (Sw WDefer). simpl in Sw. lia.
    + simplify_eq/=. specialize (Sw WExit). simpl in Sw. lia.
Qed.

Lemma exec_measure rs sched : ∀ st st',
  exec rs sched st = Some st' → length sched + measure rs st' ≤ measure rs st.
Proof.
  induction sched as [|tid sched IH]; intros st st' He; simplify_eq/=; [lia|].
  destruct (step rs tid st) as [st1|] eqn:Es; [|done].
  apply step_measure in Es. apply IH in He. lia.
Qed.

(** A vote is never refused by the channel. *)
Lemma send_enabled rs st i b :
  Inv rs st → workers st !! i = Some (WSend b) → is_Some (step rs (S i) st).
Proof.
  intros [Hcap Hwg Hsent Hfifo Hab Hns Hm] Hi. simpl. unfold worker_step.
  rewrite Hi.
  assert (sum_list_with hasSent (workers st) < length (workers st)).
  { eapply sum_list_with_lt_length; [|done|done]. intros []; simpl; lia. }
  assert (length (workers st) ≤ length rs).
  { unfold mainInv in Hm. destruct (main st); try lia.
    destruct Hm as [(spawned & -> & ->) _]. rewrite length_app. lia. }
  assert (length (q st) ≤ length (sent (trace st))).
  { rewrite Hfifo, length_app. lia. }
  rewrite bool_decide_eq_true_2 by lia. eauto.
Qed.

(** As long as [abortStart] has not returned, some thread can move. *)
Lemma progress rs st :
  Inv rs st → (∀ err, main st ≠ MReturn err) → ∃ tid, is_Some (step rs tid st).
Proof.
  intros HI Hnr. pose proof HI as [Hcap Hwg Hsent Hfifo Hab Hns Hm].
  unfold mainInv in Hm.
  destruct (main st) as [[|r todo]|  |[|k] ret|err] eqn:Em.
  - exists 0. simpl. unfold main_step. rewrite Em. eauto.
  - exists 0. simpl. unfold main_step. rewrite Em. eauto.
  - destruct (decide (wg st = 0%Z)) as [Hz|Hz].
    + exists 0. simpl. unfold main_step. rewrite Em.
      rewrite bool_decide_eq_true_2 by done. eauto.
    + destruct (sum_list_with_pos active (workers st)) as (i & wk & Hi & Ha);
        [lia|].
      exists (S i). destruct wk as [r|b| |]; simpl in Ha; [| | |lia].
      * simpl. unfold worker_step. rewrite Hi.
        destruct (Abort r) as [f|]; [destruct (f (world st))|]; eauto.
      * by eapply send_enabled.
      * simpl. unfold worker_step. rewrite Hi. eauto.
  - exists 0. simpl. unfold main_step. rewrite Em. eauto.
  - exists 0. simpl. unfold main_step. rewrite Em.
    destruct Hm as (_ & _ & Hret). destruct ret; [eauto|].
    destruct Hret as [_ Hq]. destruct (q st); simplify_eq/=. eauto.
  - by destruct (Hnr err).
Qed.

(** Every reachable state runs on to the return of [abortStart]. *)
Lemma completes rs : ∀ n st,
  measure rs st ≤ n → Inv rs st →
  ∃ sched st' err, exec rs sched st = Some st' ∧ main st' = MReturn err.
Proof.
  induction n as [|n IH]; intros st Hn HI.
  - destruct (main st) as [| | |err] eqn:Em;
      try (unfold measure in Hn; rewrite Em in Hn; simpl in Hn; lia).
    by exists [], st, err.
  - destruct (main st) as [| | |err] eqn:Em; [| | |by exists [], st, err].
    all: destruct (progress rs st HI) as (tid & st1 & Hs);
           [intros err; by rewrite Em|].
    all: pose proof (step_measure _ _ _ _ Hs);
         destruct (IH st1) as (sched & st' & err & He & Hr);
           [lia | by eapply step_Inv|].
    all: exists (tid :: sched), st', err; simpl; by rewrite Hs.
Qed.

Lemma masterStart_only_starts rs : ∀ w,
  Forall (λ e, isStart e = true) (masterStart rs w).2.
Proof.
  induction rs as [|r rs IH]; intros w; simpl; [constructor|].
  destruct (Start r w) as [[e|] w1]; simpl.
  - by repeat constructor.
  - specialize (IH w1). destruct (masterStart rs w1) as [[res w2] tr].
    by constructor.
Qed.

(** C10 (amended): one vote goroutine per listed resource, those without
    [Abort] voting false; a vote channel as large as the resource list;
    sends that never block and a check that never deadlocks and ends within
    a bounded number of steps; at the return every resource has voted, the
    loop has received the votes up to and including the first true one, and
    the error is returned if and only if some vote was true. *)
Theorem abort_check_votes_and_returns rs w sched st :
  exec rs sched (init rs w) = Some st →
  q_cap st = length rs
  ∧ length (workers st) ≤ length rs
  ∧ ((∀ todo, main st ≠ MSpawn todo) → length (workers st) = length rs)
  ∧ (∀ i r, workers st !! i = Some (WRun r) → Abort r = None →
       ∃ st', step rs (S i) st = Some st'
              ∧ workers st' !! i = Some (WSend false))
  ∧ (∀ i b, workers st !! i = Some (WSend b) → is_Some (step rs (S i) st))
  ∧ ((∀ err, main st ≠ MReturn err) → ∃ tid, is_Some (step rs tid st))
  ∧ length sched ≤ 5 * length rs + 3
  ∧ (∃ sched' st' err,
       exec rs (sched ++ sched') (init rs w) = Some st'
       ∧ main st' = MReturn err)
  ∧ (∀ err, main st = MReturn err →
       length (sent (trace st)) = length rs
       ∧ recvd (trace st) = upto_true (sent (trace st))
       ∧ (err = Some errAbortStart ↔ true ∈ sent (trace st))
       ∧ (err = None ↔ true ∉ sent (trace st))).
Proof.
  intros He. pose proof (exec_Inv _ _ _ _ (init_Inv rs w) He) as HI.
  pose proof HI as [Hcap Hwg Hsent Hfifo Hab Hns Hm].
  assert (Hle : length (workers st) ≤ length rs
                ∧ ((∀ todo, main st ≠ MSpawn todo) →
                   length (workers st) = length rs)).
  { unfold mainInv in Hm. destruct (main st) as [todo| | |] eqn:Em.
    - destruct Hm as [(spawned & -> & ->) _]. rewrite length_app.
      split; [lia|]. intros Hn. by destruct (Hn todo).
    - split; [lia | intros _; tauto].
    - split; [lia | intros _; tauto].
    - split; [lia | intros _; tauto]. }
  destruct Hle as [Hle Hall].
  split; [done|]. split; [done|]. split; [done|].
  split; [|split; [|split; [|split; [|split]]]].
  - intros i r Hi Hr. simpl. unfold worker_step. rewrite Hi, Hr.
    eexists; split; [done|]. simpl. apply list_lookup_insert_eq.
    by eapply lookup_lt_Some.
  - intros i b Hi. by eapply send_enabled.
  - by apply progress.
  - apply exec_measure in He. unfold measure in He at 2. simpl in He. lia.
  - destruct (completes rs _ st (le_n _) HI) as (sched' & st' & err & He' & Hr).
    exists sched', st', err. rewrite exec_app, He. done.
  - intros err Em. unfold mainInv in Hm. rewrite Em in Hm.
    destruct Hm as (Hlen & Hz & Hr & Herr).
    split; [by rewrite Hsent, all_exited_sent|]. split; [done|].
    rewrite <- nTrue_pos. subst err.
    case_bool_decide; split; split; try done; intros; lia.
Qed.

(** Some schedule always runs [lockedStart] to its return. *)
Lemma lockedStart_returns rs w :
  ∃ sched out, lockedStart sched rs w = Some out.
Proof.
  destruct (completes rs _ (init rs w) (le_n _) (init_Inv rs w))
    as (sched & st & err & He & Hr).
  exists sched. unfold lockedStart, abortStart. rewrite He, Hr.
  destruct err; [eauto|].
  destruct (masterStart rs (world st)) as [[[e|] w2] tr2]; eauto.
Qed.

(** C1: when some resource's [Abort] returns true during the abort check,
    [lockedStart] returns the error "abort start" and no [Start] is called. *)
Theorem abort_vetoes_every_start rs w sched res w' tr :
  lockedStart sched rs w = Some (res, w', tr) →
  (∃ rid, EvAbort rid true ∈ tr) →
  res = Some errAbortStart ∧ ∀ rid err, EvStart rid err ∉ tr.
Proof.
  unfold lockedStart, abortStart. intros HL Hveto.
  destruct (exec rs sched (init rs w)) as [st|] eqn:He; [|done].
  pose proof (exec_Inv _ _ _ _ (init_Inv rs w) He)
    as [Hcap Hwg Hsent Hfifo Hab Hns Hm].
  unfold mainInv in Hm.
  destruct (main st) as [| | |err] eqn:Em; try done.
  destruct Hm as (Hlen & Hz & Hr & Herr).
  rewrite (all_exited_not_sending _ Hz), Nat.add_0_r in Hab.
  case_bool_decide as Hp; subst err.
  - simplify_eq. split; [done|]. intros rid err Hin.
    eapply Forall_forall in Hns; [|done]. done.
  - exfalso. assert (nAbortTrue (trace st) = 0) as Hnone by lia.
    destruct Hveto as [rid Hin].
    pose proof (masterStart_only_starts rs (world st)) as Hst.
    destruct (masterStart rs (world st)) as [[[e|] w2] tr2]; simplify_eq/=.
    + apply elem_of_app in Hin as [Hin|Hin].
      * assert (0 < nAbortTrue (trace st)) by (apply nAbortTrue_pos; eauto). lia.
      * eapply Forall_forall in Hst; [|done]. done.
    + rewrite app_nil_r in Hin. apply elem_of_app in Hin as [Hin|Hin].
      * assert (0 < nAbortTrue (trace st)) by (apply nAbortTrue_pos; eauto). lia.
      * eapply Forall_forall in Hst; [|done]. done.
Qed.

(** C2: [masterStart] calls [Start] along the list, in order; when all
    succeed it returns nil after the last one; when the resource at index
    [i] is the first to fail, its error is returned at once and nothing
    behind index [i] is started. *)
Theorem masterStart_ordered_stop_on_first_failure rs w :
  (∀ w', startAll rs w = Some w' →
     masterStart rs w = (None, w', started rs))
  ∧ (∀ i r wi err w',
       rs !! i = Some r →
       startAll (take i rs) w = Some wi →
       Start r wi = (Some err, w') →
       masterStart rs w
       = (Some err, w', started (take i rs) ++ [EvStart (RID r) (Some err)])).
Proof.
  revert w. induction rs as [|r0 rs IH]; intros w.
  - split; [by intros w' [= <-] | by intros i ? ? ? ? ?].
  - destruct (IH ((Start r0 w).2)) as [IHok IHko]. split.
    + intros w'. simpl. destruct (Start r0 w) as [[e|] w1] eqn:E0; [done|].
      intros Hall. simpl in IHok. by rewrite (IHok w' Hall).
    + intros [|i] r wi err w' Hi Hall Hr; simplify_eq/=.
      * by rewrite Hr.
      * destruct (Start r0 w) as [[e|] w1] eqn:E0; [done|]. simpl in IHko.
        by rewrite (IHko i r wi err w' Hi Hall Hr).
Qed.

End WithWorld.

Lemma abort_check_votes_and_returns_witness :
  ∃ st, exec [app1; disk0] [0; 0; 0; 2; 1; 2; 1] (init [app1; disk0] 0%nat) = Some st
        ∧ q_cap st = 2 ∧ length (workers st) ≤ 2.
Proof.
  destruct (exec [app1; disk0] [0; 0; 0; 2; 1; 2; 1] (init [app1; disk0] 0%nat))
    as [st|] eqn:He; [|by vm_compute in He].
  exists st. split; [done|].
  destruct (abort_check_votes_and_returns _ _ _ _ He) as (Hc & Hw & _).
  split; [exact Hc | exact Hw].
Defined.

(** C10 (as stated, refuted): with a vetoing resource first and a second
    resource behind it, the vote loop receives the true vote and then
    leaves the second vote in the channel: one receive for two resources. *)
Lemma vote_loop_stops_receiving_after_true :
  ∃ st,
    exec [app1; disk0] [0; 0; 0; 1; 1; 1; 2; 2; 2; 0; 0; 0; 0]
         (init [app1; disk0] 0%nat) = Some st
    ∧ main st = MReturn (Some errAbortStart)
    ∧ sent (trace st) = [true; false]
    ∧ recvd (trace st) = [true]
    ∧ q st = [false]
    ∧ length (recvd (trace st)) ≠ length [app1; disk0].
Proof.
  eexists. split; [vm_compute; reflexivity|].
  repeat split; done.
Qed.

Lemma abort_vetoes_every_start_witness :
  lockedStart [0; 0; 0; 2; 1; 2; 1; 2; 1; 0; 0; 0; 0] [app1; disk0] 0%nat
  = Some (Some errAbortStart, 0%nat,
          [EvAbort "app#1" true; EvVote false; EvVote true;
           EvRecv false; EvRecv true])
  ∧ ∀ rid err,
      EvStart rid err ∉
        [EvAbort "app#1" true; EvVote false; EvVote true;
         EvRecv false; EvRecv true].
Proof.
  assert (lockedStart [0; 0; 0; 2; 1; 2; 1; 2; 1; 0; 0; 0; 0] [app1; disk0] 0%nat
          = Some (Some errAbortStart, 0%nat,
                  [EvAbort "app#1" true; EvVote false; EvVote true;
                   EvRecv false; EvRecv true])) as HL
    by (vm_compute; reflexivity).
  split; [exact HL|].
  apply (abort_vetoes_every_start _ _ _ _ _ _ HL).
  exists "app#1"%string. apply list_elem_of_here.
Defined.

Lemma masterStart_ordered_stop_on_first_failure_witness :
  masterStart [disk0; app2; disk0] 0%nat
  = (Some "exit status 1"%string, 1%nat,
     [EvStart "disk#0" None; EvStart "app#2" (Some "exit status 1"%string)]).
Proof.
  apply (proj2 (masterStart_ordered_stop_on_first_failure
                  [disk0; app2; disk0] 0%nat)
               1%nat app2 1%nat "exit status 1"%string 1%nat);
    vm_compute; reflexivity.
Defined.

End OrchestratorFacts.

(** ** Selection dispatcher *)

Module DispatcherFacts.
Import Dispatcher.

Section WithWorld.

Context {World Path Arg : Type}.
Context (NewObject : Path → option (@Object World Path Arg)).
Context (unmarshal : list Byte.byte → slice Path → slice Path).

Local Abbreviation State := (Dispatcher.State World Path Arg).
Local Abbreviation Worker := (@Dispatcher.Worker World Path Arg).
Local Abbreviation Event := (@Dispatcher.Event Path).
Local Abbreviation step := (Dispatcher.step NewObject).
Local Abbreviation exec := (Dispatcher.exec NewObject).
Local Abbreviation Inv := (Dispatcher.Inv NewObject).
Local Abbreviation mainInv := (Dispatcher.mainInv NewObject).
Local Abbreviation dispatched := (Dispatcher.dispatched NewObject).

Implicit Types (st : State) (paths : list Path) (tr : list Event).
Implicit Types (ws : list Worker) (sched : list nat).

Lemma dispatch_sent_snoc tr e :
  sent (tr ++ [e]) = sent tr ++ match e with EvSend r => [r] | _ => [] end.
Proof. unfold sent. rewrite omap_app. by destruct e. Qed.

Lemma calls_snoc tr e :
  calls (tr ++ [e])
  = calls tr ++ match e with EvCall p oc => [(p, oc)] | _ => [] end.
Proof. unfold calls. rewrite omap_app. by destruct e. Qed.

Lemma workerPath_insert ws i wk wk' :
  ws !! i = Some wk → workerPath wk' = workerPath wk →
  workerPath <$> <[i := wk']> ws = workerPath <$> ws.
Proof.
  intros Hi Hp. rewrite list_fmap_insert, Hp. apply list_insert_id.
  by rewrite list_lookup_fmap, Hi.
Qed.

Lemma dispatched_snoc paths p :
  dispatched (paths ++ [p])
  = dispatched paths ++ match NewObject p with Some _ => [p] | None => [] end.
Proof.
  unfold Dispatcher.dispatched. rewrite filter_app. f_equal.
  destruct (NewObject p) eqn:E.
  - rewrite filter_cons_True; [done | by rewrite E].
  - rewrite filter_cons_False; [done | rewrite E; by intros []].
Qed.


Lemma dispatch_init_Inv (l : slice Path) w : Inv (elems l) (init l w).
Proof.
  split; simpl; try done.
  unfold Dispatcher.mainInv; simpl. split; [|done]. by exists [].
Qed.

Lemma dispatch_worker_step_Inv paths fa i st st' :
  Inv paths st → worker_step fa i st = Some st' → Inv paths st'.
Proof.
  intros [Hcap Hst Hfifo Hsent Hcalls Hm] Hstep. unfold worker_step in Hstep.
  destruct (workers st !! i) as [wk|] eqn:Hi; [|done].
  assert (Hmain : ∀ st1 wk', main st1 = main st →
            workers st1 = <[i := wk']> (workers st) →
            workerPath wk' = workerPath wk →
            results st1 = results st → started st1 = started st →
            mainInv paths st1).
  { intros st1 wk' Em Ew Ep Er Es. unfold Dispatcher.mainInv in *.
    rewrite Em, Ew, Er, Es, (workerPath_insert _ _ _ _ Hi Ep). done. }
  destruct wk as [p fn|p oc|p oc]; [| |done].
  - destruct (call fn fa (world st)) as [oc w'] eqn:Ec. simplify_eq.
    split; simpl; rewrite ?dispatch_sent_snoc, ?calls_snoc, ?app_nil_r, ?length_insert;
      try done.
    + unfold finished. by erewrite omap_insert_same.
    + unfold called. rewrite (omap_insert_fresh _ _ _ _ _ (p, oc) Hi); [|done..].
      rewrite <- Permutation_cons_append. by f_equiv.
    + by eapply Hmain.
  - case_bool_decide as Hlt; [|done]. simplify_eq.
    split; simpl; rewrite ?dispatch_sent_snoc, ?calls_snoc, ?app_nil_r, ?length_insert;
      try done.
    + by rewrite Hfifo, <- app_assoc.
    + unfold finished. rewrite (omap_insert_fresh _ _ _ _ _ (p, oc) Hi); [|done..].
      rewrite <- Permutation_cons_append, fmap_cons. by f_equiv.
    + unfold called. by erewrite omap_insert_same.
    + by eapply Hmain.
Qed.

Lemma sent_finished_length paths st :
  Inv paths st →
  length (sent (trace st)) = length (finished (workers st))
  ∧ length (finished (workers st)) ≤ length (workers st)
  ∧ length (workers st) ≤ length paths.
Proof.
  intros [Hcap Hst Hfifo Hsent Hcalls Hm].
  split; [by rewrite Hsent, length_fmap|]. split; [apply omap_length_le|].
  rewrite <- (length_fmap workerPath). unfold Dispatcher.mainInv in Hm.
  destruct (main st).
  - destruct Hm as [(seen & -> & ->) _]. rewrite length_app.
    pose proof (length_filter (λ p, is_Some (NewObject p)) seen).
    unfold Dispatcher.dispatched. lia.
  - destruct Hm as [-> _]. apply length_filter.
  - destruct Hm as [-> _]. apply length_filter.
Qed.

Lemma dispatch_main_step_Inv paths action st st' :
  Inv paths st → main_step NewObject action st = Some st' → Inv paths st'.
Proof.
  intros HI Hstep. pose proof (sent_finished_length _ _ HI) as (Hl1 & Hl2 & Hl3).
  destruct HI as [Hcap Hst Hfifo Hsent Hcalls Hm].
  unfold main_step in Hstep. unfold Dispatcher.mainInv in Hm.
  destruct (main st) as [[|p todo]|i|rs] eqn:Em; [| | |done].
  - (* end of the dispatch loop *)
    simplify_eq. destruct Hm as [(seen & Hp & Hw) Hr].
    split; try done. unfold Dispatcher.mainInv; simpl.
    rewrite app_nil_r in Hp. subst seen. by rewrite Hr.
  - (* one path of the selection *)
    destruct Hm as [(seen & Hp & Hw) Hr].
    destruct (NewObject p) as [obj|] eqn:En; simplify_eq.
    + split; simpl; try done.
      * rewrite length_app. simpl. lia.
      * unfold finished in *. by rewrite omap_app, app_nil_r.
      * unfold called in *. by rewrite omap_app, app_nil_r.
      * unfold Dispatcher.mainInv; simpl. split; [|done].
        exists (seen ++ [p]). rewrite <- app_assoc. split; [done|].
        by rewrite fmap_app, dispatched_snoc, En, Hw.
    + split; simpl; try done.
      unfold Dispatcher.mainInv; simpl. split; [|done].
      exists (seen ++ [p]). rewrite <- app_assoc. split; [done|].
      by rewrite dispatched_snoc, En, app_nil_r.
  - (* the collect loop *)
    destruct Hm as [Hw Hi]. case_bool_decide as Hlt.
    + destruct (q st) as [|r q'] eqn:Eq; [done|]. simplify_eq.
      split; simpl; rewrite ?dispatch_sent_snoc, ?calls_snoc, ?app_nil_r; try done.
      * by rewrite Hfifo, <- app_assoc.
      * unfold Dispatcher.mainInv; simpl. split; [done|].
        rewrite length_app. simpl. lia.
    + simplify_eq. split; simpl; try done.
      unfold Dispatcher.mainInv; simpl. split; [done|]. split; [done|].
      rewrite Hfifo, length_app in Hl1. lia.
Qed.

Lemma dispatch_step_Inv paths action fa tid st st' :
  Inv paths st → step action fa tid st = Some st' → Inv paths st'.
Proof.
  destruct tid; simpl; eauto using dispatch_main_step_Inv, dispatch_worker_step_Inv.
Qed.

Lemma dispatch_exec_Inv paths action fa sched : ∀ st st',
  Inv paths st → exec action fa sched st = Some st' → Inv paths st'.
Proof.
  induction sched as [|tid sched IH]; intros st st' HI He; simplify_eq/=; [done|].
  destruct (Dispatcher.step NewObject action fa tid st) as [st1|] eqn:Es; [|done].
  eauto using dispatch_step_Inv.
Qed.






(** Once every goroutine has exited, the calls made are the calls that
    ran to their send, one per goroutine and in spawn order. *)
Lemma all_finished ws :
  length (finished ws) = length ws →
  called ws = finished ws ∧ (finished ws).*1 = workerPath <$> ws.
Proof.
  induction ws as [|wk ws IH]; [done|].
  unfold finished, called in *. csimpl.
  pose proof (omap_length_le
    (λ wk, match wk with WExit p oc => Some (p, oc) | _ => None end) ws).
  destruct wk as [p fn|p oc|p oc]; csimpl; intros Hl; try lia.
  destruct IH as [-> ->]; [lia|]. done.
Qed.

Lemma step_workerOk action fa tid st st' :
  Forall (workerOk NewObject action) (workers st) →
  step action fa tid st = Some st' →
  Forall (workerOk NewObject action) (workers st').
Proof.
  intros Hok. destruct tid as [|i]; simpl.
  - unfold main_step. intros Hstep.
    destruct (main st) as [[|p todo]|j|rs]; simplify_eq/=; try done.
    + destruct (NewObject p) as [obj|] eqn:En; simplify_eq/=; [|done].
      apply Forall_app. split; [done|]. repeat constructor. by exists obj.
    + case_bool_decide; [|by simplify_eq/=].
      destruct (q st); by simplify_eq/=.
  - unfold worker_step. intros Hstep.
    destruct (workers st !! i) as [wk|] eqn:Hi; [|done].
    pose proof (Forall_lookup_1 _ _ _ _ Hok Hi) as Hwk.
    destruct wk as [p fn|p oc|p oc]; [| |done].
    + destruct (call fn fa (world st)) as [oc w'] eqn:Ec. simplify_eq/=.
      apply Forall_insert; [done|]. destruct Hwk as (obj & Hn & ->).
      exists obj. split; [done|]. intros Hnone. rewrite Hnone in Ec.
      simpl in Ec. by simplify_eq.
    + case_bool_decide; simplify_eq/=. by apply Forall_insert.
Qed.

Lemma exec_workerOk action fa sched : ∀ st st',
  Forall (workerOk NewObject action) (workers st) →
  exec action fa sched st = Some st' →
  Forall (workerOk NewObject action) (workers st').
Proof.
  induction sched as [|tid sched IH]; intros st st' HI He; simplify_eq/=; [done|].
  destruct (Dispatcher.step NewObject action fa tid st) as [st1|] eqn:Es; [|done].
  eauto using step_workerOk.
Qed.

(** What [Action] returns: one result per path with a handle, each the
    result of the call made for that path. *)
Lemma Action_returns paths action st rs :
  Inv paths st → Forall (workerOk NewObject action) (workers st) →
  main st = MReturn rs →
  length (workers st) = length (dispatched paths)
  ∧ (calls (trace st)).*1 ≡ₚ dispatched paths
  ∧ rs = make_slice (results st)
  ∧ results st ≡ₚ resultOf <$> calls (trace st)
  ∧ (∀ p oc, (p, oc) ∈ calls (trace st) →
       ∃ obj, NewObject p = Some obj
              ∧ (obj !! action = None → oc = Panicked PanicZeroValueCall)).
Proof.
  intros HI Hok Em. pose proof (sent_finished_length _ _ HI) as (Hl1 & Hl2 & Hl3).
  destruct HI as [Hcap Hst Hfifo Hsent Hcalls Hm].
  unfold Dispatcher.mainInv in Hm. rewrite Em in Hm.
  destruct Hm as (Hw & -> & Hlen).
  rewrite Hfifo, length_app in Hl1.
  assert (q st = []) as Hq by (apply nil_length_inv; lia).
  rewrite Hq, app_nil_r in Hfifo.
  destruct (all_finished (workers st)) as [Hc Hf]; [lia|].
  rewrite Hc in Hcalls.
  split; [by rewrite <- Hw, length_fmap|].
  split; [by rewrite Hcalls, Hf, Hw|]. split; [done|].
  split; [by rewrite <- Hfifo, Hsent, Hcalls|].
  intros p oc Hin. rewrite Hcalls in Hin. unfold finished in Hin.
  apply list_elem_of_omap in Hin as (wk & Hwk & Heq).
  eapply Forall_forall in Hok; [|done].
  destruct wk; simplify_eq. done.
Qed.


Lemma Action_inv sched t action args w rs st :
  Action NewObject unmarshal sched t action args w = Some (rs, st) →
  exec action args sched (init (Expand unmarshal t) w) = Some st
  ∧ main st = MReturn rs
  ∧ Inv (elems (Expand unmarshal t)) st
  ∧ Forall (workerOk NewObject action) (workers st).
Proof.
  unfold Action. intros HA.
  destruct (Dispatcher.exec NewObject action args sched
              (init (Expand unmarshal t) w)) as [st1|] eqn:He; [|done].
  destruct (main st1) as [| |rs1] eqn:Em; simplify_eq.
  split; [done|]. split; [done|]. split.
  - eapply dispatch_exec_Inv; [apply dispatch_init_Inv | done].
  - eapply exec_workerOk; [|done]. constructor.
Qed.

(** A path without a handle contributes no result. *)
Lemma Action_skips_nil_handles sched t action args w rs st :
  Action NewObject unmarshal sched t action args w = Some (rs, st) →
  length (elems rs) = length (dispatched (elems (Expand unmarshal t))).
Proof.
  intros (He & Em & HI & Hok)%Action_inv.
  destruct (Action_returns _ _ _ _ HI Hok Em) as (_ & Hp & -> & Hr & _).
  simpl. by rewrite Hr, length_fmap, <- (length_fmap fst), Hp.
Qed.



(** C7: when the request to the daemon fails, [Expand] returns an empty,
    non-nil list of paths and raises no error; [Action] over it returns,
    with no result. *)
Theorem Expand_failure_is_empty_selection t req err :
  API t = Some req → req (SelectorExpression t) = inl err →
  Expand unmarshal t = make_slice []
  ∧ (∀ sched action args w rs st,
       Action NewObject unmarshal sched t action args w = Some (rs, st) →
       rs = make_slice [])
  ∧ (∀ action args w, ∃ st,
       Action NewObject unmarshal [0; 0] t action args w
       = Some (make_slice [], st)).
Proof.
  intros Hapi Hreq.
  assert (Expand unmarshal t = make_slice []) as HE.
  { unfold Expand, daemonExpand. by rewrite Hapi, Hreq. }
  split; [done|]. split.
  - intros sched action args w rs st HA.
    pose proof (Action_skips_nil_handles _ _ _ _ _ _ _ HA) as Hl.
    apply Action_inv in HA as (_ & Em & HI & Hok).
    destruct (Action_returns _ _ _ _ HI Hok Em) as (_ & _ & -> & _).
    rewrite HE in Hl. simpl in Hl. apply nil_length_inv in Hl. by rewrite Hl.
  - intros action args w. unfold Action. rewrite HE. by eexists.
Qed.

End WithWorld.



Lemma Expand_failure_is_empty_selection_witness :
  Expand sampleUnmarshal failingSelection = make_slice []
  ∧ ∃ st, Action sampleNewObject sampleUnmarshal [0; 0] failingSelection
            "Start" [] () = Some (make_slice [], st).
Proof.
  destruct (Expand_failure_is_empty_selection sampleNewObject sampleUnmarshal
              failingSelection _ "connection refused"%string eq_refl eq_refl)
    as (HE & _ & HA).
  split; [exact HE | apply HA].
Defined.

End DispatcherFacts.

(** ** Status bus *)

Module StatusBusFacts.
Import StatusBus.

(** C8: on a bus that is not started, [Post] and [Get] panic with
    [ErrorNeedStart] and return nothing; on a started bus, [Start] panics
    with [ErrorStarted]; so do a second [Start] in a row and any [Post] or
    [Get] after [Stop]. *)
Theorem bus_lifecycle_misuse_fails_fast
    (t : T) (p : PathT) (rid : string) (s : Status) (pending : bool) :
  (started t = false →
     Post t p rid s pending = PanicsWith ErrorNeedStart
     ∧ Get t p rid = PanicsWith ErrorNeedStart)
  ∧ (started t = true → Start t = PanicsWith ErrorStarted)
  ∧ (∀ t', Start t = Ok t' → Start t' = PanicsWith ErrorStarted)
  ∧ Post (Stop t) p rid s pending = PanicsWith ErrorNeedStart
  ∧ Get (Stop t) p rid = PanicsWith ErrorNeedStart.
Proof.
  unfold Post, Get, Start, Stop.
  split; [|split; [|split; [|split]]]; try done.
  - by intros ->.
  - by intros ->.
  - intros t'. destruct (started t); [done|]. by intros [= <-].
Qed.

Lemma bus_lifecycle_misuse_fails_fast_witness :
  Post zero ("", "", "")%string "app#1" Warn false = PanicsWith ErrorNeedStart
  ∧ Get zero ("", "", "")%string "app#1" = PanicsWith ErrorNeedStart
  ∧ Start (mkT true ∅) = PanicsWith ErrorStarted.
Proof.
  destruct (bus_lifecycle_misuse_fails_fast zero ("", "", "")%string
              "app#1" Warn false) as (Hz & _).
  destruct (bus_lifecycle_misuse_fails_fast (mkT true ∅) ("", "", "")%string
              "app#1" Warn false) as (_ & Hs & _).
  destruct Hz as [HP HG]; [reflexivity|].
  split; [exact HP|]. split; [exact HG|]. apply Hs. reflexivity.
Defined.

(** The scenario of [TestPost]: the last status posted for a key is read
    back, and a key never posted reads [Undef]. *)
Example TestPost_scenario :
  ∃ bus,
    applyAll zero
      [OpStart;
       OpPost ("foo", "root", "svc")%string "app#1" Down false;
       OpPost ("foo", "root", "svc")%string "app#2" Up false] = Ok bus
    ∧ Get bus ("foo", "root", "svc")%string "app#1" = Ok Down
    ∧ Get bus ("foo", "root", "svc")%string "app#2" = Ok Up
    ∧ Get bus ("foo", "root", "svc")%string "app#3" = Ok Undef
    ∧ Get bus ("", "", "")%string "" = Ok Undef.
Proof. eexists. split; [reflexivity|]. repeat split; by vm_compute. Qed.

End StatusBusFacts.

(** ** Process executor: capture, callbacks, start failures *)

Module CommandRunFacts.
Import Command CommandRun CommandBuffer.
















(** X4: when [Start] returns an error no helper goroutine has been
    launched, the channel is not made and the buffers are untouched; [Run]
    returns that error without waiting; had a stream been configured
    before the failure, a [Wait] on that command would never return. *)
Theorem Start_error_launches_nothing
    (env : Env) (t t' : T) (err : error) (evs : list Event) :
  fresh t → Start env t = (Some err, t', evs) →
  evs = [] ∧ done t' = None
  ∧ stdout t' = nil_slice ∧ stderr t' = nil_slice
  ∧ (∀ ch proc_err, Run env t ch proc_err = Some (Some err, t', []))
  ∧ (filter (λ f, isStream f = true) (goroutine t') ≠ [] →
       ∀ proc_err, Wait t' [] proc_err = None).
Proof.
  intros (Hg & Hc & Hd & Ho & He) HS.
  assert (evs = [] ∧ done t' = None ∧ stdout t' = nil_slice
          ∧ stderr t' = nil_slice
          ∧ waitCount t'
            = Z.of_nat (length (filter (λ f, isStream f = true) (goroutine t'))))
    as (-> & Hd' & Ho' & He' & Hwc).
  { unfold Start in HS. cbv zeta in HS.
    destruct (valid_err env);
      [simplify_eq; unfold waitCount; by rewrite Hg, Hc|].
    destruct (update_err env);
      [simplify_eq; unfold waitCount; by rewrite Hg, Hc|].
    destruct (bool_decide (stdoutLogLevel t ≠ Disabled)
              || bufferStdout t || onStdoutLine t);
      try (destruct (stdoutPipe_err env);
           [simplify_eq; unfold waitCount; by rewrite Hg, Hc|]);
      cbn [add_goroutine set_cancel stderrLogLevel bufferStderr onStderrLine
           timeout goroutine] in HS;
      destruct (bool_decide (stderrLogLevel t ≠ Disabled)
                || bufferStderr t || onStderrLine t);
      try (destruct (stderrPipe_err env);
           [simplify_eq; unfold waitCount; simpl; by rewrite Hg, Hc|]);
      cbn [add_goroutine set_cancel stderrLogLevel bufferStderr onStderrLine
           timeout goroutine] in HS;
      destruct (0 <? timeout t)%Z;
      cbn [add_goroutine set_cancel goroutine] in HS;
      (destruct (start_err env);
       [|rewrite ?Hg in HS; simpl in HS; by simplify_eq]);
      simplify_eq; unfold waitCount; simpl; rewrite ?Hg, ?Hc; done. }
  split; [done|]. split; [done|]. split; [done|]. split; [done|]. split.
  - intros ch perr. unfold Run. by rewrite HS.
  - intros Hne perr. unfold Wait. rewrite Hwc, Nat2Z.id.
    rewrite CommandFacts.recvLoop_starved; [done|].
    destruct (filter _ (goroutine t')); [done | simpl; lia].
Qed.

Lemma Start_error_launches_nothing_witness :
  Run (mkEnv None None None None (Some "exec: not found"%string))
      buffered_cmd ["stdout"; "stderr"]%string None
  = Some (Some "exec: not found"%string,
          (Start (mkEnv None None None None (Some "exec: not found"%string))
                 buffered_cmd).1.2, []).
Proof.
  refine (proj1 (proj2 (proj2 (proj2 (proj2
    (Start_error_launches_nothing
       (mkEnv None None None None (Some "exec: not found"%string))
       buffered_cmd _ "exec: not found"%string _ _ _))))) _ _).
  - by vm_compute.
  - vm_compute. reflexivity.
Defined.

End CommandRunFacts.

(** ** Process executor: command lines *)

Module CommandArgsFacts.
Import CommandArgs.

Lemma append_cons c (a b : string) : String c a +:+ b = String c (a +:+ b).
Proof. reflexivity. Qed.

Lemma append_empty (b : string) : EmptyString +:+ b = b.
Proof. reflexivity. Qed.

Lemma prefix_append (sub : string) : ∀ s,
  String.prefix sub s = true ↔ ∃ b, s = sub +:+ b.
Proof.
  induction sub as [|a sub IH]; intros s.
  - split; [intros _; by exists s | intros _; by destruct s].
  - destruct s as [|c s]; simpl.
    + split; [done | intros [b Hb]; by rewrite append_cons in Hb].
    + destruct (Ascii.ascii_dec a c) as [->|Hne].
      * rewrite IH. split; intros [b Hb]; exists b;
          rewrite append_cons in *; congruence.
      * split; [done|]. intros [b Hb]. rewrite append_cons in Hb. congruence.
Qed.

(** [contains] is substring search. *)
Lemma contains_spec (sub : string) : ∀ s,
  contains s sub = true ↔ ∃ a b, s = a +:+ sub +:+ b.
Proof.
  induction s as [|c s IH]; cbn [contains].
  - rewrite prefix_append. split.
    + intros [b Hb]. by exists EmptyString, b.
    + intros ([|c a] & b & Hb); [by exists b | by rewrite append_cons in Hb].
  - rewrite orb_true_iff, IH, prefix_append. split.
    + intros [[b Hb]|(a & b & Hb)].
      * by exists EmptyString, b.
      * exists (String c a), b. by rewrite append_cons, Hb.
    + intros ([|c' a] & b & Hb).
      * left. by exists b.
      * right. exists a, b. rewrite append_cons in Hb. congruence.
Qed.

Section WithShlex.

Context (shlexSplit : string → error + list string).

(** X5: [commandArgsFromString] rejects the empty string, never returns an
    empty argument list - so that [CommandFromString] never indexes out of
    range - and hands a command line holding [|], [&&] or [;] whole to
    [/bin/sh -c], whatever the splitter would make of it. *)
Theorem commandArgsFromString_nonempty :
  (∃ err, commandArgsFromString shlexSplit "" = inl err)
  ∧ (∀ s args, commandArgsFromString shlexSplit s = inr args →
       args ≠ [] ∧ s ≠ ""%string)
  ∧ (∀ s, CommandFromString shlexSplit s ≠ PanicsOutOfRange)
  ∧ (∀ s a b sep,
       s = a +:+ sep +:+ b →
       sep = "|"%string ∨ sep = "&&"%string ∨ sep = ";"%string →
       commandArgsFromString shlexSplit s = inr ["/bin/sh"; "-c"; s]%string
       ∧ CommandFromString shlexSplit s
         = Yields (inr ("/bin/sh", ["-c"; s])%string)).
Proof.
  assert (Hne : ∀ s args, commandArgsFromString shlexSplit s = inr args →
            args ≠ [] ∧ s ≠ ""%string).
  { intros s args. unfold commandArgsFromString.
    case_bool_decide as Hl; [done|].
    assert (s ≠ ""%string) by (by intros ->).
    destruct (contains s "|"); [by intros [= <-]|].
    destruct (contains s "&&"); [by intros [= <-]|].
    destruct (contains s ";"); [by intros [= <-]|].
    destruct (shlexSplit s) as [err|sSplit]; [done|].
    case_bool_decide as Hs; [done|]. intros [= <-].
    split; [|done]. by intros ->. }
  split; [by eexists|]. split; [exact Hne|]. split.
  - intros s. unfold CommandFromString.
    destruct (commandArgsFromString shlexSplit s) as [err|[|name args]] eqn:E;
      [done| |done].
    by destruct (Hne _ _ E).
  - intros s a b sep Hs Hsep.
    assert (commandArgsFromString shlexSplit s = inr ["/bin/sh"; "-c"; s]%string)
      as Hsh.
    { assert (contains s sep = true) as Hc by (apply contains_spec; eauto).
      unfold commandArgsFromString.
      case_bool_decide as Hl.
      - destruct s; [|done]. clear Hs.
        destruct Hsep as [-> | [-> | ->]]; vm_compute in Hc; discriminate.
      - destruct Hsep as [-> | [-> | ->]]; rewrite ?Hc.
        + done.
        + by destruct (contains s "|").
        + by destruct (contains s "|"), (contains s "&&"). }
    split; [done|]. unfold CommandFromString. by rewrite Hsh.
Qed.

End WithShlex.

Lemma commandArgsFromString_nonempty_witness :
  commandArgsFromString sampleShlex "lvs -o devices | wc -l"
  = inr ["/bin/sh"; "-c"; "lvs -o devices | wc -l"]%string
  ∧ commandArgsFromString sampleShlex "lvchange -ay vg/lv"
    = inr ["lvchange"; "-ay"; "vg/lv"]%string.
Proof.
  split.
  - apply (commandArgsFromString_nonempty sampleShlex)
      with (a := "lvs -o devices "%string) (b := " wc -l"%string)
           (sep := "|"%string); [reflexivity | by left].
  - vm_compute. reflexivity.
Defined.

End CommandArgsFacts.

(** ** Process executor: the join on [t.done] *)

Module JoinFacts.
Import Command Join JoinCount.

Lemma helperOf_counts (g : list Task) (n : nat) :
  sum_list_with isCtxHelper (helperOf <$> g) = sum_list_with isCtxTask g
  ∧ sum_list_with (sendsOf n) (helperOf <$> g) = 0
  ∧ (∀ i h, (helperOf <$> g) !! i = Some h →
       h = HSelect ∨ ∃ f, h = HScanning f).
Proof.
  induction g as [|f g (IH1 & IH2 & IH3)]; [by repeat split|].
  rewrite fmap_cons. cbn [sum_list_with]. rewrite IH1, IH2. repeat split.
  - by destruct f.
  - by destruct f.
  - intros [|i] h Hi; [|by apply (IH3 i)].
    destruct f; simplify_eq/=; eauto.
Qed.

(** While the context is not done, every helper has sent once, is a
    stream closure still at work, or is the deadline closure. *)
Lemma helpers_partition (n : nat) (hs : list Helper) :
  (∀ i h, hs !! i = Some h → isCtxHelper h = 1 → h = HSelect) →
  sum_list_with (sendsOf n) hs + sum_list_with pendingStream hs
  + sum_list_with isCtxHelper hs = length hs.
Proof.
  induction hs as [|h hs IH]; intros Hsel; [done|].
  specialize (IH (λ i h' Hi, Hsel (S i) h' Hi)).
  pose proof (Hsel 0 h eq_refl) as H0.
  destruct h; simpl in *; try lia; by specialize (H0 eq_refl).
Qed.

Lemma waitCount_wellStarted t :
  wellStarted t →
  Z.to_nat (waitCount t) + (if cancel t then 1 else 0) = length (goroutine t).
Proof.
  intros (_ & Hc & _). unfold waitCount.
  destruct (cancel t); [|lia].
  assert (1 ≤ length (goroutine t)); [|lia].
  rewrite <- Hc. apply sum_list_with_le_length. intros []; simpl; lia.
Qed.

Lemma Start_wellStarted env t t' evs :
  fresh t → Start env t = (None, t', evs) → wellStarted t'.
Proof.
  intros Hf HS.
  destruct (CommandFacts.Start_ok_shape env t t' evs Hf HS)
    as (Hg & Hc & Ht & _ & Hd).
  split; [done|]. split; [|by rewrite Hc, Ht].
  rewrite Hg, Hc.
  repeat match goal with |- context [if ?b then _ else _] => destruct b end;
    reflexivity.
Qed.

Lemma join_init_Inv t : wellStarted t → Inv t (init t).
Proof.
  intros Hw. pose proof Hw as (Hd & Hc & Ht).
  destruct (helperOf_counts (goroutine t) (length (goroutine t)))
    as (H1 & H2 & H3).
  split; simpl; try done.
  - rewrite Hd. destruct (goroutine t); [done|]. by rewrite Nat2Z.id.
  - by rewrite length_fmap.
  - by rewrite H1.
  - intros i k Hi. destruct (H3 _ _ Hi) as [?|[f ?]]; done.
  - intros _ i h Hi Hh. destruct (H3 _ _ Hi) as [?|[f ?]]; [done|].
    by subst.
  - intros _ Hk. by destruct (Hk (Z.to_nat (waitCount t))).
Qed.

Lemma nRecv_snoc tr e :
  nRecv (tr ++ [e]) = nRecv tr + match e with JRecv _ => 1 | _ => 0 end.
Proof. apply sum_list_with_snoc. Qed.

Lemma nRecv_app tr tr' : nRecv (tr ++ tr') = nRecv tr + nRecv tr'.
Proof. apply sum_list_with_app. Qed.

Lemma waiter_step_Inv t st st' :
  wellStarted t → Inv t st → waiter_step t st = Some st' → Inv t st'.
Proof.
  intros Hw [Hcap Hlen Hctx Hleft Hcount Hwait Hnd Hcan Hdr] Hstep.
  pose proof (waitCount_wellStarted t Hw) as Hwc.
  unfold waiter_step in Hstep.
  destruct (waiter st) as [[|k]| |] eqn:Ew; [| | |done].
  - (* the receive loop is over: cmd.Wait() *)
    simplify_eq. split; simpl; rewrite ?nRecv_snoc; simpl;
      rewrite ?Nat.add_0_r; try done.
    + intros Hc. by specialize (Hcan Hc).
    + intros Hcause _.
      assert (cause st = NotDone) as Hn.
      { destruct (cause st) eqn:Ec; try done.
        by specialize (Hcan eq_refl). }
      pose proof (helpers_partition (length (goroutine t)) (helpers st)
                    (Hnd Hn)) as Hp.
      rewrite Hcount, Hctx, Hlen in Hp. simpl in Hwait. lia.
  - (* one receive *)
    destruct (buf st) as [|s b] eqn:Eb; [done|]. simplify_eq.
    split; simpl; rewrite ?nRecv_snoc; simpl; try done.
    + rewrite Hcount. simpl. lia.
    + lia.
    + intros Hc. by specialize (Hcan Hc).
    + intros _ Hk. by destruct (Hk k).
  - (* cmd.Wait() returns, the deferred cancel runs *)
    destruct (cancel t) eqn:Ecan; simplify_eq.
    + split; simpl; rewrite ?nRecv_snoc; simpl; rewrite ?Nat.add_0_r;
        try done.
      * by rewrite Ecan.
      * by destruct (cause st).
      * intros Hc _. apply Hdr; [by destruct (cause st) | done].
    + split; simpl; try done.
      * by rewrite Ecan.
      * intros Hc _. by apply Hdr.
Qed.

Lemma timer_step_Inv t st st' :
  Inv t st → timer_step t st = Some st' → Inv t st'.
Proof.
  intros [Hcap Hlen Hctx Hleft Hcount Hwait Hnd Hcan Hdr] Hstep.
  unfold timer_step in Hstep.
  destruct (cause st) eqn:Ec; [|done..].
  destruct (0 <? timeout t)%Z; [|done]. simplify_eq.
  split; simpl; rewrite ?nRecv_snoc; simpl; rewrite ?Nat.add_0_r; done.
Qed.

Lemma helper_step_Inv t i st st' :
  Inv t st → helper_step t i st = Some st' → Inv t st'.
Proof.
  intros [Hcap Hlen Hctx Hleft Hcount Hwait Hnd Hcan Hdr] Hstep.
  unfold helper_step in Hstep.
  destruct (helpers st !! i) as [h|] eqn:Hi; [|done].
  pose proof (λ y, sum_list_with_insert isCtxHelper (helpers st) i h y Hi) as Sc.
  pose proof (λ y, sum_list_with_insert (sendsOf (length (goroutine t)))
                     (helpers st) i h y Hi) as Ss.
  pose proof (λ y, sum_list_with_insert pendingStream (helpers st) i h y Hi) as Sp.
  assert (Hl : ∀ y, (∀ k, y = HCtxSending k → k ≤ length (goroutine t)) →
            ∀ j k, <[i := y]> (helpers st) !! j = Some (HCtxSending k) →
                   k ≤ length (goroutine t)).
  { intros y Hy j k [(-> & -> & _)|[_ Hj]]%list_lookup_insert_Some; eauto. }
  assert (Hn : ∀ y, (isCtxHelper y = 1 → cause st = NotDone → y = HSelect) →
            cause st = NotDone →
            ∀ j h', <[i := y]> (helpers st) !! j = Some h' →
                    isCtxHelper h' = 1 → h' = HSelect).
  { intros y Hy Hc j h' [(-> & -> & _)|[_ Hj]]%list_lookup_insert_Some Hh';
      eauto. }
  assert (Hk : ∀ k, h = HCtxSending k → k ≤ length (goroutine t))
    by (intros k ->; eauto).
  destruct h as [f|f|f| |[|k]|]; [| |done| | | |done].
  - (* the stream is closed *)
    simplify_eq. specialize (Sc (HSending f)). specialize (Ss (HSending f)).
    specialize (Sp (HSending f)).
    split; simpl; rewrite ?length_insert; simpl in *; rewrite ?Nat.add_0_r in *;
      try done; try lia;
      try (apply Hl; intros k' Hk'; by simplify_eq);
      try (apply Hn; intros Hy; by simpl in Hy);
      try (intros Hc Hk'; specialize (Hdr Hc Hk'); lia).
  - (* t.done <- name *)
    case_bool_decide as Hlt; [|done]. simplify_eq.
    specialize (Sc (HExited f)). specialize (Ss (HExited f)).
    specialize (Sp (HExited f)).
    split; simpl; rewrite ?length_insert, ?nRecv_snoc, ?length_app;
      simpl in *; rewrite ?Nat.add_0_r in *;
      try done; try lia;
      try (apply Hl; intros k' Hk'; by simplify_eq);
      try (apply Hn; intros Hy; by simpl in Hy);
      try (intros Hc Hk'; specialize (Hdr Hc Hk'); lia).
  - (* ctx.Done() *)
    specialize (Sc (HCtxSending (length (goroutine t)))).
    specialize (Ss (HCtxSending (length (goroutine t)))).
    specialize (Sp (HCtxSending (length (goroutine t)))).
    destruct (cause st) eqn:Ec; [done| |]; simplify_eq;
      (split; simpl; rewrite ?length_insert, ?nRecv_app, ?nRecv_snoc;
       simpl in *; rewrite ?Nat.add_0_r in *;
       try done; try lia;
       try (apply Hl; intros k' Hk'; simplify_eq; lia);
       try (intros Hc Hk'; specialize (Hdr Hc Hk'); lia);
       try (destruct (onStderrLine t); simpl; rewrite ?Nat.add_0_r;
            first [lia | done])).
  - (* the loop of the deadline closure is over *)
    simplify_eq. specialize (Sc HCtxExited). specialize (Ss HCtxExited).
    specialize (Sp HCtxExited).
    split; simpl; rewrite ?length_insert; simpl in *; rewrite ?Nat.add_0_r in *;
      try done; try lia;
      try (apply Hl; intros k' Hk'; by simplify_eq);
      try (intros Hc; by specialize (Hnd Hc _ _ Hi eq_refl));
      try (intros Hc Hk'; specialize (Hdr Hc Hk'); lia).
  - (* t.done <- "ctx" *)
    case_bool_decide as Hlt; [|done]. simplify_eq.
    specialize (Hk _ eq_refl).
    specialize (Sc (HCtxSending k)). specialize (Ss (HCtxSending k)).
    specialize (Sp (HCtxSending k)).
    split; simpl; rewrite ?length_insert, ?nRecv_snoc, ?length_app;
      simpl in *; rewrite ?Nat.add_0_r in *;
      try done; try lia;
      try (apply Hl; intros k' Hk'; simplify_eq; lia);
      try (intros Hc; by specialize (Hnd Hc _ _ Hi eq_refl));
      try (intros Hc Hk'; specialize (Hdr Hc Hk'); lia).
Qed.

Lemma join_step_Inv t a st st' :
  wellStarted t → Inv t st → step t a st = Some st' → Inv t st'.
Proof.
  destruct a; simpl;
    eauto using waiter_step_Inv, helper_step_Inv, timer_step_Inv.
Qed.

Lemma join_exec_Inv t sched : ∀ st st',
  wellStarted t → Inv t st → exec t sched st = Some st' → Inv t st'.
Proof.
  induction sched as [|a sched IH]; intros st st' Hw HI He; simplify_eq/=;
    [done|].
  destruct (step t a st) as [st1|] eqn:Es; [|done].
  eauto using join_step_Inv.
Qed.

Lemma sum_list_with_ge_at {A} (f : A → nat) (l : list A) i x :
  l !! i = Some x → f x ≤ sum_list_with f l.
Proof.
  revert i. induction l as [|a l IH]; intros [|i] Hi; simplify_eq/=; [lia|].
  specialize (IH i Hi). lia.
Qed.

(** Sends made and sends to come add up to one per stream closure and
    [len(t.goroutine)] for the deadline closure. *)
Lemma helpers_total (n : nat) (hs : list Helper) :
  (∀ i k, hs !! i = Some (HCtxSending k) → k ≤ n) →
  sum_list_with (sendsOf n) hs + sum_list_with (sendsLeft n) hs
  + sum_list_with isCtxHelper hs
  = length hs + n * sum_list_with isCtxHelper hs.
Proof.
  induction hs as [|h hs IH]; intros Hk; [simpl; lia|].
  specialize (IH (λ i k Hi, Hk (S i) k Hi)).
  pose proof (λ k, Hk 0 k) as H0.
  destruct h as [f|f|f| |k|]; simpl in *; try lia.
  specialize (H0 k eq_refl). nia.
Qed.

(** X6: as long as the deadline has not fired, [Wait] reaches
    [cmd.Wait()] only after every stream closure has sent its signal, that
    is after it has read its stream to the end. *)
Theorem Wait_reaps_after_streams_drained
    (env : Env) (t t' : T) (evs : list Command.Event)
    (sched : list Action) (st : State) :
  fresh t → Start env t = (None, t', evs) →
  exec t' sched (init t') = Some st →
  (∀ k, waiter st ≠ WRecv k) → cause st ≠ DeadlineExceeded →
  ∀ i h, helpers st !! i = Some h →
         (∀ f, h ≠ HScanning f) ∧ (∀ f, h ≠ HSending f).
Proof.
  intros Hf HS He Hw Hc i h Hi.
  pose proof (Start_wellStarted _ _ _ _ Hf HS) as Hws.
  pose proof (join_exec_Inv _ _ _ _ Hws (join_init_Inv _ Hws) He) as HI.
  pose proof (inv_drained _ _ HI Hc Hw) as Hz.
  pose proof (sum_list_with_null pendingStream _ _ _ Hz Hi) as Hp.
  split; intros f ->; done.
Qed.

Lemma Wait_reaps_after_streams_drained_witness :
  ∃ st,
    exec (Start ok_env deadline_cmd).1.2
      [ActHelper 1; ActHelper 0; ActHelper 0; ActWaiter; ActHelper 1;
       ActWaiter; ActWaiter]
      (init (Start ok_env deadline_cmd).1.2) = Some st
    ∧ helpers st = [HExited StdoutTask; HExited StderrTask; HSelect].
Proof.
  assert (match exec (Start ok_env deadline_cmd).1.2
                  [ActHelper 1; ActHelper 0; ActHelper 0; ActWaiter;
                   ActHelper 1; ActWaiter; ActWaiter]
                  (init (Start ok_env deadline_cmd).1.2) with
          | Some st' =>
              waiter st' = WCmdWait ∧ Join.cause st' = NotDone
              ∧ length (helpers st') = 3
              ∧ helpers st' !! 2 = Some HSelect
          | None => False
          end) as Hrun by (vm_compute; repeat split).
  destruct (exec (Start ok_env deadline_cmd).1.2 _ _) as [st|] eqn:He;
    [|destruct Hrun].
  destruct Hrun as (Hw & Hc & Hl & H2). exists st. split; [reflexivity|].
  assert (∀ i h, helpers st !! i = Some h →
            (∀ f, h ≠ HScanning f) ∧ (∀ f, h ≠ HSending f)) as Hd.
  { apply (Wait_reaps_after_streams_drained ok_env deadline_cmd _ _ _ _
             ltac:(by vm_compute) eq_refl He).
    - intros k. by rewrite Hw.
    - by rewrite Hc. }
  pose proof (join_exec_Inv _ _ _ _
    (Start_wellStarted ok_env deadline_cmd _ _ ltac:(by vm_compute) eq_refl)
    (join_init_Inv _ (Start_wellStarted ok_env deadline_cmd _ _
                   ltac:(by vm_compute) eq_refl)) He) as HI.
  destruct (helpers st) as [|h0 [|h1 [|h2 [|]]]] eqn:Eh; try done.
  simpl in H2. simplify_eq.
  destruct (Hd 0 h0 eq_refl) as [A0 B0]. destruct (Hd 1 h1 eq_refl) as [A1 B1].
  assert (Hex : (Join.exec (Start ok_env deadline_cmd).1.2
                   [ActHelper 1; ActHelper 0; ActHelper 0; ActWaiter;
                    ActHelper 1; ActWaiter; ActWaiter]
                   (init (Start ok_env deadline_cmd).1.2))
                ≫= (λ s, Some (helpers s))
                = Some [HExited StdoutTask; HExited StderrTask; HSelect])
    by (vm_compute; reflexivity).
  rewrite He in Hex. simpl in Hex. rewrite Eh in Hex. by simplify_eq.
Defined.

(** X7: no helper goroutine stays blocked on [t.done]: a send finds the
    channel full only while [Wait] still has a receive to make and a value
    to receive; once [Wait] has left its loop every send goes through, and
    without a deadline no send ever waits. *)
Theorem no_helper_left_blocked
    (env : Env) (t t' : T) (evs : list Command.Event)
    (sched : list Action) (st : State) (i : nat) (h : Helper) :
  fresh t → Start env t = (None, t', evs) →
  exec t' sched (init t') = Some st →
  helpers st !! i = Some h → 0 < sendsLeft (length (goroutine t')) h →
  h ≠ HSelect → (∀ f, h ≠ HScanning f) →
  (step t' (ActHelper i) st = None →
     cancel t' = true ∧ ∃ k s b, waiter st = WRecv (S k) ∧ buf st = s :: b)
  ∧ ((∀ k, waiter st ≠ WRecv (S k)) → is_Some (step t' (ActHelper i) st))
  ∧ (cancel t' = false → is_Some (step t' (ActHelper i) st)).
Proof.
  intros Hf HS He Hi Hleft Hns Hnsc.
  pose proof (Start_wellStarted _ _ _ _ Hf HS) as Hws.
  pose proof (waitCount_wellStarted _ Hws) as Hwc.
  pose proof (join_exec_Inv _ _ _ _ Hws (join_init_Inv _ Hws) He)
    as [Hcap Hlen Hctx Hle Hcount Hwait Hnd Hcan Hdr].
  pose proof (helpers_total _ _ Hle) as Htot.
  pose proof (sum_list_with_ge_at (sendsLeft (length (goroutine t'))) _ _ _ Hi)
    as Hge.
  rewrite Hcount, Hctx, Hlen in Htot.
  assert (Hblocked : step t' (ActHelper i) st = None →
            cancel t' = true
            ∧ ∃ k s b, waiter st = WRecv (S k) ∧ buf st = s :: b).
  { simpl. unfold helper_step. rewrite Hi. intros Hstep.
    assert (length (goroutine t') ≤ length (buf st)) as Hfull.
    { destruct h as [f|f|f| |[|k]|]; simpl in Hleft; try lia; try done;
        (destruct (decide (length (buf st) < cap st)) as [Hlt|Hlt];
         [by rewrite bool_decide_eq_true_2 in Hstep | lia]). }
    destruct (cancel t') eqn:Ec; [|nia]. split; [done|].
    destruct (waiter st) as [[|k]| |] eqn:Ew; try nia.
    destruct (buf st) as [|s b]; [simpl in *; nia|]. eauto. }
  split; [done|]. split.
  - intros Hw. destruct (step t' (ActHelper i) st) eqn:Es; [eauto|].
    destruct (Hblocked eq_refl) as (_ & k & s & b & Hk & _).
    by destruct (Hw k).
  - intros Hc. destruct (step t' (ActHelper i) st) eqn:Es; [eauto|].
    destruct (Hblocked eq_refl) as (Hc' & _). congruence.
Qed.

Lemma no_helper_left_blocked_witness :
  ∃ st,
    exec (Start ok_env deadline_cmd).1.2
      [ActTimer; ActHelper 2; ActHelper 2; ActHelper 2; ActHelper 2;
       ActHelper 0]
      (init (Start ok_env deadline_cmd).1.2) = Some st
    ∧ step (Start ok_env deadline_cmd).1.2 (ActHelper 0) st = None
    ∧ ∃ k s b, waiter st = WRecv (S k) ∧ buf st = s :: b.
Proof.
  assert (match exec (Start ok_env deadline_cmd).1.2
                  [ActTimer; ActHelper 2; ActHelper 2; ActHelper 2;
                   ActHelper 2; ActHelper 0]
                  (init (Start ok_env deadline_cmd).1.2) with
          | Some st' =>
              helpers st' !! 0 = Some (HSending StdoutTask)
              ∧ step (Start ok_env deadline_cmd).1.2 (ActHelper 0) st' = None
          | None => False
          end) as Hrun by (vm_compute; repeat split).
  destruct (exec (Start ok_env deadline_cmd).1.2 _ _) as [st|] eqn:He;
    [|destruct Hrun].
  destruct Hrun as (H0 & Hb). exists st. split; [reflexivity|].
  split; [exact Hb|].
  destruct (no_helper_left_blocked ok_env deadline_cmd _ _ _ _ 0 _
              ltac:(by vm_compute) eq_refl He H0) as (Hblk & _); try done.
  - simpl. lia.
  - by destruct (Hblk Hb).
Defined.

Lemma exec_deadline_configured t sched : ∀ st st',
  exec t sched st = Some st' →
  (cause st = DeadlineExceeded → (0 <? timeout t)%Z = true) →
  cause st' = DeadlineExceeded → (0 <? timeout t)%Z = true.
Proof.
  induction sched as [|a sched IH]; intros st st' He H0; simplify_eq/=; [done|].
  destruct (step t a st) as [st1|] eqn:Es; [|done].
  apply (IH _ _ He). intros Hc. destruct a as [|i|]; simpl in Es.
  - unfold waiter_step in Es.
    destruct (waiter st) as [[|k]| |]; simplify_eq/=; try by apply H0.
    + destruct (buf st); simplify_eq/=. by apply H0.
    + destruct (cancel t); simplify_eq/=; [|by apply H0].
      apply H0. by destruct (cause st).
  - unfold helper_step in Es. destruct (helpers st !! i) as [h|]; [|done].
    destruct h as [f|f|f| |[|k]|]; simplify_eq/=; try by apply H0.
    + case_bool_decide; simplify_eq/=. by apply H0.
    + destruct (cause st); simplify_eq/=; by apply H0.
    + case_bool_decide; simplify_eq/=. by apply H0.
  - unfold timer_step in Es. destruct (cause st); [|done..].
    by destruct (0 <? timeout t)%Z.
Qed.

(** From a state in which the deadline has fired, the caller of [Wait] and
    the deadline closure alone bring [Wait] out of its receive loop. *)
Lemma deadline_release t j : ∀ m st h,
  wellStarted t → cancel t = true → Inv t st →
  cause st = DeadlineExceeded →
  helpers st !! j = Some h → isCtxHelper h = 1 →
  waiterWeight (waiter st) + ctxWeight (length (goroutine t)) h ≤ m →
  ∃ sched' st',
    Forall (λ a, a = ActWaiter ∨ a = ActHelper j) sched'
    ∧ exec t sched' st = Some st'
    ∧ (∀ k, waiter st' ≠ WRecv k).
Proof.
  induction m as [|m IH]; intros st h Hws Hcan HI Hc Hj Hh Hm.
  { destruct (waiter st) eqn:Ew; simpl in Hm; try lia;
      exists [], st; (split; [constructor|]); (split; [done|]);
      intros k; by rewrite Ew. }
  pose proof (waitCount_wellStarted _ Hws) as Hwc. rewrite Hcan in Hwc.
  destruct (waiter st) as [[|k]| |] eqn:Ew.
  - exists [ActWaiter]. eexists. split; [by repeat constructor|].
    simpl. unfold waiter_step. rewrite Ew. split; [done|]. by intros k.
  - destruct (buf st) as [|s b] eqn:Eb.
    + (* nothing to receive: the deadline closure moves *)
      pose proof HI as [Hcap Hlen Hctx Hle Hcount Hwait Hnd Hcn Hdr].
      rewrite Ew in Hwait. rewrite Eb in Hcount. simpl in Hcount.
      assert (∃ st1 h1, step t (ActHelper j) st = Some st1
                ∧ helpers st1 !! j = Some h1 ∧ isCtxHelper h1 = 1
                ∧ waiter st1 = waiter st ∧ cause st1 = cause st
                ∧ ctxWeight (length (goroutine t)) h1
                  < ctxWeight (length (goroutine t)) h)
        as (st1 & h1 & Hs & Hj1 & Hh1 & Hw1 & Hc1 & Hlt).
      { assert (j < length (helpers st)) by (by eapply lookup_lt_Some).
        simpl. unfold helper_step. rewrite Hj.
        destruct h as [f|f|f| |[|k']|]; simpl in Hh; try lia.
        - rewrite Hc. eexists _, _. split; [done|]. simpl.
          rewrite list_lookup_insert_eq by done. repeat split; simpl; lia.
        - eexists _, _. split; [done|]. simpl.
          rewrite list_lookup_insert_eq by done. repeat split; simpl; lia.
        - rewrite bool_decide_eq_true_2 by (rewrite Eb; simpl; lia).
          eexists _, _. split; [done|]. simpl.
          rewrite list_lookup_insert_eq by done. repeat split; simpl; lia.
        - pose proof (sum_list_with_ge_at (sendsOf (length (goroutine t)))
                        _ _ _ Hj) as Hge.
          simpl in Hge. lia. }
      destruct (IH st1 h1) as (sched' & st' & Hall & He & Hk); try done.
      * by eapply join_step_Inv.
      * congruence.
      * rewrite Hw1, Ew. simpl in *. lia.
      * exists (ActHelper j :: sched'), st'. split; [constructor; eauto|].
        simpl in *. by rewrite Hs.
    + (* one receive *)
      assert (step t ActWaiter st
              = Some (mkState (WRecv k) (helpers st) b (cap st) (cause st)
                              (trace st ++ [JRecv s]))) as Hs.
      { simpl. unfold waiter_step. by rewrite Ew, Eb. }
      destruct (IH _ h Hws Hcan (join_step_Inv _ _ _ _ Hws HI Hs))
        as (sched' & st' & Hall & He & Hk); try done.
      * simpl in *. lia.
      * exists (ActWaiter :: sched'), st'. split; [constructor; eauto|].
        cbn [exec]. by rewrite Hs.
  - exists [], st. split; [constructor|]. split; [done|].
    intros k. by rewrite Ew.
  - exists [], st. split; [constructor|]. split; [done|].
    intros k. by rewrite Ew.
Qed.

Lemma step_ctx_kind t a j st st' h :
  step t a st = Some st' →
  helpers st !! j = Some h → isCtxHelper h = 1 →
  ∃ h', helpers st' !! j = Some h' ∧ isCtxHelper h' = 1.
Proof.
  intros Hs Hj Hh. destruct a as [|i|]; simpl in Hs.
  - unfold waiter_step in Hs.
    destruct (waiter st) as [[|k]| |]; simplify_eq/=; eauto.
    + destruct (buf st); simplify_eq/=; eauto.
    + destruct (cancel t); simplify_eq/=; eauto.
  - unfold helper_step in Hs.
    destruct (helpers st !! i) as [hi|] eqn:Hi; [|done].
    assert (Hins : ∀ y, isCtxHelper y = isCtxHelper hi →
              ∃ h', <[i := y]> (helpers st) !! j = Some h'
                    ∧ isCtxHelper h' = 1).
    { intros y Hy. destruct (decide (i = j)) as [->|Hne].
      - exists y. rewrite list_lookup_insert_eq by (by eapply lookup_lt_Some).
        split; [done|]. simplify_eq. congruence.
      - exists h. by rewrite list_lookup_insert_ne. }
    destruct hi as [f|f|f| |[|k]|]; simplify_eq/=; try by apply Hins.
    + case_bool_decide; simplify_eq/=. by apply Hins.
    + destruct (cause st); simplify_eq/=; by apply Hins.
    + case_bool_decide; simplify_eq/=. by apply Hins.
  - unfold timer_step in Hs. destruct (cause st); [|done..].
    destruct (0 <? timeout t)%Z; simplify_eq/=; eauto.
Qed.

Lemma exec_ctx_kind t j sched : ∀ st st' h,
  exec t sched st = Some st' →
  helpers st !! j = Some h → isCtxHelper h = 1 →
  ∃ h', helpers st' !! j = Some h' ∧ isCtxHelper h' = 1.
Proof.
  induction sched as [|a sched IH]; intros st st' h He Hj Hh; simplify_eq/=;
    [eauto|].
  destruct (step t a st) as [st1|] eqn:Es; [|done].
  destruct (step_ctx_kind _ _ _ _ _ _ Es Hj Hh) as (h1 & Hj1 & Hh1). eauto.
Qed.

Lemma join_exec_app t sched1 sched2 st :
  exec t (sched1 ++ sched2) st = exec t sched1 st ≫= exec t sched2.
Proof.
  revert st. induction sched1 as [|a s1 IH]; intros st; simpl; [done|].
  destruct (step t a st); simpl; [apply IH | done].
Qed.

(** X8: once the deadline has fired, [Wait] gets out of its receive loop
    on the signals of the deadline closure alone, whether or not a stream
    is ever closed. *)
Theorem deadline_releases_Wait
    (env : Env) (t t' : T) (evs : list Command.Event)
    (sched : list Action) (st : State) :
  fresh t → Start env t = (None, t', evs) →
  exec t' sched (init t') = Some st →
  cause st = DeadlineExceeded →
  ∃ j sched' st',
    helpers (init t') !! j = Some HSelect
    ∧ Forall (λ a, a = ActWaiter ∨ a = ActHelper j) sched'
    ∧ exec t' (sched ++ sched') (init t') = Some st'
    ∧ (∀ k, waiter st' ≠ WRecv k).
Proof.
  intros Hf HS He Hc.
  pose proof (Start_wellStarted _ _ _ _ Hf HS) as Hws.
  pose proof (join_exec_Inv _ _ _ _ Hws (join_init_Inv _ Hws) He) as HI.
  assert (cancel t' = true) as Hcan.
  { destruct Hws as (_ & _ & ->).
    by apply (exec_deadline_configured _ _ _ _ He). }
  pose proof (inv_ctx _ _ (join_init_Inv _ Hws)) as Hctx0. rewrite Hcan in Hctx0.
  destruct (sum_list_with_pos isCtxHelper (helpers (init t')))
    as (j & h0 & Hj0 & Hh0); [lia|].
  assert (h0 = HSelect) as ->.
  { apply (inv_notdone _ _ (join_init_Inv _ Hws) eq_refl _ _ Hj0).
    destruct h0; simpl in *; lia. }
  destruct (exec_ctx_kind _ _ _ _ _ _ He Hj0 eq_refl) as (h & Hj & Hh).
  destruct (deadline_release t' j _ st h Hws Hcan HI Hc Hj Hh (le_n _))
    as (sched' & st' & Hall & He' & Hk).
  exists j, sched', st'. split; [done|]. split; [done|]. split; [|done].
  by rewrite join_exec_app, He.
Qed.

Lemma deadline_releases_Wait_witness :
  ∃ j sched' st',
    helpers (init (Start ok_env deadline_cmd).1.2) !! j = Some HSelect
    ∧ Forall (λ a, a = ActWaiter ∨ a = ActHelper j) sched'
    ∧ exec (Start ok_env deadline_cmd).1.2 ([ActTimer] ++ sched')
           (init (Start ok_env deadline_cmd).1.2) = Some st'
    ∧ (∀ k, waiter st' ≠ WRecv k).
Proof.
  apply (deadline_releases_Wait ok_env deadline_cmd
           (Start ok_env deadline_cmd).1.2 (Start ok_env deadline_cmd).2
           [ActTimer]
           (mkState (WRecv 2)
              [HScanning StdoutTask; HScanning StderrTask; HSelect] [] 3
              DeadlineExceeded [JDeadline])).
  - by vm_compute.
  - reflexivity.
  - vm_compute. reflexivity.
  - reflexivity.
Defined.

End JoinFacts.

(** ** Resource action orchestrator: outcomes *)

Module OrchestratorTraceFacts.
Import Orchestrator OrchestratorTrace OrchestratorFacts.

Section WithWorld.

Context {World : Type}.
Implicit Types (rs : list (Driver World)) (st : State World) (w : World).
Implicit Types (tr : list Event) (sched : list nat).

Lemma omap_insert_drop {A B} (g : A → option B) (l : list A) i x y z :
  l !! i = Some x → g x = Some z → g y = None →
  omap g l ≡ₚ z :: omap g (<[i := y]> l).
Proof.
  revert i. induction l as [|a l IH]; intros [|i] Hi Hx Hy; simplify_eq/=.
  - by rewrite ?Hx, ?Hy.
  - specialize (IH i Hi Hx Hy).
    destruct (g a); rewrite IH; [apply Permutation_swap | done].
Qed.

Lemma aborted_snoc tr e :
  aborted (tr ++ [e])
  = aborted tr ++ match e with EvAbort rid _ => [rid] | _ => [] end.
Proof. unfold aborted. rewrite omap_app. by destruct e. Qed.

Lemma aborters_cons (r : Driver World) rs :
  aborters (r :: rs)
  = match Abort r with Some _ => [RID r] | None => [] end ++ aborters rs.
Proof.
  unfold aborters. destruct (Abort r) eqn:E.
  - rewrite filter_cons_True; [done | by rewrite E].
  - rewrite filter_cons_False; [done | rewrite E; by intros []].
Qed.

Lemma starts_app tr1 tr2 :
  Forall (λ e, isStart e = false) tr1 → Forall (λ e, isStart e = true) tr2 →
  starts (tr1 ++ tr2) = tr2.
Proof.
  intros H1 H2. unfold starts. rewrite filter_app.
  assert (filter (λ e, isStart e = true) tr1 = []) as ->.
  { induction H1 as [|e tr1 He _ IH]; [done|].
    rewrite filter_cons_False; [done | by rewrite He]. }
  induction H2 as [|e tr2 He _ IH]; [done|].
  rewrite app_nil_l in *. by rewrite filter_cons_True, IH.
Qed.

Lemma init_abortInv rs w : abortInv rs w (init rs w).
Proof. by split. Qed.

Lemma step_abortInv rs w tid st st' :
  abortInv rs w st → step rs tid st = Some st' → abortInv rs w st'.
Proof.
  intros [Hperm Hworld] Hstep. destruct tid as [|i]; simpl in Hstep.
  - unfold main_step in Hstep.
    destruct (main st) as [[|r todo]|  |[|k] ret|err] eqn:Em;
      simplify_eq/=; try (by split).
    + split; [|done]. simpl. rewrite <- Hperm, aborters_cons, omap_app.
      unfold pendingAbort at 2. simpl.
      destruct (Abort r); simpl; by rewrite <- ?app_assoc, ?app_nil_r.
    + case_bool_decide; simplify_eq/=. by split.
    + destruct ret; simplify_eq/=; [by split|].
      destruct (q st); simplify_eq/=. split; simpl.
      * by rewrite aborted_snoc, app_nil_r.
      * by rewrite aborted_snoc, app_nil_r.
  - unfold worker_step in Hstep.
    destruct (workers st !! i) as [wk|] eqn:Hi; [|done].
    destruct wk as [r|b| |]; [| | |done].
    + destruct (Abort r) as [f|] eqn:Ea.
      * destruct (f (world st)) as [b w1]. simplify_eq/=. split; simpl.
        -- rewrite aborted_snoc, <- Hperm.
           rewrite (omap_insert_drop pendingAbort _ _ _ (WSend b) (RID r) Hi);
             [|by simpl; rewrite Ea | done].
           by rewrite <- app_assoc.
        -- rewrite aborted_snoc. by destruct (aborted (trace st)).
      * simplify_eq/=. split; simpl; [|done].
        erewrite omap_insert_same; [done | done |]. simpl. by rewrite Ea.
    + case_bool_decide; simplify_eq/=. split; simpl.
      * rewrite aborted_snoc, app_nil_r. by erewrite omap_insert_same.
      * by rewrite aborted_snoc, app_nil_r.
    + simplify_eq/=. split; simpl; [|done]. by erewrite omap_insert_same.
Qed.

Lemma exec_abortInv rs w sched : ∀ st st',
  abortInv rs w st → exec rs sched st = Some st' → abortInv rs w st'.
Proof.
  induction sched as [|tid sched IH]; intros st st' HI He; simplify_eq/=; [done|].
  destruct (step rs tid st) as [st1|] eqn:Es; [|done].
  eauto using step_abortInv.
Qed.

Lemma all_exited_no_pending (ws : list (Worker (World:=World))) :
  sum_list_with active ws = 0 → omap pendingAbort ws = [].
Proof.
  induction ws as [|wk ws IH]; [done|]. simpl. intros Hs.
  destruct wk; simpl in *; try lia. by apply IH.
Qed.

(** X9: when [abortStart] returns, [Abort] has been called exactly once on
    each listed resource that implements it and on no other; if none
    implements it the check returns nil and has not touched the drivers'
    world. *)
Theorem Abort_called_once_per_aborter rs w sched res w' tr :
  abortStart sched rs w = Some (res, w', tr) →
  aborted tr ≡ₚ aborters rs
  ∧ (aborters rs = [] → res = None ∧ w' = w).
Proof.
  unfold abortStart. intros HA.
  destruct (exec rs sched (init rs w)) as [st|] eqn:He; [|done].
  pose proof (exec_Inv _ _ _ _ (init_Inv rs w) He)
    as [Hcap Hwg Hsent Hfifo Hab Hns Hm].
  pose proof (exec_abortInv _ _ _ _ _ (init_abortInv rs w) He)
    as [Hperm Hworld].
  unfold mainInv in Hm.
  destruct (main st) as [| | |err] eqn:Em; try done. simplify_eq.
  destruct Hm as (Hlen & Hz & Hr & Herr).
  rewrite (all_exited_no_pending _ Hz) in Hperm. simpl in Hperm.
  rewrite app_nil_r in Hperm. split; [done|].
  intros Hnone. rewrite Hnone in Hperm. apply Permutation_nil_r in Hperm.
  split; [|by apply Hworld].
  rewrite (all_exited_not_sending _ Hz), Nat.add_0_r in Hab.
  case_bool_decide as Hp; [|done]. exfalso.
  assert (0 < nAbortTrue (trace st)) as Hpos by lia.
  apply nAbortTrue_pos in Hpos as [rid Hin].
  assert (rid ∈ aborted (trace st)) as Hin'.
  { unfold aborted. apply list_elem_of_omap. by exists (EvAbort rid true). }
  rewrite Hperm in Hin'. by apply elem_of_nil in Hin'.
Qed.

Lemma masterStart_cases rs : ∀ w,
  (∃ w', startAll rs w = Some w' ∧ masterStart rs w = (None, w', started rs))
  ∨ (∃ pre r post wi err w',
       rs = pre ++ r :: post ∧ startAll pre w = Some wi
       ∧ Start r wi = (Some err, w')
       ∧ masterStart rs w
         = (Some err, w', started pre ++ [EvStart (RID r) (Some err)])).
Proof.
  induction rs as [|r rs IH]; intros w.
  - left. by exists w.
  - simpl. destruct (Start r w) as [[err|] w1] eqn:Er.
    + right. exists [], r, rs, w, err, w1. by rewrite Er.
    + destruct (IH w1) as [(w' & Hall & Hm)|
                           (pre & r' & post & wi & err & w' & -> & Hall & Hr & Hm)].
      * left. exists w'. by rewrite Hm.
      * right. exists (r :: pre), r', post, wi, err, w'.
        simpl. by rewrite Er, Hm.
Qed.

(** X10: a run of [lockedStart] ends in one of three ways: nil, with every
    listed resource started, in order, and no [Abort] having vetoed; the
    error "abort start", with a veto and nothing started; or the error of
    the first [Start] that failed, with exactly the resources up to that
    one started, in order, and no veto. *)
Theorem lockedStart_outcomes rs w sched res w' tr :
  lockedStart sched rs w = Some (res, w', tr) →
  (res = None ∧ starts tr = started rs ∧ ∀ rid, EvAbort rid true ∉ tr)
  ∨ (res = Some errAbortStart ∧ starts tr = []
     ∧ ∃ rid, EvAbort rid true ∈ tr)
  ∨ (∃ pre r post err,
       rs = pre ++ r :: post ∧ res = Some err
       ∧ starts tr = started pre ++ [EvStart (RID r) (Some err)]
       ∧ ∀ rid, EvAbort rid true ∉ tr).
Proof.
  unfold lockedStart, abortStart. intros HL.
  destruct (exec rs sched (init rs w)) as [st|] eqn:He; [|done].
  pose proof (exec_Inv _ _ _ _ (init_Inv rs w) He)
    as [Hcap Hwg Hsent Hfifo Hab Hns Hm].
  unfold mainInv in Hm.
  destruct (main st) as [| | |err] eqn:Em; try done.
  destruct Hm as (Hlen & Hz & Hr & Herr).
  rewrite (all_exited_not_sending _ Hz), Nat.add_0_r in Hab.
  case_bool_decide as Hp; subst err.
  - (* vetoed *)
    simplify_eq. right; left. split; [done|]. split.
    + rewrite <- (app_nil_r (trace st)). by apply starts_app.
    + apply nAbortTrue_pos. lia.
  - (* not vetoed *)
    assert (Hnoveto : ∀ tr2, Forall (λ e, isStart e = true) tr2 →
              ∀ rid, EvAbort rid true ∉ trace st ++ tr2).
    { intros tr2 H2 rid [Hin|Hin]%elem_of_app.
      - assert (0 < nAbortTrue (trace st)) by (apply nAbortTrue_pos; eauto).
        lia.
      - eapply Forall_forall in H2; [|done]. done. }
    pose proof (masterStart_only_starts rs (world st)) as Hst.
    destruct (masterStart_cases rs (world st))
      as [(w2 & Hall & Hms)|
          (pre & r & post & wi & err & w2 & -> & Hall & Hrs & Hms)];
      rewrite Hms in HL, Hst; simpl in HL, Hst; simplify_eq.
    + left. rewrite app_nil_r. split; [done|]. split; [|by apply Hnoveto].
      by apply starts_app.
    + right; right. exists pre, r, post, err. split; [done|]. split; [done|].
      split; [|by apply Hnoveto]. by apply starts_app.
Qed.

End WithWorld.

Lemma Abort_called_once_per_aborter_witness :
  aborted [EvAbort "app#2" false; EvAbort "app#1" true; EvVote true;
           EvVote false; EvVote false; EvRecv true]
  ≡ₚ ["app#1"; "app#2"]%string.
Proof.
  assert (abortStart [0; 0; 0; 0; 3; 2; 2; 3; 1; 1; 1; 2; 3; 0; 0; 0; 0; 0]
            [disk0; app1; app2] 0%nat
          = Some (Some errAbortStart, 0%nat,
                  [EvAbort "app#2" false; EvAbort "app#1" true; EvVote true;
                   EvVote false; EvVote false; EvRecv true])) as HA
    by (vm_compute; reflexivity).
  exact (proj1 (Abort_called_once_per_aborter _ _ _ _ _ _ HA)).
Defined.

Lemma lockedStart_outcomes_witness :
  ∃ pre r post err,
    [disk0; app2] = pre ++ r :: post
    ∧ starts [EvAbort "app#2" false; EvVote false; EvVote false;
              EvRecv false; EvRecv false; EvStart "disk#0" None;
              EvStart "app#2" (Some "exit status 1"%string)]
      = started pre ++ [EvStart (RID r) (Some err)].
Proof.
  assert (lockedStart [0; 0; 0; 2; 1; 1; 1; 2; 2; 0; 0; 0; 0] [disk0; app2] 0%nat
          = Some (Some "exit status 1"%string, 1%nat,
                  [EvAbort "app#2" false; EvVote false; EvVote false;
                   EvRecv false; EvRecv false; EvStart "disk#0" None;
                   EvStart "app#2" (Some "exit status 1"%string)])) as HL
    by (vm_compute; reflexivity).
  destruct (lockedStart_outcomes _ _ _ _ _ _ HL)
    as [(Hres & _)|[(_ & Hs & _)|(pre & r & post & err & Hrs & _ & Hs & _)]].
  - discriminate Hres.
  - vm_compute in Hs. discriminate Hs.
  - exists pre, r, post, err. split; [exact Hrs | exact Hs].
Defined.

End OrchestratorTraceFacts.

(** ** Selection dispatcher: which paths get a result *)

Module DispatcherPathsFacts.
Import Dispatcher DispatcherFacts.

Section WithWorld.

Context {World Path Arg : Type}.
Context (NewObject : Path → option (@Object World Path Arg)).
Context (unmarshal : list Byte.byte → slice Path → slice Path).


(** X12: without a requester ([t.API.Requester == nil]) [Expand] returns
    the empty, non-nil list without any request, and [Action] returns no
    result and calls nothing. *)
Theorem Expand_without_requester t :
  API t = None →
  Expand unmarshal t = make_slice []
  ∧ (∀ sched action args w rs st,
       Action NewObject unmarshal sched t action args w = Some (rs, st) →
       rs = make_slice [] ∧ calls (trace st) = [] ∧ workers st = []).
Proof.
  intros Hapi.
  assert (Expand unmarshal t = make_slice []) as HE.
  { unfold Expand, daemonExpand. by rewrite Hapi. }
  split; [done|]. intros sched action args w rs st HA.
  apply Action_inv in HA as (He & Em & HI & Hok).
  destruct (Action_returns _ _ _ _ _ HI Hok Em) as (Hw & Hp & -> & Hr & _).
  rewrite HE in Hw, Hp. simpl in Hw, Hp.
  apply Permutation_nil_r, fmap_nil_inv in Hp. rewrite Hp in Hr.
  apply Permutation_nil_r in Hr. rewrite Hr.
  split; [done|]. split; [done|]. by apply nil_length_inv.
Qed.

End WithWorld.


Lemma Expand_without_requester_witness :
  Expand sampleUnmarshal (mkSelection "*" None) = make_slice [].
Proof.
  exact (proj1 (Expand_without_requester sampleNewObject sampleUnmarshal
                  (mkSelection "*" None) eq_refl)).
Defined.

End DispatcherPathsFacts.

(** ** LVM2 logical volumes *)

Module LVM2Facts.
Import Stdlib.Strings.Ascii.
Import LVM2.

Section WithJSON.

Context (unmarshal : slice Byte.byte → error + LVData).

Lemma Show_shape t r :
  (∃ info, Show unmarshal t r = (Some info, None))
  ∨ Show unmarshal t r = (None, Some (ErrExistAt (FQN t)))
  ∨ (∃ msg, Show unmarshal t r = (None, Some (ErrOther msg))).
Proof.
  unfold Show. destruct (run_err r) as [err|].
  - case_bool_decide; eauto.
  - destruct (unmarshal _) as [err|data]; [eauto|].
    destruct data as [|[|info [|]] [|]]; eauto.
Qed.

Lemma Attr_short attrs i :
  String.length attrs ≤ i → Attr attrs i = " "%char.
Proof. intros Hl. unfold Attr. rewrite bool_decide_true; [done | lia]. Qed.

Lemma get_length i : ∀ s c, String.get i s = Some c → i < String.length s.
Proof.
  induction i as [|i IH]; intros [|a s] c H; simpl in *; try done; [lia|].
  apply IH in H. lia.
Qed.

Lemma get_is_Some i : ∀ s, i < String.length s → is_Some (String.get i s).
Proof.
  induction i as [|i IH]; intros [|a s] H; simpl in *; try lia; [eauto|].
  apply IH. lia.
Qed.

Lemma Attr_get attrs i c :
  c ≠ " "%char → Attr attrs i = c → String.get i attrs = Some c.
Proof.
  intros Hc. unfold Attr. case_bool_decide as Hl; [congruence|].
  destruct (get_is_Some i attrs) as [c' Hg]; [lia|]. rewrite Hg. congruence.
Qed.

(** X13: a volume reported active exists: when [IsActive] says true on the
    outcome of an [lvs] run, [Exists] says true on the same outcome, the
    run itself succeeded, its output decoded to exactly one report of one
    volume, and the fifth byte (index 4) of that volume's attributes is
    the letter a. *)
Theorem IsActive_implies_Exists t r :
  IsActive unmarshal t r = (true, None) →
  Exists unmarshal t r = (true, None)
  ∧ run_err r = None
  ∧ ∃ info,
      unmarshal (Command.Stdout (cmd r)) = inr [[info]]
      ∧ Show unmarshal t r = (Some info, None)
      ∧ String.get 4 (LVAttr info) = Some "a"%char.
Proof.
  intros Ha.
  destruct (Show_shape t r) as [[info Hs] | [Hs | [msg Hs]]];
    unfold IsActive, Attrs, Exists in *; rewrite Hs in *; cbn in Ha |- *.
  - injection Ha as Ha. apply bool_decide_eq_true in Ha.
    apply Attr_get in Ha; [|done]. split; [done|].
    unfold Show in Hs. destruct (run_err r) as [err|].
    { by case_bool_decide. }
    split; [done|]. exists info.
    destruct (unmarshal _) as [err|data]; [done|].
    destruct data as [|[|info' [|]] [|]]; by simplify_eq.
  - by vm_compute in Ha.
  - done.
Qed.

(** X14: a missing volume is an absence, not an error: when the [lvs] run
    fails with exit code 5, or succeeds with an output that decodes to
    anything but one report of one volume, [Show] returns the not-exist
    error naming vg/lv, and [Exists], [IsActive] and [Attrs] all answer
    false or empty with a nil error. *)
Theorem missing_volume_is_not_an_error t r :
  (∃ err, run_err r = Some err ∧ exitCode r = 5%Z)
  ∨ (run_err r = None
     ∧ ∃ data, unmarshal (Command.Stdout (cmd r)) = inr data
               ∧ ∀ info, data ≠ [[info]]) →
  Show unmarshal t r = (None, Some (ErrExistAt (VGName t +:+ "/" +:+ LVName t)))
  ∧ Exists unmarshal t r = (false, None)
  ∧ Attrs unmarshal t r = (EmptyString, None)
  ∧ IsActive unmarshal t r = (false, None).
Proof.
  intros H.
  assert (Show unmarshal t r = (None, Some (ErrExistAt (FQN t)))) as Hs.
  { unfold Show. destruct H as [(err & -> & ->)|(-> & data & -> & Hd)]; [done|].
    destruct data as [|[|info [|]] [|]]; try done. by destruct (Hd info). }
  split; [done|]. unfold IsActive, Attrs, Exists. rewrite Hs. cbn.
  split; [done|]. split; [done|]. f_equal.
Qed.

(** No answer of [Exists] or [IsActive] is true together with an error, and
    an error other than not-exist is passed on by both. *)
Lemma errors_passed_on t r msg :
  Show unmarshal t r = (None, Some (ErrOther msg)) →
  Exists unmarshal t r = (false, Some (ErrOther msg))
  ∧ IsActive unmarshal t r = (false, Some (ErrOther msg)).
Proof. intros Hs. unfold IsActive, Attrs, Exists. by rewrite Hs. Qed.

End WithJSON.

Lemma IsActive_implies_Exists_witness :
  Exists sampleUnmarshal sampleLV sampleRun = (true, None)
  ∧ run_err sampleRun = None
  ∧ ∃ info,
      sampleUnmarshal (Command.Stdout (cmd sampleRun)) = inr [[info]]
      ∧ Show sampleUnmarshal sampleLV sampleRun = (Some info, None)
      ∧ String.get 4 (LVAttr info) = Some "a"%char.
Proof.
  apply (IsActive_implies_Exists sampleUnmarshal sampleLV sampleRun).
  by vm_compute.
Defined.

Lemma missing_volume_is_not_an_error_witness :
  Show sampleUnmarshal sampleLV missingRun
    = (None, Some (ErrExistAt (VGName sampleLV +:+ "/" +:+ LVName sampleLV)))
  ∧ Exists sampleUnmarshal sampleLV missingRun = (false, None)
  ∧ Attrs sampleUnmarshal sampleLV missingRun = (EmptyString, None)
  ∧ IsActive sampleUnmarshal sampleLV missingRun = (false, None).
Proof.
  apply (missing_volume_is_not_an_error sampleUnmarshal sampleLV missingRun).
  left. exists "exit status 5". split; by vm_compute.
Defined.

End LVM2Facts.

(** ** Setting keywords *)

Module BaseSetFacts.
Import Stdlib.Strings.Ascii.
Import BaseSet.

Section WithConfig.

Context {Config KeyOp : Type}.
Context (Parse : string → option KeyOp).
Context (configSet : KeyOp → Config → option error * Config).
Context (configCommit : Config → option error * Config).

Local Abbreviation setLoop := (setLoop Parse configSet).
Local Abbreviation allSet := (allSet Parse configSet).
Local Abbreviation SetKeywords := (SetKeywords Parse configSet configCommit).

Lemma setLoop_allSet kws : ∀ cfg n,
  match allSet kws cfg with
  | Some cfg1 =>
      ∃ tr, setLoop kws cfg n = (inr (n + length kws), cfg1, tr)
            ∧ length tr = length kws
            ∧ filter (λ e, isCommit e = true) tr = []
  | None =>
      ∃ err cfg1 tr, setLoop kws cfg n = (inl err, cfg1, tr)
            ∧ length tr ≤ length kws
            ∧ filter (λ e, isCommit e = true) tr = []
  end.
Proof.
  induction kws as [|kw kws IH]; intros cfg n.
  - cbn. exists []. by rewrite Nat.add_0_r.
  - cbn [BaseSet.allSet BaseSet.setLoop]. destruct (Parse kw) as [op|].
    + destruct (configSet op cfg) as [[err|] cfg1].
      * eexists _, _, _. split; [done|]. split; [cbn; lia | done].
      * specialize (IH cfg1 (S n)). destruct (allSet kws cfg1) as [cfg2|].
        -- destruct IH as (tr & -> & Hl & Hf). eexists. split; [|split].
           ++ f_equal. f_equal. f_equal. cbn. lia.
           ++ cbn. lia.
           ++ rewrite filter_cons_False; [done|]. by cbn.
        -- destruct IH as (err & cfg2 & tr & -> & Hl & Hf).
           eexists _, _, _. split; [done|]. split; [cbn; lia|].
           rewrite filter_cons_False; [done|]. by cbn.
    + eexists _, _, _. split; [done|]. split; [cbn; lia | done].
Qed.

(** X15: [SetKeywords] commits exactly when there is at least one keyword
    and every keyword parsed and was set without error: then the commit
    is the last thing done, once, after one set per keyword, and its
    result is what is returned. Otherwise nothing is committed: with no
    keyword nil is returned and nothing is done; after a keyword that
    does not parse or a set that fails an error is returned. *)
Theorem SetKeywords_commits_iff_all_set kws cfg :
  match allSet kws cfg, kws with
  | Some cfg1, _ :: _ =>
      ∃ sets, SetKeywords kws cfg
                = ((configCommit cfg1).1, (configCommit cfg1).2,
                   sets ++ [EvCommit (configCommit cfg1).1])
              ∧ length sets = length kws
              ∧ filter (λ e, isCommit e = true) sets = []
  | Some _, [] => SetKeywords kws cfg = (None, cfg, [])
  | None, _ =>
      ∃ err cfg1 tr, SetKeywords kws cfg = (Some err, cfg1, tr)
              ∧ length tr ≤ length kws
              ∧ filter (λ e, isCommit e = true) tr = []
  end.
Proof.
  pose proof (setLoop_allSet kws cfg 0) as H. unfold BaseSet.SetKeywords.
  destruct (allSet kws cfg) as [cfg1|] eqn:Ea.
  - destruct H as (tr & -> & Hl & Hf). destruct kws as [|kw kws].
    + cbn in Ea. simplify_eq. by destruct tr.
    + rewrite bool_decide_true; [|cbn; lia].
      destruct (configCommit cfg1) as [err cfg2]. by exists tr.
  - destruct H as (err & cfg1 & tr & -> & Hl & Hf). by exists err, cfg1, tr.
Qed.

Lemma setLoop_invalid kw cfg1 : ∀ i kws cfg n,
  kws !! i = Some kw →
  Parse kw = None →
  allSet (take i kws) cfg = Some cfg1 →
  ∃ tr, setLoop kws cfg n = (inl ("invalid set expression: " +:+ kw), cfg1, tr)
        ∧ length tr = i
        ∧ filter (λ e, isCommit e = true) tr = [].
Proof.
  induction i as [|i IH]; intros [|k kws] cfg n Hi Hp Ha; try done.
  - cbn in Hi, Ha. simplify_eq. cbn [BaseSet.setLoop]. rewrite Hp. by exists [].
  - cbn in Hi. cbn [take BaseSet.allSet] in Ha. cbn [BaseSet.setLoop].
    destruct (Parse k) as [op|]; [|done].
    destruct (configSet op cfg) as [[err|] cfg2]; [done|].
    destruct (IH kws cfg2 (S n) Hi Hp Ha) as (tr & -> & Hl & Hf).
    eexists. split; [done|]. split; [cbn; lia|].
    rewrite filter_cons_False; [done|]. by cbn.
Qed.

(** X16: keywords are not validated up front: when the keyword at index i
    is the first that does not parse, and the i keywords before it were
    set without error, [SetKeywords] returns the error "invalid set
    expression: " followed by that keyword, after exactly i sets and no
    commit, and the configuration is left as those i sets made it. *)
Theorem invalid_expression_after_earlier_sets kws cfg i kw cfg1 :
  kws !! i = Some kw →
  Parse kw = None →
  allSet (take i kws) cfg = Some cfg1 →
  ∃ tr, SetKeywords kws cfg
          = (Some ("invalid set expression: " +:+ kw), cfg1, tr)
        ∧ length tr = i
        ∧ filter (λ e, isCommit e = true) tr = [].
Proof.
  intros Hi Hp Ha. unfold BaseSet.SetKeywords.
  destruct (setLoop_invalid kw cfg1 i kws cfg 0 Hi Hp Ha) as (tr & -> & Hl & Hf).
  by exists tr.
Qed.

End WithConfig.

Lemma invalid_expression_after_earlier_sets_witness :
  ∃ tr, SetKeywords sampleParse sampleSet sampleCommit ["a=1"; "bogus"; "b=2"] []
          = (Some ("invalid set expression: " +:+ "bogus"), [("a", "1")], tr)
        ∧ length tr = 1
        ∧ filter (λ e, isCommit e = true) tr = [].
Proof.
  apply (invalid_expression_after_earlier_sets sampleParse sampleSet sampleCommit
           ["a=1"; "bogus"; "b=2"] [] 1 "bogus" [("a", "1")]);
    by vm_compute.
Defined.

End BaseSetFacts.

(** ** Raw disk resource driver *)

Module ResDiskRawFacts.
Import ResDiskRaw.
Local Open Scope Z_scope.

(** X17: starting a block device agrees with its status, on the same
    answers of the system: a device reported up is left alone and nil is
    returned; a device reported in warning (there, with other numbers) is
    left alone and the mismatch is returned as an error; an undefined
    status (unreadable source) returns an error with nothing done; a
    device reported down is either there but unreadable, and left alone
    with nil returned, or missing, and then created with the numbers of
    the source, the removal being registered for rollback exactly when
    the creation succeeded. *)
Theorem createBlockDevice_agrees_with_status sys pr p :
  Dst pr = Some p →
  p ≠ EmptyString →
  match (statusCreateBlockDevice sys pr).1 with
  | Up => createBlockDevice sys p = (None, [])
  | Warn => ∃ a b c d, createBlockDevice sys p = (Some (ErrMismatch p a b c d), [])
  | Undef => ∃ err, createBlockDevice sys p = (Some err, [])
  | Down =>
      (dstExists sys = true ∧ createBlockDevice sys p = (None, []))
      ∨ (dstExists sys = false
         ∧ ∃ major minor,
             srcMajorMinor sys = inr (major, minor)
             ∧ createBlockDevice sys p
               = (mknod_err sys,
                  EvMknod p major minor
                  :: match mknod_err sys with
                     | None => [EvRegister (RbRemove p)]
                     | Some _ => []
                     end))
  | NotApplicable => False
  end.
Proof.
  intros Hd Hp. unfold statusCreateBlockDevice, createBlockDevice. rewrite Hd.
  rewrite bool_decide_false; [|done].
  destruct (srcMajorMinor sys) as [err|[major minor]]; cbn; [by eexists|].
  destruct (dstExists sys); cbn.
  - destruct (dstMajorMinor sys) as [err|[majorCur minorCur]]; cbn; [by left|].
    case_bool_decide; cbn; [done|]. by eexists _, _, _, _.
  - right. split; [done|]. exists major, minor. split; [done|].
    by destruct (mknod_err sys).
Qed.

Lemma createBlockDevice_agrees_with_status_witness :
  match (statusCreateBlockDevice missingSys samplePair).1 with
  | Up => createBlockDevice missingSys "/dev/oradata1" = (None, [])
  | Warn => ∃ a b c d, createBlockDevice missingSys "/dev/oradata1"
                       = (Some (ErrMismatch "/dev/oradata1" a b c d), [])
  | Undef => ∃ err, createBlockDevice missingSys "/dev/oradata1" = (Some err, [])
  | Down =>
      (dstExists missingSys = true
       ∧ createBlockDevice missingSys "/dev/oradata1" = (None, []))
      ∨ (dstExists missingSys = false
         ∧ ∃ major minor,
             srcMajorMinor missingSys = inr (major, minor)
             ∧ createBlockDevice missingSys "/dev/oradata1"
               = (mknod_err missingSys,
                  EvMknod "/dev/oradata1" major minor
                  :: match mknod_err missingSys with
                     | None => [EvRegister (RbRemove "/dev/oradata1")]
                     | Some _ => []
                     end))
  | NotApplicable => False
  end.
Proof.
  apply (createBlockDevice_agrees_with_status missingSys samplePair "/dev/oradata1");
    by vm_compute.
Defined.

Section WithAtoi.

Context (Atoi : string → Z).

(** X18: [setOwnership] with only one of the user and the group
    configured panics, having changed nothing, whenever the ownership of
    the file can be read and neither id read is -1: the side that is not
    configured compares the id read with -1, finds it different, and
    reads the name of the nil user or group for its log line. *)
Theorem setOwnership_one_sided_panics t sys p uid0 gid0 :
  ownership sys = inr (uid0, gid0) →
  uid0 ≠ -1 →
  gid0 ≠ -1 →
  (TUser t = None ∧ is_Some (TGroup t)) ∨ (is_Some (TUser t) ∧ TGroup t = None) →
  setOwnership Atoi t sys p = (Panics, []).
Proof.
  intros Ho Hu Hg H. unfold setOwnership, newUIDOf, newGIDOf, uid, gid. rewrite Ho.
  destruct H as [[-> [g ->]] | [[u ->] ->]].
  - by rewrite bool_decide_true.
  - rewrite (bool_decide_true (gid0 ≠ -1)); [|done]. by case_bool_decide.
Qed.

(** X19: with both the user and the group configured, [setOwnership]
    never panics; it changes nothing when the ownership read is the one
    configured; what it passes to chown is, for each side, the configured
    id when the id read differs from it and -1 otherwise; and the
    rollback it registers, only after a chown that succeeded, puts back
    the ownership read. *)
Theorem setOwnership_with_user_and_group t sys p u g uid0 gid0 :
  TUser t = Some u →
  TGroup t = Some g →
  ownership sys = inr (uid0, gid0) →
  ∃ res tr,
    setOwnership Atoi t sys p = (Returns res, tr)
    ∧ (uid0 = Atoi (Uid u) → gid0 = Atoi (Gid g) → res = None ∧ tr = [])
    ∧ (∀ p' u' g', (p', u', g') ∈ chowns tr →
         p' = p
         ∧ u' = (if bool_decide (uid0 ≠ Atoi (Uid u)) then Atoi (Uid u) else -1)
         ∧ g' = (if bool_decide (gid0 ≠ Atoi (Gid g)) then Atoi (Gid g) else -1)
         ∧ (u' ≠ -1 ∨ g' ≠ -1))
    ∧ (registered tr = []
       ∨ (registered tr = [RbChown p uid0 gid0]
          ∧ res = None ∧ chown_err sys = None ∧ length (chowns tr) = 1%nat)).
Proof.
  intros Hu Hg Ho. unfold setOwnership, newUIDOf, newGIDOf, uid, gid.
  rewrite Hu, Hg, Ho.
  set (nu := if bool_decide (uid0 ≠ Atoi (Uid u)) then Atoi (Uid u) else -1).
  set (ng := if bool_decide (gid0 ≠ Atoi (Gid g)) then Atoi (Gid g) else -1).
  assert ((if bool_decide (uid0 ≠ Atoi (Uid u))
           then Returns (Atoi (Uid u)) else Returns (-1)) = Returns nu) as ->.
  { unfold nu. by case_bool_decide. }
  assert ((if bool_decide (gid0 ≠ Atoi (Gid g))
           then Returns (Atoi (Gid g)) else Returns (-1)) = Returns ng) as ->.
  { unfold ng. by case_bool_decide. }
  case_bool_decide as Hn.
  - destruct (chown_err sys) as [err|] eqn:Ec; eexists _, _; (split; [done|]).
    + split; [|split; [|by left]].
      * intros -> ->. unfold nu, ng in Hn.
        rewrite !bool_decide_false in Hn by (intros ?; done). by destruct Hn.
      * intros p' u' g' Hin. cbn in Hin. apply list_elem_of_singleton in Hin.
        by simplify_eq.
    + split; [|split; [|by right]].
      * intros -> ->. unfold nu, ng in Hn.
        rewrite !bool_decide_false in Hn by (intros ?; done). by destruct Hn.
      * intros p' u' g' Hin. cbn in Hin. apply list_elem_of_singleton in Hin.
        by simplify_eq.
  - eexists _, _. split; [done|]. split; [done|]. split; [|by left].
    intros p' u' g' Hin. cbn in Hin. by apply elem_of_nil in Hin.
Qed.

(** X20: the status never looks at the group of a resource that has one:
    with a group configured, [checkOwnership] gives the same answer
    whatever group id the file has, and no issue at all when the user
    matches, while [setOwnership], on a file whose group id differs from
    the configured one, changes it. *)
Theorem checkOwnership_ignores_configured_group t sys1 sys2 p u g uid0 gid1 gid2 :
  TUser t = Some u →
  TGroup t = Some g →
  ownership sys1 = inr (uid0, gid1) →
  ownership sys2 = inr (uid0, gid2) →
  checkOwnership Atoi t sys1 p = checkOwnership Atoi t sys2 p
  ∧ (uid0 = Atoi (Uid u) → checkOwnership Atoi t sys1 p = Returns [])
  ∧ (uid0 = Atoi (Uid u) → gid1 ≠ Atoi (Gid g) → Atoi (Gid g) ≠ -1 →
     chowns (setOwnership Atoi t sys1 p).2 = [(p, -1, Atoi (Gid g))]).
Proof.
  intros Hu Hg Ho1 Ho2.
  unfold checkOwnership, userIssue, setOwnership, newUIDOf, newGIDOf, uid, gid.
  rewrite Hu, Hg, Ho1, Ho2. split; [done|]. split.
  - intros ->. by rewrite bool_decide_false by (intros ?; done).
  - intros -> Hne Hm. rewrite bool_decide_false by (intros ?; done).
    rewrite (bool_decide_true (gid1 ≠ _)) by done.
    rewrite bool_decide_true by (by right).
    by destruct (chown_err sys1).
Qed.

End WithAtoi.

Lemma setOwnership_one_sided_panics_witness :
  setOwnership sampleAtoi onlyGroupT presentSys "/dev/oradata1" = (Panics, []).
Proof.
  apply (setOwnership_one_sided_panics sampleAtoi onlyGroupT presentSys
           "/dev/oradata1" 0 0).
  - by vm_compute.
  - lia.
  - lia.
  - left. split; [by vm_compute | by eexists].
Defined.

Lemma setOwnership_with_user_and_group_witness :
  ∃ res tr,
    setOwnership sampleAtoi sampleT presentSys "/dev/oradata1" = (Returns res, tr)
    ∧ (0 = sampleAtoi "1000" → 0 = sampleAtoi "6" → res = None ∧ tr = [])
    ∧ (∀ p' u' g', (p', u', g') ∈ chowns tr →
         p' = "/dev/oradata1"%string
         ∧ u' = (if bool_decide (0 ≠ sampleAtoi "1000") then sampleAtoi "1000" else -1)
         ∧ g' = (if bool_decide (0 ≠ sampleAtoi "6") then sampleAtoi "6" else -1)
         ∧ (u' ≠ -1 ∨ g' ≠ -1))
    ∧ (registered tr = []
       ∨ (registered tr = [RbChown "/dev/oradata1" 0 0]
          ∧ res = None ∧ chown_err presentSys = None
          ∧ length (chowns tr) = 1%nat)).
Proof.
  apply (setOwnership_with_user_and_group sampleAtoi sampleT presentSys
           "/dev/oradata1" (mkUser "1000" "1000" "oracle") (mkGroup "6" "disk") 0 0);
    by vm_compute.
Defined.

Lemma checkOwnership_ignores_configured_group_witness :
  checkOwnership sampleAtoi sampleT presentSys "/dev/oradata1"
    = checkOwnership sampleAtoi sampleT otherSys "/dev/oradata1"
  ∧ (0 = sampleAtoi "1000" →
     checkOwnership sampleAtoi sampleT presentSys "/dev/oradata1" = Returns [])
  ∧ (0 = sampleAtoi "1000" → 0 ≠ sampleAtoi "6" → sampleAtoi "6" ≠ -1 →
     chowns (setOwnership sampleAtoi sampleT presentSys "/dev/oradata1").2
       = [("/dev/oradata1"%string, -1, sampleAtoi "6")]).
Proof.
  apply (checkOwnership_ignores_configured_group sampleAtoi sampleT presentSys
           otherSys "/dev/oradata1" (mkUser "1000" "1000" "oracle")
           (mkGroup "6" "disk") 0 0 0);
    by vm_compute.
Defined.

Section WithAtoiStart.

Context (Atoi : string → Z).

Lemma createBlockDevice_counts sys p :
  let '(res, tr) := createBlockDevice sys p in
  (res = None → length (registered tr) = length (changes tr))
  ∧ (length (registered tr) ≤ length (changes tr) ≤ length (registered tr) + 1)%nat.
Proof.
  unfold createBlockDevice.
  destruct (srcMajorMinor sys) as [err|[major minor]]; [by cbn; split; [|lia]|].
  destruct (dstExists sys).
  - destruct (dstMajorMinor sys) as [err|[majorCur minorCur]];
      [|case_bool_decide]; cbn; (split; [done | lia]).
  - destruct (mknod_err sys); cbn; (split; [done | lia]).
Qed.

Lemma setOwnership_counts t sys p :
  let '(res, tr) := setOwnership Atoi t sys p in
  (res = Returns None ∨ res = Panics → length (registered tr) = length (changes tr))
  ∧ (length (registered tr) ≤ length (changes tr) ≤ length (registered tr) + 1)%nat.
Proof.
  unfold setOwnership.
  assert (∀ r : Result (option Err),
    (r = Returns None ∨ r = Panics →
       length (registered []) = length (changes []))
    ∧ (length (registered []) ≤ length (changes [])
       ≤ length (registered []) + 1)%nat) as Hnil
    by (intros r; cbn; split; [done | lia]).
  destruct (TUser t), (TGroup t); try apply Hnil;
    (destruct (ownership sys) as [err|[uid0 gid0]]; [apply Hnil|]);
    (destruct (newUIDOf Atoi _ uid0); [|apply Hnil]);
    (destruct (newGIDOf Atoi _ gid0); [|apply Hnil]);
    (case_bool_decide; [|apply Hnil]);
    (destruct (chown_err sys); cbn; (split; [|lia]));
    intros [?|?]; done.
Qed.

Lemma setMode_counts t sys p :
  let '(res, tr) := setMode t sys p in
  (res = None → length (registered tr) = length (changes tr))
  ∧ (length (registered tr) ≤ length (changes tr) ≤ length (registered tr) + 1)%nat.
Proof.
  unfold setMode. destruct (Perm t) as [perm|]; [|by cbn; split; [|lia]].
  destruct (fileMode sys) as [err|cur]; [by cbn; split; [|lia]|].
  case_bool_decide; [by cbn; split; [|lia]|].
  destruct (chmod_err sys); cbn; (split; [done | lia]).
Qed.

Lemma registered_app tr1 tr2 :
  registered (tr1 ++ tr2) = registered tr1 ++ registered tr2.
Proof. apply omap_app. Qed.

Lemma changes_app tr1 tr2 : changes (tr1 ++ tr2) = changes tr1 ++ changes tr2.
Proof. apply omap_app. Qed.

(** X21: [startBlockDevice] registers a rollback for what it changed: on
    a pair with no target, or a target with an empty path, it does
    nothing and returns nil; when it returns nil, and when it panics,
    every call that changed the system (mknod, chown, chmod) has its
    rollback registered; when it returns an error, at most one call, the
    one that failed, has none. *)
Theorem startBlockDevice_registers_what_it_changed t sys pr :
  let '(res, tr) := startBlockDevice Atoi t sys pr in
  (Dst pr = None ∨ Dst pr = Some EmptyString → res = Returns None ∧ tr = [])
  ∧ (res = Returns None ∨ res = Panics →
     length (registered tr) = length (changes tr))
  ∧ (length (registered tr) ≤ length (changes tr) ≤ length (registered tr) + 1)%nat.
Proof.
  unfold startBlockDevice. destruct (Dst pr) as [p|]; [|by cbn; split; [|split; [|lia]]].
  case_bool_decide as Hp; [by cbn; split; [|split; [|lia]]|].
  pose proof (createBlockDevice_counts sys p) as H1.
  pose proof (setOwnership_counts t sys p) as H2.
  pose proof (setMode_counts t sys p) as H3.
  destruct (createBlockDevice sys p) as [[e1|] tr1].
  { destruct H1 as [_ H1]. split; [|split; [|done]].
    - intros [?|?]; by simplify_eq.
    - intros [?|?]; done. }
  destruct H1 as [H1 _]. specialize (H1 eq_refl).
  destruct (setOwnership Atoi t sys p) as [[[e2|]|] tr2].
  - destruct H2 as [_ H2]. rewrite registered_app, changes_app, !length_app.
    split; [|split; [|lia]].
    + intros [?|?]; by simplify_eq.
    + intros [?|?]; done.
  - destruct H2 as [H2 _]. specialize (H2 (or_introl eq_refl)).
    destruct (setMode t sys p) as [res3 tr3].
    rewrite !registered_app, !changes_app, !length_app.
    split; [|split; [|lia]].
    + intros [?|?]; by simplify_eq.
    + intros [?|?]; [|done]. simplify_eq. destruct H3 as [H3 _].
      specialize (H3 eq_refl). lia.
  - destruct H2 as [H2 _]. specialize (H2 (or_intror eq_refl)).
    rewrite registered_app, changes_app, !length_app.
    split; [|split; [|lia]].
    + intros [?|?]; by simplify_eq.
    + intros _. lia.
Qed.

End WithAtoiStart.

Lemma ModeType_no_perm : Z.land ModeType ModePerm = 0.
Proof. by vm_compute. Qed.

Lemma type_bits_no_perm m : PermOf (Z.land m ModeType) = 0.
Proof.
  unfold PermOf. by rewrite <- Z.land_assoc, ModeType_no_perm, Z.land_0_r.
Qed.

Lemma perm_no_type_bits perm :
  Z.land perm ModePerm = perm → Z.land perm ModeType = 0.
Proof.
  intros <-. rewrite <- Z.land_assoc, (Z.land_comm ModePerm), ModeType_no_perm.
  apply Z.land_0_r.
Qed.

(** X22: when [setMode] changes the mode of a file, the mode it sets has
    the configured permission bits and the type bits the file had, and
    the rollback it registers sets a mode with the type bits the file had
    and no permission bit: the permission bits the file had before are
    not put back. *)
Theorem setMode_rollback_clears_permissions t sys p perm currentMode :
  Perm t = Some perm →
  Z.land perm ModePerm = perm →
  fileMode sys = inr currentMode →
  PermOf currentMode ≠ perm →
  chmod_err sys = None →
  ∃ mode back,
    setMode t sys p = (None, [EvChmod p mode; EvRegister (RbChmod p back)])
    ∧ PermOf mode = perm
    ∧ Z.land mode ModeType = Z.land currentMode ModeType
    ∧ PermOf back = 0
    ∧ Z.land back ModeType = Z.land currentMode ModeType.
Proof.
  intros Hp Hperm Hm Hne Hc. unfold setMode. rewrite Hp, Hm, Hc.
  rewrite bool_decide_false by done. eexists _, _. split; [done|].
  split; [|split; [|split]].
  - unfold PermOf. rewrite Z.land_lor_distr_l.
    fold (PermOf (Z.land currentMode ModeType)).
    by rewrite type_bits_no_perm, Z.lor_0_l.
  - rewrite Z.land_lor_distr_l, (perm_no_type_bits perm Hperm), Z.lor_0_r.
    by rewrite <- Z.land_assoc, Z.land_diag.
  - apply type_bits_no_perm.
  - by rewrite <- Z.land_assoc, Z.land_diag.
Qed.

Lemma setMode_rollback_clears_permissions_witness :
  ∃ mode back,
    setMode sampleT presentSys "/dev/oradata1"
      = (None, [EvChmod "/dev/oradata1" mode;
                EvRegister (RbChmod "/dev/oradata1" back)])
    ∧ PermOf mode = 432
    ∧ Z.land mode ModeType = Z.land (Z.lor ModeDevice 416) ModeType
    ∧ PermOf back = 0
    ∧ Z.land back ModeType = Z.land (Z.lor ModeDevice 416) ModeType.
Proof.
  apply (setMode_rollback_clears_permissions sampleT presentSys "/dev/oradata1"
           432 (Z.lor ModeDevice 416));
    by vm_compute.
Defined.

Section WithRaw.

Context {Raw : Type}.
Context (Bind : string → Raw → BindResult * Raw).

Lemma bindLoop_stops i : ∀ pairs ra pr ra1 ra2 minors,
  pairs !! i = Some pr →
  bindAll Bind (take i pairs) ra = Some (ra1, minors) →
  Bind (Src pr) ra1 = (BindExists, ra2) →
  ∃ tr, bindLoop Bind pairs ra = (None, ra2, tr)
        ∧ binds tr = Src <$> take (S i) pairs
        ∧ registered tr = RbUnbind <$> minors.
Proof.
  induction i as [|i IH]; intros [|q pairs] ra pr ra1 ra2 minors Hi Ha Hb;
    try done.
  - cbn in Hi, Ha. simplify_eq. cbn [bindLoop]. rewrite Hb. by eexists.
  - cbn in Hi. cbn [take bindAll] in Ha. cbn [bindLoop].
    destruct (Bind (Src q) ra) as [[minor| |err] ra'] eqn:Eq; try done.
    destruct (bindAll Bind (take i pairs) ra') as [[ra'' ms]|] eqn:Ea; [|done].
    simplify_eq.
    destruct (IH pairs ra' pr ra1 ra2 ms Hi Ea Hb) as (tr & -> & Hbs & Hr).
    eexists. split; [done|]. split.
    + unfold binds in *. csimpl. by rewrite Hbs.
    + unfold registered in *. csimpl. by rewrite Hr.
Qed.

(** X23: [startCharDevices] stops at the first device that is already
    bound: when the devices before index i bind and the one at index i is
    reported as already bound, nil is returned after i+1 binds, one
    unbind being registered for each of the i devices bound, and the
    devices after index i are not bound. *)
Theorem startCharDevices_stops_at_bound_device t pairs ra i pr ra1 ra2 minors :
  CreateCharDevices t = true →
  pairs !! i = Some pr →
  bindAll Bind (take i pairs) ra = Some (ra1, minors) →
  Bind (Src pr) ra1 = (BindExists, ra2) →
  ∃ tr, startCharDevices Bind t true pairs ra = (None, ra2, tr)
        ∧ binds tr = Src <$> take (S i) pairs
        ∧ registered tr = RbUnbind <$> minors
        ∧ length minors = i.
Proof.
  intros Hc Hi Ha Hb. unfold startCharDevices. rewrite Hc. cbn.
  destruct (bindLoop_stops i pairs ra pr ra1 ra2 minors Hi Ha Hb)
    as (tr & -> & Hbs & Hr).
  exists tr. split; [done|]. split; [done|]. split; [done|].
  clear Hb Hbs Hr tr. apply lookup_lt_Some in Hi. revert pairs ra minors Ha Hi.
  induction i as [|i IH]; intros [|q pairs] ra minors Ha Hi; cbn in *;
    try lia; simplify_eq; try done.
  destruct (Bind (Src q) ra) as [[minor| |err] ra']; try done.
  destruct (bindAll Bind (take i pairs) ra') as [[ra'' ms]|] eqn:Ea; [|done].
  simplify_eq. cbn. f_equal. eapply IH; [done | lia].
Qed.

End WithRaw.

Lemma startCharDevices_stops_at_bound_device_witness :
  ∃ tr, startCharDevices sampleBind sampleT true
          [mkDevPair "/dev/sdb" None; mkDevPair "/dev/sdc" None;
           mkDevPair "/dev/sdd" None] ["/dev/sdc"%string]
          = (None, ["/dev/sdc"; "/dev/sdb"]%string, tr)
        ∧ binds tr
          = Src <$> take 2 [mkDevPair "/dev/sdb" None; mkDevPair "/dev/sdc" None;
                             mkDevPair "/dev/sdd" None]
        ∧ registered tr = RbUnbind <$> [2]
        ∧ length [2] = 1%nat.
Proof.
  apply (startCharDevices_stops_at_bound_device sampleBind sampleT
           [mkDevPair "/dev/sdb" None; mkDevPair "/dev/sdc" None;
            mkDevPair "/dev/sdd" None] ["/dev/sdc"%string] 1
           (mkDevPair "/dev/sdc" None) ["/dev/sdc"; "/dev/sdb"]%string
           ["/dev/sdc"; "/dev/sdb"]%string [2]);
    by vm_compute.
Defined.

End ResDiskRawFacts.
